(** * graphql-validity: resolver interception and validation aggregation

    A shallow embedding of the resolver wrapper of graphql-validity.

    Three source texts are covered:
    - [src/schema-wrapper.ts], lines 1-323: the wrapper that finds the
      per-request state on a request-shaped argument (called V1 below);
    - the unnamed index module (imports [./helpers], [./profiling],
      [./validation]): the wrapper that finds the state under [rootValue],
      unwraps [DataValidationResult] and records profiling (called V2);
    - the unnamed profiling module ([storeProfilingInfo]).

    An [async function] is embedded as a resumption: a tree of synchronous
    effects on the shared store whose [await] nodes are the only points at
    which another resolver may run.  Validators and original resolvers are
    user code: a call is recorded with its arguments and answered from
    outside; the receiver [this] that the wrapper passes on is not kept.
    The registry of validators is an object literal; a lookup in it that
    finds a member of [Object.prototype] instead of a registered list hands
    that member to the wrapper, which calls it like a validator. *)

From Stdlib Require Import ZArith Lia.
From stdpp Require Import base strings list gmap.

Local Open Scope Z_scope.
Local Open Scope string_scope.
Local Open Scope list_scope.
Local Open Scope stdpp_scope.

(** ** JavaScript values that the wrapper touches *)

Inductive JsValue : Type :=
| JUndefined
| JNull
| JBool (b : bool)
| JNum (z : Z)
| JStr (s : string).

(** A plain object literal, keyed by property name. *)
Abbreviation JsObject := (gmap string JsValue).

(** [o.message]: an absent property reads as [undefined]. *)
Definition get_message (o : JsObject) : JsValue :=
  default JUndefined (o !! "message").

(** A thrown [Error]: the two properties the code reads. *)
Record JsError : Type := mkError { message : string; stack : string }.

(** [new Error(msg)]: the first line of the engine's stack is
    [Error: msg]; the frames below it are left out. *)
Definition newError (msg : string) : JsError :=
  {| message := msg; stack := "Error: " +:+ msg |}.

(** The [TypeError] of a property access on [undefined]. *)
Definition typeError (msg : string) : JsError :=
  {| message := msg; stack := "TypeError: " +:+ msg |}.

(** Modelled from the spec: the class [DataValidationResult] of the absent
    [./helpers] module, "a tagged wrapper a resolver may return instead of a
    bare value, carrying data and an ordered list of errors". *)
Record DataValidationResult : Type :=
  { data : JsValue; errors : list JsObject }.

(** What the original resolver's promise fulfils with; the constructor is
    the outcome of [instanceof DataValidationResult]. *)
Inductive ResolveOutput : Type :=
| Plain (v : JsValue)
| DataValidation (d : DataValidationResult).

(** ** The per-request state [__graphQLValidity] *)

Definition loc := nat.
Definition Path := list string.

(** The [profile] literal built at index lines 185-189. *)
Record Profile : Type :=
  { name : string;
    validation : Z;
    execution : Z;
    fieldsExecution : Z;
    totalExecution : Z }.

(** The entry pushed by [storeProfilingInfo]: [{ path, profile }]. *)
Record ProfilingEntry : Type :=
  { path : option Path; profile : Profile }.

(** The object the adapters attach to a request.  Each property may be
    [undefined], which is [None]. *)
Record Validity : Type :=
  { ___validationResults : option (list JsObject);
    ___globalValidationResults : option (list JsObject);
    ___profilingData : option (list ProfilingEntry) }.

Global Instance Validity_inhabited : Inhabited Validity :=
  populate {| ___validationResults := None;
              ___globalValidationResults := None;
              ___profilingData := None |}.

(** The state as the middleware creates it (schema-wrapper.ts 73-76). *)
Definition freshValidity : Validity :=
  {| ___validationResults := Some [];
     ___globalValidationResults := None;
     ___profilingData := None |}.

(** Modelled from the spec: the state the adapters of the index module
    create (they are absent from the sources), with its list of profiling
    records: "localResults, globalResults (starts absent),
    profilingRecords". *)
Definition freshProfiledValidity : Validity :=
  {| ___validationResults := Some [];
     ___globalValidationResults := None;
     ___profilingData := Some [] |}.

(** One argument of a resolver call, reduced to the properties that the
    wrappers inspect.  A falsy argument has none of them. *)
Record Arg : Type :=
  { arg_validity : option loc;      (* arg.__graphQLValidity            *)
    arg_rootValidity : option loc;  (* arg.rootValue.__graphQLValidity  *)
    arg_parentType : option string; (* arg.parentType, as a string      *)
    arg_path : option Path }.       (* arg.path                         *)

(** A validator is a function object; its name stands for its identity. *)
Definition validator := string.
Definition resolverId := nat.

(** What [console.error] receives. *)
Inductive ConsoleArg : Type :=
| CStr (s : string)
| CErr (e : JsError).

(** Everything outside one resolver activation: the heap of per-request
    states, the console, and the two sources of fresh values, [Date.now]
    and [uuid], each an infinite stream with a read position. *)
Record World : Type :=
  { heap : gmap loc Validity;
    console : list (list ConsoleArg);
    clock : nat -> Z;
    ticks : nat;
    uuids : nat -> string;
    drawn : nat }.

Definition validityAt (w : World) (l : loc) : Validity := heap w !!! l.

Definition updValidity (l : loc) (f : Validity -> Validity) (w : World) : World :=
  {| heap := <[l := f (validityAt w l)]> (heap w);
     console := console w;
     clock := clock w; ticks := ticks w;
     uuids := uuids w; drawn := drawn w |}.

Definition tick (w : World) : World :=
  {| heap := heap w; console := console w;
     clock := clock w; ticks := S (ticks w);
     uuids := uuids w; drawn := drawn w |}.

Definition draw (w : World) : World :=
  {| heap := heap w; console := console w;
     clock := clock w; ticks := ticks w;
     uuids := uuids w; drawn := S (drawn w) |}.

Definition logError (line : list ConsoleArg) (w : World) : World :=
  {| heap := heap w; console := console w ++ [line];
     clock := clock w; ticks := ticks w;
     uuids := uuids w; drawn := drawn w |}.

(** ** Asynchronous programs *)

(** How a promise settles. *)
Inductive result (X : Type) : Type :=
| Fulfilled (x : X)
| Rejected (e : JsError).
Arguments Fulfilled {X} x.
Arguments Rejected {X} e.

(** The loop a validator is called from: the global loop or the local one
    (schema-wrapper.ts 210 and 218). *)
Inductive site : Type := Global | Local.

Global Instance site_eq_dec : EqDecision site.
Proof. solve_decision. Defined.

(** The body of an [async function].  [AwaitValidator] and [AwaitResolve]
    call the function and suspend until its promise settles; every other
    node runs without suspension.  The [site] and [loc] of a validator call
    record where the call comes from and for which state; they do not
    influence execution. *)
Inductive prog (A : Type) : Type :=
| Ret (a : A)
| Throw (e : JsError)
| Load (l : loc) (k : Validity -> prog A)
| Store (l : loc) (f : Validity -> Validity) (k : prog A)
| DateNow (k : Z -> prog A)
| Uuid (k : string -> prog A)
| ConsoleError (line : list ConsoleArg) (k : prog A)
| AwaitValidator (s : site) (l : loc) (v : validator) (args : list Arg)
    (k : result (list JsObject) -> prog A)
| AwaitResolve (r : resolverId) (args : list Arg)
    (k : result ResolveOutput -> prog A).
Arguments Ret {A} a.
Arguments Throw {A} e.
Arguments Load {A} l k.
Arguments Store {A} l f k.
Arguments DateNow {A} k.
Arguments Uuid {A} k.
Arguments ConsoleError {A} line k.
Arguments AwaitValidator {A} s l v args k.
Arguments AwaitResolve {A} r args k.

Fixpoint bind {A B : Type} (p : prog A) (f : A -> prog B) : prog B :=
  match p with
  | Ret a => f a
  | Throw e => Throw e
  | Load l k => Load l (fun vd => bind (k vd) f)
  | Store l g k => Store l g (bind k f)
  | DateNow k => DateNow (fun t => bind (k t) f)
  | Uuid k => Uuid (fun u => bind (k u) f)
  | ConsoleError line k => ConsoleError line (bind k f)
  | AwaitValidator s l v args k =>
      AwaitValidator s l v args (fun r => bind (k r) f)
  | AwaitResolve r args k => AwaitResolve r args (fun o => bind (k o) f)
  end.

Global Instance prog_ret : MRet prog := @Ret.
Global Instance prog_bind : MBind prog := fun A B f p => bind p f.

(** [try { p } catch (e) { h e }] *)
Fixpoint try_catch {A : Type} (p : prog A) (h : JsError -> prog A) : prog A :=
  match p with
  | Ret a => Ret a
  | Throw e => h e
  | Load l k => Load l (fun vd => try_catch (k vd) h)
  | Store l g k => Store l g (try_catch k h)
  | DateNow k => DateNow (fun t => try_catch (k t) h)
  | Uuid k => Uuid (fun u => try_catch (k u) h)
  | ConsoleError line k => ConsoleError line (try_catch k h)
  | AwaitValidator s l v args k =>
      AwaitValidator s l v args (fun r => try_catch (k r) h)
  | AwaitResolve r args k =>
      AwaitResolve r args (fun o => try_catch (k o) h)
  end.

(** [for (let x of xs) { body x }] *)
Fixpoint for_each {X : Type} (xs : list X) (body : X -> prog unit) : prog unit :=
  match xs with
  | [] => Ret tt
  | x :: rest => body x ;; for_each rest body
  end.

(** [await f.call(this, ...args)]: a rejection is thrown at the await. *)
Definition settle {X : Type} (r : result X) : prog X :=
  match r with
  | Fulfilled x => Ret x
  | Rejected e => Throw e
  end.

Definition await_validator (s : site) (l : loc) (v : validator)
    (args : list Arg) : prog (list JsObject) :=
  AwaitValidator s l v args settle.

Definition await_resolve (r : resolverId) (args : list Arg) : prog ResolveOutput :=
  AwaitResolve r args settle.

Definition date_now : prog Z := DateNow Ret.
Definition uuid : prog string := Uuid Ret.
Definition console_error (line : list ConsoleArg) : prog unit :=
  ConsoleError line (Ret tt).
Definition load (l : loc) : prog Validity := Load l Ret.
Definition store (l : loc) (f : Validity -> Validity) : prog unit :=
  Store l f (Ret tt).

(** ** Configuration, registry and schema entities *)

(** [ValidityConfig] (schema-wrapper.ts 7-11, with [enableProfiling] of the
    index module).  An absent [unhandledErrorWrapper] is replaced by
    [onUnhandledError] in [wrapResolvers] before any field is wrapped, so
    [None] stands for that default. *)
Record ValidityConfig : Type :=
  { wrapErrors : bool;
    enableProfiling : bool;
    unhandledErrorWrapper : option (JsError -> JsError);
    parentTypeName : option string }.

(** [FieldValidationDefinitions]: selector to registered validators. *)
Abbreviation Registry := (gmap string (list validator)).

(** The property names an object literal inherits from [Object.prototype]
    (ECMAScript 2015, 19.1.3 and B.2.2.1-B.2.2.5). *)
Definition objectPrototype : list string :=
  [ "constructor"; "hasOwnProperty"; "isPrototypeOf"; "propertyIsEnumerable";
    "toLocaleString"; "toString"; "valueOf";
    "__defineGetter__"; "__defineSetter__"; "__lookupGetter__";
    "__lookupSetter__"; "__proto__" ].

(** The value inherited under [member], as an entry of a list of
    validators.  Called like a validator (line 218), what it returns or
    throws for the receiver and the arguments it is given is the engine's
    matter; like the outcome of any validator it is answered from outside,
    a value that [push.apply] refuses (a string, a boolean) or a failing
    call being a rejection, an array-like value a fulfilment with its
    elements. *)
Definition inherited (member : string) : validator :=
  "Object.prototype." +:+ member.

(** [a || b] on strings that may be [undefined]. *)
Definition js_or (a b : option string) : option string :=
  match a with
  | None => b
  | Some s => if decide (s = "") then b else a
  end.

(** String conversion in [x + ':']. *)
Definition js_to_string (a : option string) : string := default "undefined" a.

(** A resolver function.  A wrapped one is the closure installed by
    [wrapField]; it captures the original resolver, the field (of which
    only [name] and [type] are read), the configuration and, in
    schema-wrapper.ts, the parent type name. *)
Inductive Resolver : Type :=
| Original (r : resolverId)
| WrappedV1 (resolve : Resolver) (fname ftype : string)
    (config : ValidityConfig) (parent : option string)
| WrappedV2 (resolve : Resolver) (fname ftype : string)
    (config : ValidityConfig).

(** A field of an object type, with its [Processed] marker. *)
Record Field : Type :=
  { fname : string;
    ftype : string;
    resolve : option Resolver;
    processed : bool }.

Definition fieldId := nat.

(** An entry of [schema.getTypeMap()].  [getFields] is [None] for a type
    without that method; its value lists the field objects by reference. *)
Record ObjectType : Type :=
  { tname : string;
    getFields : option (list fieldId);
    tprocessed : bool }.

Definition Schema := list ObjectType.

(** What [wrapResolvers] may be handed, by [constructor.name]. *)
Inductive Entity : Type :=
| EntSchema (s : Schema)
| EntObjectType (t : ObjectType)
| EntOther (f : fieldId).

(** ** src/schema-wrapper.ts, lines 1-323 *)

Module SchemaWrapper.

(** lines 26-32 *)
Definition onUnhandledError (error : JsError) : prog JsError :=
  id ← uuid;
  console_error
    [CStr ("Unhandled error occured with id:" +:+ id +:+ ", stack:" +:+ stack error)];;
  mret (newError ("An internal error occured, with following id:" +:+ id
                  +:+ ", please contact Administrator!")).

(** [config.unhandledErrorWrapper(e)] *)
Definition callErrorWrapper (config : ValidityConfig) (e : JsError) : prog JsError :=
  match unhandledErrorWrapper config with
  | Some f => mret (f e)
  | None => onUnhandledError e
  end.

(** lines 224-230, the [catch] block *)
Definition onCatch {A : Type} (config : ValidityConfig) (e : JsError) : prog A :=
  if wrapErrors config
  then e' ← callErrorWrapper config e; Throw e'
  else Throw e.

(** lines 110-130.  [.map] on an [undefined] list throws. *)
Record Response : Type :=
  { rdata : option JsValue; rerrors : option (list JsObject) }.

Definition projectMessage (error : JsObject) : JsObject :=
  {[ "message" := get_message error ]}.

Definition getResponseValidationResults (validity : Validity) (response : Response)
    : result Response :=
  let globalValidationResults := default [] (___globalValidationResults validity) in
  match ___validationResults validity with
  | None => Rejected (typeError "Cannot read property 'map' of undefined")
  | Some validationResults =>
      Fulfilled
        {| rdata := rdata response;
           rerrors := Some (default [] (rerrors response)
                            ++ map projectMessage validationResults
                            ++ map projectMessage globalValidationResults) |}
  end.

(** lines 241-255.  The returned [validationResults] is the array stored
    in the state, which later pushes reach through [pushLocal]; the
    returned [globalValidationResults] is the value read. *)
Definition initLocal (vd : Validity) : Validity :=
  {| ___validationResults := Some [];
     ___globalValidationResults := ___globalValidationResults vd;
     ___profilingData := ___profilingData vd |}.

Definition getValidationResults (l : loc) : prog (option (list JsObject)) :=
  vd ← load l;
  match ___validationResults vd with
  | None => store l initLocal
  | Some _ => mret tt
  end;;
  vd' ← load l;
  mret (___globalValidationResults vd').

(** [FieldValidationDefinitions[selector]] (lines 267-279).  The registry
    is the object literal of line 18, so a selector that is not registered
    on it is still looked up in [Object.prototype]: the value read is the
    registered array, or the member inherited under that name, or
    [undefined]. *)
Inductive Property : Type :=
| RegisteredList (vs : list validator)
| InheritedMember (member : string)
| Undefined.

Definition getProperty (FieldValidationDefinitions : Registry)
    (selector : string) : Property :=
  match FieldValidationDefinitions !! selector with
  | Some vs => RegisteredList vs
  | None =>
      if bool_decide (selector ∈ objectPrototype)
      then InheritedMember selector
      else Undefined
  end.

(** [.concat(FieldValidationDefinitions[selector] || [])] (lines 266-277):
    what one selector contributes to the list of validators.  An array,
    also an empty one, is truthy and [concat] spreads it; an inherited
    member is truthy and no array, so [concat] appends it as one element;
    [undefined] gives way to the empty array. *)
Definition lookupValidators (FieldValidationDefinitions : Registry)
    (selector : string) : list validator :=
  match getProperty FieldValidationDefinitions selector with
  | RegisteredList vs => vs
  | InheritedMember member => [inherited member]
  | Undefined => []
  end.

(** lines 264-285.  ["$"] names no inherited member, so the value iterated
    at line 207 is the registered array or the empty one. *)
Definition getValidators (FieldValidationDefinitions : Registry)
    (ftype fname : string) (parentTypeName : option string)
    : list validator * list validator :=
  let validators :=
    lookupValidators FieldValidationDefinitions "*"
    ++ lookupValidators FieldValidationDefinitions ftype
    ++ lookupValidators FieldValidationDefinitions
         (js_to_string parentTypeName +:+ ":" +:+ fname) in
  let globalValidators := lookupValidators FieldValidationDefinitions "$" in
  (validators, globalValidators).

(** [validity.___globalValidationResults = []] (line 205) *)
Definition initGlobal (vd : Validity) : Validity :=
  {| ___validationResults := ___validationResults vd;
     ___globalValidationResults := Some [];
     ___profilingData := ___profilingData vd |}.

(** [Array.prototype.push.apply(globalValidationResults, rs)] *)
Definition pushGlobal (rs : list JsObject) (vd : Validity) : Validity :=
  {| ___validationResults := ___validationResults vd;
     ___globalValidationResults :=
       Some (default [] (___globalValidationResults vd) ++ rs);
     ___profilingData := ___profilingData vd |}.

(** [Array.prototype.push.apply(validationResults, rs)] *)
Definition pushLocal (rs : list JsObject) (vd : Validity) : Validity :=
  {| ___validationResults := Some (default [] (___validationResults vd) ++ rs);
     ___globalValidationResults := ___globalValidationResults vd;
     ___profilingData := ___profilingData vd |}.

(** lines 207-212 and 215-220: one loop over validators *)
Definition runValidators (s : site) (l : loc) (push : list JsObject -> Validity -> Validity)
    (vs : list validator) (args : list Arg) : prog unit :=
  for_each vs (fun v => rs ← await_validator s l v args; store l (push rs)).

(** lines 193-220, the branch taken when the state was found *)
Definition validate (FieldValidationDefinitions : Registry) (l : loc)
    (ftype fname : string) (parentTypeName : option string)
    (args : list Arg) : prog unit :=
  globalValidationResults ← getValidationResults l;
  let '(validators, globalValidators) :=
    getValidators FieldValidationDefinitions ftype fname parentTypeName in
  match globalValidationResults with
  | None =>
      store l initGlobal;;
      runValidators Global l pushGlobal globalValidators args
  | Some _ => mret tt
  end;;
  runValidators Local l pushLocal validators args.

(** lines 184-190: the first argument with a truthy [__graphQLValidity] *)
Fixpoint findRequest (args : list Arg) : option loc :=
  match args with
  | [] => None
  | arg :: rest =>
      match arg_validity arg with
      | Some l => Some l
      | None => findRequest rest
      end
  end.

(** lines 182-231: the function installed as [field.resolve] *)
Definition wrapped (FieldValidationDefinitions : Registry)
    (resolve : list Arg -> prog ResolveOutput)
    (fname ftype : string) (config : ValidityConfig)
    (parentTypeName : option string) (args : list Arg) : prog ResolveOutput :=
  try_catch
    (match findRequest args with
     | Some l => validate FieldValidationDefinitions l ftype fname parentTypeName args
     | None => mret tt
     end;;
     resolve args)
    (onCatch config).

(** lines 169-181 *)
Definition wrapField (field : Field) (config : ValidityConfig)
    (parent : option string) : Field :=
  let parent := js_or parent (parentTypeName config) in
  match resolve field with
  | None => field
  | Some resolve =>
      if processed field then field
      else {| fname := fname field;
              ftype := ftype field;
              resolve := Some (WrappedV1 resolve (fname field) (ftype field)
                                 config parent);
              processed := true |}
  end.

Definition wrapFieldRef (fields : gmap fieldId Field) (f : fieldId)
    (config : ValidityConfig) (parentTypeName : option string)
    : gmap fieldId Field :=
  alter (fun field => wrapField field config parentTypeName) f fields.

(** lines 293-306 *)
Definition wrapType (fields : gmap fieldId Field) (type : ObjectType)
    (config : ValidityConfig) : gmap fieldId Field :=
  match getFields type with
  | None => fields
  | Some fs =>
      if tprocessed type then fields
      else foldl (fun h f => wrapFieldRef h f config (Some (tname type))) fields fs
  end.

(** lines 314-323 *)
Definition wrapSchema (fields : gmap fieldId Field) (schema : Schema)
    (config : ValidityConfig) : gmap fieldId Field :=
  foldl (fun h type => wrapType h type config) fields schema.

(** lines 139-161 *)
Definition defaultConfig : ValidityConfig :=
  {| wrapErrors := false;
     enableProfiling := false;
     unhandledErrorWrapper := None;
     parentTypeName := Some "" |}.

Definition normalize (config : option ValidityConfig) : ValidityConfig :=
  match config with
  | None => defaultConfig
  | Some c =>
      {| wrapErrors := wrapErrors c;
         enableProfiling := enableProfiling c;
         unhandledErrorWrapper := unhandledErrorWrapper c;
         parentTypeName := js_or (parentTypeName c) (Some "") |}
  end.

Definition wrapResolvers (fields : gmap fieldId Field) (entity : Entity)
    (config : option ValidityConfig) : gmap fieldId Field :=
  let config := normalize config in
  match entity with
  | EntSchema s => wrapSchema fields s config
  | EntObjectType t => wrapType fields t config
  | EntOther f => wrapFieldRef fields f config None
  end.

End SchemaWrapper.

(** ** The profiling module *)

Module Profiling.

(** [validity.___profilingData.push({ path, profile })]; the property
    access throws when [___profilingData] is [undefined]. *)
Definition pushProfile (entry : ProfilingEntry) (vd : Validity) : Validity :=
  {| ___validationResults := ___validationResults vd;
     ___globalValidationResults := ___globalValidationResults vd;
     ___profilingData := Some (default [] (___profilingData vd) ++ [entry]) |}.

Definition storeProfilingInfo (l : loc) (path : option Path) (profile : Profile)
    : prog unit :=
  vd ← load l;
  match ___profilingData vd with
  | None => Throw (typeError "Cannot read property 'push' of undefined")
  | Some _ => store l (pushProfile {| path := path; profile := profile |})
  end.

End Profiling.

(** ** The index module

    [onUnhandledError] is imported from the absent [./helpers]; the
    function of that name in schema-wrapper.ts (lines 26-32) stands for it,
    so the [catch] block of both wrappers is [SchemaWrapper.onCatch]. *)

Module Index.

(** lines 115-124: the loop has no [break], the last match wins. *)
Definition scanValidity (args : list Arg) : option loc :=
  foldl (fun found arg =>
           match arg_rootValidity arg with
           | Some l => Some l
           | None => found
           end) None args.

Definition scanAst (args : list Arg) : option Arg :=
  foldl (fun found arg =>
           match arg_parentType arg with
           | Some _ => Some arg
           | None => found
           end) None args.

(** lines 162-177 *)
Definition unwrap (validity : option loc) (resolveOutput : ResolveOutput)
    : prog ResolveOutput :=
  match resolveOutput with
  | DataValidation d =>
      match validity with
      | Some l =>
          SchemaWrapper.getValidationResults l;;
          match errors d with
          | [] => mret tt
          | _ :: _ => store l (SchemaWrapper.pushLocal (errors d))
          end
      | None => mret tt
      end;;
      mret (Plain (data d))
  | Plain _ => mret resolveOutput
  end.

(** lines 182-195.  [ast.path] throws when no argument had a
    [parentType]. *)
Definition recordProfile (validity : option loc) (ast : option Arg)
    (config : ValidityConfig) (fname : string) (pst vet eet : Z) : prog unit :=
  try_catch
    (match validity with
     | Some l =>
         if enableProfiling config
         then
           match ast with
           | None => Throw (typeError "Cannot read property 'path' of undefined")
           | Some a =>
               Profiling.storeProfilingInfo l (arg_path a)
                 {| name := fname;
                    validation := vet - pst;
                    execution := eet - pst;
                    fieldsExecution := 0;
                    totalExecution := (eet - pst) - (vet - pst) |}
           end
         else mret tt
     | None => mret tt
     end)
    (fun err => console_error [CStr "Profiling failed!"; CErr err]).

(** lines 160-197: what follows the original resolver's result *)
Definition afterResolve (validity : option loc) (ast : option Arg)
    (config : ValidityConfig) (fname : string) (pst vet : Z)
    (resolveOutput : ResolveOutput) : prog ResolveOutput :=
  result ← unwrap validity resolveOutput;
  eet ← date_now;
  recordProfile validity ast config fname pst vet eet;;
  mret result.

(** lines 108-205: the function installed as [field.resolve].
    [getValidationResults] and [getValidators] come from the absent
    [./validation]; the functions of the same names in schema-wrapper.ts
    are used, applied to the state object instead of the request. *)
Definition wrapped (FieldValidationDefinitions : Registry)
    (resolve : list Arg -> prog ResolveOutput)
    (fname ftype : string) (config : ValidityConfig)
    (args : list Arg) : prog ResolveOutput :=
  try_catch
    (pst ← date_now;
     let validity := scanValidity args in
     let ast := scanAst args in
     let parentTypeName := ast ≫= arg_parentType in
     match validity with
     | Some l =>
         SchemaWrapper.validate FieldValidationDefinitions l ftype fname
           parentTypeName args
     | None => mret tt
     end;;
     vet ← date_now;
     resolveOutput ← resolve args;
     afterResolve validity ast config fname pst vet resolveOutput)
    (SchemaWrapper.onCatch config).

(** lines 98-107 *)
Definition wrapField (field : Field) (config : ValidityConfig) : Field :=
  match resolve field with
  | None => field
  | Some resolve =>
      if processed field then field
      else {| fname := fname field;
              ftype := ftype field;
              resolve := Some (WrappedV2 resolve (fname field) (ftype field) config);
              processed := true |}
  end.

Definition wrapFieldRef (fields : gmap fieldId Field) (f : fieldId)
    (config : ValidityConfig) : gmap fieldId Field :=
  alter (fun field => wrapField field config) f fields.

(** lines 214-227 *)
Definition wrapType (fields : gmap fieldId Field) (type : ObjectType)
    (config : ValidityConfig) : gmap fieldId Field :=
  match getFields type with
  | None => fields
  | Some fs =>
      if tprocessed type then fields
      else foldl (fun h f => wrapFieldRef h f config) fields fs
  end.

(** lines 235-244 *)
Definition wrapSchema (fields : gmap fieldId Field) (schema : Schema)
    (config : ValidityConfig) : gmap fieldId Field :=
  foldl (fun h type => wrapType h type config) fields schema.

(** lines 65-90.  The profiling sink is an adapter concern and is not
    part of the configuration kept here. *)
Definition defaultConfig : ValidityConfig :=
  {| wrapErrors := false;
     enableProfiling := false;
     unhandledErrorWrapper := None;
     parentTypeName := None |}.

Definition normalize (config : option ValidityConfig) : ValidityConfig :=
  default defaultConfig config.

Definition wrapResolvers (fields : gmap fieldId Field) (entity : Entity)
    (config : option ValidityConfig) : gmap fieldId Field :=
  let config := normalize config in
  match entity with
  | EntSchema s => wrapSchema fields s config
  | EntObjectType t => wrapType fields t config
  | EntOther f => wrapFieldRef fields f config
  end.

End Index.

(** ** Calling a resolver *)

(** [resolve.call(this, ...args)] for each kind of resolver function. *)
Fixpoint invoke (FieldValidationDefinitions : Registry) (r : Resolver)
    (args : list Arg) : prog ResolveOutput :=
  match r with
  | Original id => await_resolve id args
  | WrappedV1 inner fname ftype config parent =>
      SchemaWrapper.wrapped FieldValidationDefinitions
        (invoke FieldValidationDefinitions inner) fname ftype config parent args
  | WrappedV2 inner fname ftype config =>
      Index.wrapped FieldValidationDefinitions
        (invoke FieldValidationDefinitions inner) fname ftype config args
  end.

(** ** Running a program *)

(** A call made to the outside, in the order made. *)
Inductive call : Type :=
| CallValidator (s : site) (l : loc) (v : validator) (args : list Arg)
| CallResolve (r : resolverId) (args : list Arg).

(** How the outside settles a pending promise. *)
Inductive input : Type :=
| InValidator (rs : list JsObject)
| InResolve (o : ResolveOutput)
| InReject (e : JsError).

Record Outcome (A : Type) : Type :=
  { world_of : World;
    calls_of : list call;
    unread : list input;
    residual : prog A }.
Arguments world_of {A} o.
Arguments calls_of {A} o.
Arguments unread {A} o.
Arguments residual {A} o.

Definition called {A : Type} (c : call) (o : Outcome A) : Outcome A :=
  {| world_of := world_of o;
     calls_of := c :: calls_of o;
     unread := unread o;
     residual := residual o |}.

(** [run p ins w] executes [p] from the store [w]; each await calls its
    function and then takes the next element of [ins] as the settlement of
    the promise.  It stops at the end of [p], or at the first await that
    [ins] does not answer: then [residual] is the suspended program. *)
Fixpoint run {A : Type} (p : prog A) (ins : list input) (w : World) : Outcome A :=
  match p with
  | Ret _ | Throw _ =>
      {| world_of := w; calls_of := []; unread := ins; residual := p |}
  | Load l k => run (k (validityAt w l)) ins w
  | Store l f k => run k ins (updValidity l f w)
  | DateNow k => run (k (clock w (ticks w))) ins (tick w)
  | Uuid k => run (k (uuids w (drawn w))) ins (draw w)
  | ConsoleError line k => run k ins (logError line w)
  | AwaitValidator s l v args k =>
      called (CallValidator s l v args)
        match ins with
        | InValidator rs :: ins' => run (k (Fulfilled rs)) ins' w
        | InReject e :: ins' => run (k (Rejected e)) ins' w
        | _ => {| world_of := w; calls_of := []; unread := ins; residual := p |}
        end
  | AwaitResolve r args k =>
      called (CallResolve r args)
        match ins with
        | InResolve o :: ins' => run (k (Fulfilled o)) ins' w
        | InReject e :: ins' => run (k (Rejected e)) ins' w
        | _ => {| world_of := w; calls_of := []; unread := ins; residual := p |}
        end
  end.

Definition prepend {A : Type} (cs : list call) (o : Outcome A) : Outcome A :=
  {| world_of := world_of o;
     calls_of := cs ++ calls_of o;
     unread := unread o;
     residual := residual o |}.

Definition finished {A : Type} (w : World) (cs : list call) (ins : list input)
    (p : prog A) : Outcome A :=
  {| world_of := w; calls_of := cs; unread := ins; residual := p |}.


(** The store after the results [rss] of successive validators have been
    pushed, one [push] per validator. *)
Definition pushAll (l : loc) (push : list JsObject -> Validity -> Validity)
    (rss : list (list JsObject)) (w : World) : World :=
  foldl (fun w rs => updValidity l (push rs) w) w rss.

Definition validatorCalls (s : site) (l : loc) (args : list Arg)
    (vs : list validator) : list call :=
  map (fun v => CallValidator s l v args) vs.

(** The store after the synchronous prologue of [validate]: the local list
    is created when absent (lines 244-247), then the global list when
    absent (line 205). *)
Definition ensureLocal (l : loc) (w : World) : World :=
  match ___validationResults (validityAt w l) with
  | None => updValidity l SchemaWrapper.initLocal w
  | Some _ => w
  end.

Definition prologue (l : loc) (w : World) : World :=
  let w1 := ensureLocal l w in
  match ___globalValidationResults (validityAt w1 l) with
  | None => updValidity l SchemaWrapper.initGlobal w1
  | Some _ => w1
  end.

(** The global validators an activation entered in store [w] will run. *)
Definition globalDue (FieldValidationDefinitions : Registry) (w : World) (l : loc)
    : list validator :=
  match ___globalValidationResults (validityAt w l) with
  | None => SchemaWrapper.lookupValidators FieldValidationDefinitions "$"
  | Some _ => []
  end.

(** The store after a complete validation: prologue, global results [grs],
    local results [lrs]. *)
Definition afterValidate (l : loc) (grs lrs : list (list JsObject)) (w : World) : World :=
  pushAll l SchemaWrapper.pushLocal lrs
    (pushAll l SchemaWrapper.pushGlobal grs (prologue l w)).

(** The value a wrapped resolver of the index module returns for a result
    of the original resolver (index lines 160-177). *)
Definition effective (resolveOutput : ResolveOutput) : ResolveOutput :=
  match resolveOutput with
  | DataValidation d => Plain (data d)
  | Plain _ => resolveOutput
  end.

(** The local validators among a series of calls, in call order. *)
Definition localValidatorsRun (cs : list call) : list validator :=
  omap (fun c => match c with
                 | CallValidator Local _ v _ => Some v
                 | _ => None
                 end) cs.

(** The global validators called for the state [l]. *)
Definition globalValidatorsRun (l : loc) (cs : list call) : list validator :=
  omap (fun c => match c with
                 | CallValidator Global l' v _ =>
                     if decide (l' = l) then Some v else None
                 | _ => None
                 end) cs.

(** The calls to original resolvers, with the arguments passed. *)
Definition resolverCalls (cs : list call) : list (resolverId * list Arg) :=
  omap (fun c => match c with
                 | CallResolve r args => Some (r, args)
                 | _ => None
                 end) cs.

(** ** Shapes of programs *)

(** Every await of [p] rethrows a rejection unchanged. *)
Inductive propagating {A : Type} : prog A -> Prop :=
| pr_ret a : propagating (Ret a)
| pr_throw e : propagating (Throw e)
| pr_load l k : (forall vd, propagating (k vd)) -> propagating (Load l k)
| pr_store l f k : propagating k -> propagating (Store l f k)
| pr_now k : (forall t, propagating (k t)) -> propagating (DateNow k)
| pr_uuid k : (forall u, propagating (k u)) -> propagating (Uuid k)
| pr_console line k : propagating k -> propagating (ConsoleError line k)
| pr_validator s l v args k :
    (forall e, k (Rejected e) = Throw e) ->
    (forall rs, propagating (k (Fulfilled rs))) ->
    propagating (AwaitValidator s l v args k)
| pr_resolve r args k :
    (forall e, k (Rejected e) = Throw e) ->
    (forall o, propagating (k (Fulfilled o))) ->
    propagating (AwaitResolve r args k).

(** Every await of [p] hands a rejection to the handler [h]. *)
Inductive guarded {A : Type} (h : JsError -> prog A) : prog A -> Prop :=
| gd_ret a : guarded h (Ret a)
| gd_throw e : guarded h (Throw e)
| gd_load l k : (forall vd, guarded h (k vd)) -> guarded h (Load l k)
| gd_store l f k : guarded h k -> guarded h (Store l f k)
| gd_now k : (forall t, guarded h (k t)) -> guarded h (DateNow k)
| gd_uuid k : (forall u, guarded h (k u)) -> guarded h (Uuid k)
| gd_console line k : guarded h k -> guarded h (ConsoleError line k)
| gd_validator s l v args k :
    (forall e, k (Rejected e) = h e) ->
    (forall rs, guarded h (k (Fulfilled rs))) ->
    guarded h (AwaitValidator s l v args k)
| gd_resolve r args k :
    (forall e, k (Rejected e) = h e) ->
    (forall o, guarded h (k (Fulfilled o))) ->
    guarded h (AwaitResolve r args k).

(** [p] is suspended at an await. *)
Definition awaiting {A : Type} (p : prog A) : Prop :=
  match p with
  | AwaitValidator _ _ _ _ _ | AwaitResolve _ _ _ => True
  | _ => False
  end.

Definition is_reject (i : input) : Prop :=
  match i with InReject _ => True | _ => False end.

(** [p] calls no original resolver. *)
Inductive noResolve {A : Type} : prog A -> Prop :=
| nr_ret a : noResolve (Ret a)
| nr_throw e : noResolve (Throw e)
| nr_load l k : (forall vd, noResolve (k vd)) -> noResolve (Load l k)
| nr_store l f k : noResolve k -> noResolve (Store l f k)
| nr_now k : (forall t, noResolve (k t)) -> noResolve (DateNow k)
| nr_uuid k : (forall u, noResolve (k u)) -> noResolve (Uuid k)
| nr_console line k : noResolve k -> noResolve (ConsoleError line k)
| nr_validator s l v args k :
    (forall r, noResolve (k r)) -> noResolve (AwaitValidator s l v args k).

(** [p] calls the original resolver [r] with [args] once before it returns
    a value, and never twice. *)
Inductive resolvesOnce {A : Type} (r : resolverId) (args : list Arg) : prog A -> Prop :=
| ro_throw e : resolvesOnce r args (Throw e)
| ro_load l k : (forall vd, resolvesOnce r args (k vd)) -> resolvesOnce r args (Load l k)
| ro_store l f k : resolvesOnce r args k -> resolvesOnce r args (Store l f k)
| ro_now k : (forall t, resolvesOnce r args (k t)) -> resolvesOnce r args (DateNow k)
| ro_uuid k : (forall u, resolvesOnce r args (k u)) -> resolvesOnce r args (Uuid k)
| ro_console line k : resolvesOnce r args k -> resolvesOnce r args (ConsoleError line k)
| ro_validator s l v a k :
    (forall x, resolvesOnce r args (k x)) ->
    resolvesOnce r args (AwaitValidator s l v a k)
| ro_resolve k :
    (forall o, noResolve (k o)) -> resolvesOnce r args (AwaitResolve r args k).

(** The local validators [p] calls are [vs], in that order, for as long as
    its promises fulfil. *)
Inductive localsWithin {A : Type} : list validator -> prog A -> Prop :=
| lw_ret vs a : localsWithin vs (Ret a)
| lw_throw vs e : localsWithin vs (Throw e)
| lw_load vs l k : (forall vd, localsWithin vs (k vd)) -> localsWithin vs (Load l k)
| lw_store vs l f k : localsWithin vs k -> localsWithin vs (Store l f k)
| lw_now vs k : (forall t, localsWithin vs (k t)) -> localsWithin vs (DateNow k)
| lw_uuid vs k : (forall u, localsWithin vs (k u)) -> localsWithin vs (Uuid k)
| lw_console vs line k : localsWithin vs k -> localsWithin vs (ConsoleError line k)
| lw_global vs l v args k :
    (forall r, localsWithin vs (k r)) ->
    localsWithin vs (AwaitValidator Global l v args k)
| lw_local v vs l args k :
    (forall r, localsWithin vs (k r)) ->
    localsWithin (v :: vs) (AwaitValidator Local l v args k)
| lw_resolve vs r args k :
    (forall o, localsWithin vs (k o)) -> localsWithin vs (AwaitResolve r args k).

(** [p], entered after [n] readings of the clock, takes its readings at
    fixed places: it is suspended at a validator only after [nv] readings,
    at an original resolver only after [nr], and it returns a value only
    after [nret]. *)
Inductive paced {A : Type} (nv nr nret : nat) : nat -> prog A -> Prop :=
| pc_ret a : paced nv nr nret nret (Ret a)
| pc_throw n e : paced nv nr nret n (Throw e)
| pc_load n l k :
    (forall vd, paced nv nr nret n (k vd)) -> paced nv nr nret n (Load l k)
| pc_store n l f k : paced nv nr nret n k -> paced nv nr nret n (Store l f k)
| pc_now n k :
    (forall t, paced nv nr nret (S n) (k t)) -> paced nv nr nret n (DateNow k)
| pc_uuid n k :
    (forall u, paced nv nr nret n (k u)) -> paced nv nr nret n (Uuid k)
| pc_console n line k :
    paced nv nr nret n k -> paced nv nr nret n (ConsoleError line k)
| pc_validator s l v args k :
    (forall r, paced nv nr nret nv (k r)) ->
    paced nv nr nret nv (AwaitValidator s l v args k)
| pc_resolve r args k :
    (forall o, paced nv nr nret nr (k o)) ->
    paced nv nr nret nr (AwaitResolve r args k).

(** ** Measuring wrappers *)

(** The number of interception layers around the original resolver. *)
Fixpoint layers (r : Resolver) : nat :=
  match r with
  | Original _ => 0
  | WrappedV1 inner _ _ _ _ => S (layers inner)
  | WrappedV2 inner _ _ _ => S (layers inner)
  end.

(** A field that a wrap call leaves alone: marker set, or no resolver. *)
Definition settled (f : Field) : Prop :=
  processed f = true ∨ resolve f = None.

(** A field as a schema declares it: marker unset, resolver not a wrapper. *)
Definition pristine (f : Field) : Prop :=
  processed f = false ∧
  match resolve f with
  | Some (Original _) | None => True
  | Some _ => False
  end.

(** The fields a wrap call on a type visits, in visiting order. *)
Definition visitsType (t : ObjectType) : list fieldId :=
  if tprocessed t then [] else default [] (getFields t).

(** The fields [wrapResolvers] of schema-wrapper.ts visits for an entity,
    each with the parent type name handed to [wrapField]. *)
Definition planV1 (e : Entity) : list (fieldId * option string) :=
  match e with
  | EntSchema s =>
      concat (map (fun t => map (fun f => (f, Some (tname t))) (visitsType t)) s)
  | EntObjectType t => map (fun f => (f, Some (tname t))) (visitsType t)
  | EntOther f => [(f, None)]
  end.

(** The fields [wrapResolvers] of the index module visits. *)
Definition planV2 (e : Entity) : list fieldId :=
  match e with
  | EntSchema s => concat (map visitsType s)
  | EntObjectType t => visitsType t
  | EntOther f => [f]
  end.

(** A series of [wrapResolvers] calls, applied in order. *)
Definition wrapAllV1 (fields : gmap fieldId Field)
    (callsV1 : list (Entity * option ValidityConfig)) : gmap fieldId Field :=
  foldl (fun h ec => SchemaWrapper.wrapResolvers h ec.1 ec.2) fields callsV1.

Definition wrapAllV2 (fields : gmap fieldId Field)
    (callsV2 : list (Entity * option ValidityConfig)) : gmap fieldId Field :=
  foldl (fun h ec => Index.wrapResolvers h ec.1 ec.2) fields callsV2.

(** A series of in-place updates of field objects, and the first update a
    given field receives in it. *)
Definition applyOps (h : gmap fieldId Field)
    (ops : list (fieldId * (Field -> Field))) : gmap fieldId Field :=
  foldl (fun h op => alter op.2 op.1 h) h ops.

Definition firstOp (i : fieldId) (ops : list (fieldId * (Field -> Field)))
    : option (Field -> Field) :=
  snd <$> find (fun op => bool_decide (op.1 = i)) ops.

Definition opsV1 (config : option ValidityConfig) (e : Entity)
    : list (fieldId * (Field -> Field)) :=
  map (fun ip => (ip.1, fun f => SchemaWrapper.wrapField f
                                   (SchemaWrapper.normalize config) ip.2))
      (planV1 e).

Definition opsV2 (config : option ValidityConfig) (e : Entity)
    : list (fieldId * (Field -> Field)) :=
  map (fun i => (i, fun f => Index.wrapField f (Index.normalize config)))
      (planV2 e).

Definition isWrapV1 (g : Field -> Field) : Prop :=
  exists c p, g = fun f => SchemaWrapper.wrapField f c p.

Definition isWrapV2 (g : Field -> Field) : Prop :=
  exists c, g = fun f => Index.wrapField f c.

(** ** Many resolvers in flight *)

(** One request's fields, and those of other requests, resolve
    concurrently on one thread: a resolver runs from one await to the next
    without interruption, and between two such segments any other resolver
    may run one of its own.  [tasks] holds every activation started so far,
    suspended at an await or finished; [trace] lists the calls made, each
    with the index of the activation that made it. *)
Record Pool : Type :=
  { pworld : World;
    tasks : list (prog ResolveOutput);
    trace : list (nat * call) }.

Inductive event : Type :=
| Invoke (r : Resolver) (args : list Arg)  (* the engine calls a field's resolver *)
| Settle (tid : nat) (i : input).          (* a pending promise settles *)

(** The continuation of a suspended program for a settlement of the
    promise it waits for. *)
Definition resume {A : Type} (p : prog A) (i : input) : option (prog A) :=
  match p, i with
  | AwaitValidator _ _ _ _ k, InValidator rs => Some (k (Fulfilled rs))
  | AwaitValidator _ _ _ _ k, InReject e => Some (k (Rejected e))
  | AwaitResolve _ _ k, InResolve o => Some (k (Fulfilled o))
  | AwaitResolve _ _ k, InReject e => Some (k (Rejected e))
  | _, _ => None
  end.

Definition stamp (tid : nat) (cs : list call) : list (nat * call) :=
  map (pair tid) cs.

Definition poolStep (FieldValidationDefinitions : Registry) (P : Pool) (ev : event)
    : Pool :=
  match ev with
  | Invoke r args =>
      let o := run (invoke FieldValidationDefinitions r args) [] (pworld P) in
      {| pworld := world_of o;
         tasks := tasks P ++ [residual o];
         trace := trace P ++ stamp (length (tasks P)) (calls_of o) |}
  | Settle tid i =>
      match tasks P !! tid with
      | Some p =>
          match resume p i with
          | Some p' =>
              let o := run p' [] (pworld P) in
              {| pworld := world_of o;
                 tasks := <[tid := residual o]> (tasks P);
                 trace := trace P ++ stamp tid (calls_of o) |}
          | None => P
          end
      | None => P
      end
  end.

Definition poolRun (FieldValidationDefinitions : Registry) (P : Pool)
    (evs : list event) : Pool :=
  foldl (poolStep FieldValidationDefinitions) P evs.

(** A pool before any resolver has been called. *)
Definition emptyPool (w : World) : Pool :=
  {| pworld := w; tasks := []; trace := [] |}.

(** A resolver with at most one layer of interception. *)
Definition flat (r : Resolver) : Prop :=
  match r with
  | Original _ => True
  | WrappedV1 (Original _) _ _ _ _ => True
  | WrappedV2 (Original _) _ _ _ => True
  | _ => False
  end.

(** The state a resolver finds in its arguments. *)
Definition contextOf (r : Resolver) (args : list Arg) : option loc :=
  match r with
  | Original _ => None
  | WrappedV1 _ _ _ _ _ => SchemaWrapper.findRequest args
  | WrappedV2 _ _ _ _ => Index.scanValidity args
  end.

Definition configOf (r : Resolver) : option ValidityConfig :=
  match r with
  | Original _ => None
  | WrappedV1 _ _ _ c _ => Some c
  | WrappedV2 _ _ _ c => Some c
  end.

(** The resolver calls of a schedule, in order: activation [tid] is the
    [tid]-th of them. *)
Definition invocations (evs : list event) : list (Resolver * list Arg) :=
  omap (fun ev => match ev with
                  | Invoke r args => Some (r, args)
                  | Settle _ _ => None
                  end) evs.

Definition flatSchedule (evs : list event) : Prop :=
  Forall (fun ra => flat ra.1) (invocations evs).

Definition globalResultsAt (P : Pool) (l : loc) : option (list JsObject) :=
  ___globalValidationResults (validityAt (pworld P) l).

(** The global validators called for the state [l], with the activation
    that called each. *)
Definition globalCalls (l : loc) (tr : list (nat * call)) : list (nat * validator) :=
  omap (fun tc => match tc.2 with
                  | CallValidator Global l' v _ =>
                      if decide (l' = l) then Some (tc.1, v) else None
                  | _ => None
                  end) tr.

(** An activation that has returned a value. *)
Definition returned {A : Type} (p : prog A) : Prop :=
  match p with Ret _ => True | _ => False end.

(** Every activation of the schedule [evs] that found the state [l] has
    returned a value; the activations of other requests may be pending. *)
Definition requestReturned (l : loc) (evs : list event) (P : Pool) : Prop :=
  forall tid ra p,
    invocations evs !! tid = Some ra -> contextOf ra.1 ra.2 = Some l ->
    tasks P !! tid = Some p -> returned p.

(** *** What an activation may do to the state [l] *)

(** An update that leaves the global list alone and keeps a local list. *)
Definition keepsGlobal (f : Validity -> Validity) : Prop :=
  forall vd,
    ___globalValidationResults (f vd) = ___globalValidationResults vd
    ∧ (is_Some (___validationResults vd) -> is_Some (___validationResults (f vd))).

(** [p] never touches the state [l]. *)
Inductive stranger (l : loc) {A : Type} : prog A -> Prop :=
| st_ret a : stranger l (Ret a)
| st_throw e : stranger l (Throw e)
| st_load l' k : l' ≠ l -> (forall vd, stranger l (k vd)) -> stranger l (Load l' k)
| st_store l' f k : l' ≠ l -> stranger l k -> stranger l (Store l' f k)
| st_now k : (forall t, stranger l (k t)) -> stranger l (DateNow k)
| st_uuid k : (forall u, stranger l (k u)) -> stranger l (Uuid k)
| st_console line k : stranger l k -> stranger l (ConsoleError line k)
| st_validator s l' v args k :
    l' ≠ l -> (forall r, stranger l (k r)) ->
    stranger l (AwaitValidator s l' v args k)
| st_resolve r args k :
    (forall o, stranger l (k o)) -> stranger l (AwaitResolve r args k).

(** Provided the global list of [l] exists whenever [p] reads the state,
    [p] calls no global validator for [l] and leaves that list alone. *)
Inductive quiet (l : loc) {A : Type} : prog A -> Prop :=
| q_ret a : quiet l (Ret a)
| q_throw e : quiet l (Throw e)
| q_load l' k :
    (forall vd, (l' = l -> is_Some (___globalValidationResults vd)) -> quiet l (k vd)) ->
    quiet l (Load l' k)
| q_store l' f k :
    (l' = l -> keepsGlobal f) -> quiet l k -> quiet l (Store l' f k)
| q_now k : (forall t, quiet l (k t)) -> quiet l (DateNow k)
| q_uuid k : (forall u, quiet l (k u)) -> quiet l (Uuid k)
| q_console line k : quiet l k -> quiet l (ConsoleError line k)
| q_validator s l' v args k :
    (s = Global -> l' ≠ l) -> (forall r, quiet l (k r)) ->
    quiet l (AwaitValidator s l' v args k)
| q_resolve r args k :
    (forall o, quiet l (k o)) -> quiet l (AwaitResolve r args k).

(** [p] is the activation that runs the global validators for [l]: it
    waits for one of them, [vs] are those still to settle, a fulfilment is
    pushed on the global list before the next one is called, a rejection
    goes to the handler [h]. *)
Inductive owner (l : loc) {A : Type} (h : JsError -> prog A)
    : list validator -> prog A -> Prop :=
| owner_await v vs args k :
    (forall e, k (Rejected e) = h e) ->
    (forall rs w,
        ___globalValidationResults (validityAt (world_of (run (k (Fulfilled rs)) [] w)) l)
        = Some (default [] (___globalValidationResults (validityAt w l)) ++ rs)) ->
    (forall rs w,
        is_Some (___validationResults (validityAt w l)) ->
        is_Some (___validationResults
                   (validityAt (world_of (run (k (Fulfilled rs)) [] w)) l))) ->
    (forall rs w, vs = [] -> quiet l (residual (run (k (Fulfilled rs)) [] w))) ->
    (forall rs w, vs ≠ [] -> owner l h vs (residual (run (k (Fulfilled rs)) [] w))) ->
    owner l h (v :: vs) (AwaitValidator Global l v args k).

(** The call a suspended program is waiting for. *)
Definition headCall {A : Type} (p : prog A) : list call :=
  match p with
  | AwaitValidator s l v args _ => [CallValidator s l v args]
  | AwaitResolve r args _ => [CallResolve r args]
  | _ => []
  end.

(** *** The invariant of a pool, for one state [l] *)

(** The activation [otid] that entered first: it found the state [l], and
    it is waiting for a global validator, or it is past the global loop, or
    it has thrown. *)
Definition ownerState (l : loc) (evs : list event) (otid : nat)
    (done todo : list validator) (p : prog ResolveOutput) : Prop :=
  (∃ ra, invocations evs !! otid = Some ra ∧ contextOf ra.1 ra.2 = Some l)
  ∧ ((∃ ra cfg v done',
         invocations evs !! otid = Some ra ∧ configOf ra.1 = Some cfg
         ∧ done = done' ++ [v]
         ∧ owner l (SchemaWrapper.onCatch cfg) (v :: todo) p)
     ∨ (todo = [] ∧ quiet l p)
     ∨ (∃ x, p = Throw x)).

Definition PoolInv (FieldValidationDefinitions : Registry) (l : loc)
    (evs : list event) (P : Pool) : Prop :=
  length (tasks P) = length (invocations evs)
  ∧ match globalResultsAt P l with
    | None =>
        Forall (stranger l) (tasks P)
        ∧ globalCalls l (trace P) = []
        ∧ Forall (fun ra => contextOf ra.1 ra.2 ≠ Some l) (invocations evs)
    | Some _ =>
        is_Some (___validationResults (validityAt (pworld P) l))
        ∧ ∃ otid done todo p,
            SchemaWrapper.lookupValidators FieldValidationDefinitions "$" = done ++ todo
            ∧ globalCalls l (trace P) = map (pair otid) done
            ∧ (SchemaWrapper.lookupValidators FieldValidationDefinitions "$" ≠ []
               -> done ≠ [])
            ∧ tasks P !! otid = Some p
            ∧ ownerState l evs otid done todo p
            ∧ (forall tid q, tasks P !! tid = Some q -> tid ≠ otid -> quiet l q)
    end.

(** ** Sample data *)

Definition sampleRegistry : Registry :=
  {[ "*" := ["everyField"];
     "TypeX" := ["typeXCheck"];
     "Parent:field" := ["fieldCheck"];
     "$" := ["auth"; "quota"] ]}.

(** An id stream that never repeats: [n] letters. *)
Fixpoint sampleUuid (n : nat) : string :=
  match n with
  | O => "u"
  | S n' => "x" +:+ sampleUuid n'
  end.

(** Readings 1000, 1005, 1015, then 1015 for ever. *)
Definition sampleClock (n : nat) : Z :=
  match n with
  | O => 1000
  | S O => 1005
  | _ => 1015
  end.

(** One request whose state is at address 7, as an adapter creates it. *)
Definition sampleWorld : World :=
  {| heap := {[ 7%nat := freshProfiledValidity ]};
     console := [];
     clock := sampleClock; ticks := 0;
     uuids := sampleUuid; drawn := 0 |}.

(** A request-shaped argument (schema-wrapper.ts). *)
Definition sampleRequest : Arg :=
  {| arg_validity := Some 7%nat; arg_rootValidity := None;
     arg_parentType := None; arg_path := None |}.

(** A context argument carrying [rootValue] and the field information
    (index module). *)
Definition sampleContext : Arg :=
  {| arg_validity := None; arg_rootValidity := Some 7%nat;
     arg_parentType := None; arg_path := None |}.

Definition sampleInfo : Arg :=
  {| arg_validity := None; arg_rootValidity := None;
     arg_parentType := Some "Parent"; arg_path := Some ["parent"; "field"] |}.

(** An argument without any of the inspected properties. *)
Definition samplePlainArg : Arg :=
  {| arg_validity := None; arg_rootValidity := None;
     arg_parentType := None; arg_path := None |}.

Definition sampleConfig (wrap profile : bool) : ValidityConfig :=
  {| wrapErrors := wrap; enableProfiling := profile;
     unhandledErrorWrapper := None; parentTypeName := Some "" |}.

Definition sampleV1 (wrap : bool) : Resolver :=
  WrappedV1 (Original 1%nat) "field" "TypeX" (sampleConfig wrap false) (Some "Parent").

Definition sampleV2 (wrap profile : bool) : Resolver :=
  WrappedV2 (Original 1%nat) "field" "TypeX" (sampleConfig wrap profile).

Definition violation (msg : string) : JsObject := {[ "message" := JStr msg ]}.

Definition boom : JsError := newError "boom".

(** The error of [push.apply] on a second argument that is no object. *)
Definition notArrayLike : JsError :=
  typeError "CreateListFromArrayLike called on non-object".

(** The configuration [config] with [enableProfiling] replaced. *)
Definition withProfiling (b : bool) (config : ValidityConfig) : ValidityConfig :=
  {| wrapErrors := wrapErrors config;
     enableProfiling := b;
     unhandledErrorWrapper := unhandledErrorWrapper config;
     parentTypeName := parentTypeName config |}.

(** The errors a resolver result carries besides its value. *)
Definition carriedErrors (resolveOutput : ResolveOutput) : list JsObject :=
  match resolveOutput with
  | DataValidation d => errors d
  | Plain _ => []
  end.

(** [p] is a call, with some arguments, of a resolver that one of the two
    [wrapField] functions installed with configuration [config] around an
    original resolver. *)
Definition wrappedWith (FieldValidationDefinitions : Registry)
    (config : ValidityConfig) (p : prog ResolveOutput) : Prop :=
  ∃ r fname ftype args,
    (∃ parent,
        p = invoke FieldValidationDefinitions
              (WrappedV1 (Original r) fname ftype config parent) args)
    ∨ p = invoke FieldValidationDefinitions
            (WrappedV2 (Original r) fname ftype config) args.

(** The message of the default error wrapper for a correlation id. *)
Definition genericMessage (id : string) : string :=
  "An internal error occured, with following id:" +:+ id
  +:+ ", please contact Administrator!".

(** The line the default error wrapper logs. *)
Definition unhandledLine (id : string) (error : JsError) : list ConsoleArg :=
  [CStr ("Unhandled error occured with id:" +:+ id +:+ ", stack:" +:+ stack error)].

(** A schema of two types that share the field object 0; field 1 has no
    resolver. *)
Definition sampleField : Field :=
  {| fname := "field"; ftype := "TypeX";
     resolve := Some (Original 1%nat); processed := false |}.

Definition sampleFields : gmap fieldId Field :=
  {[ 0%nat := sampleField;
     1%nat := {| fname := "id"; ftype := "ID"; resolve := None; processed := false |} ]}.

Definition sampleParent : ObjectType :=
  {| tname := "Parent"; getFields := Some [0%nat; 1%nat]; tprocessed := false |}.

Definition sampleSchema : Schema :=
  [ sampleParent;
    {| tname := "Shared"; getFields := Some [0%nat]; tprocessed := false |};
    {| tname := "String"; getFields := None; tprocessed := false |} ].

(** The schema is wrapped, then one of its types, then the field itself. *)
Definition sampleWraps : list (Entity * option ValidityConfig) :=
  [ (EntSchema sampleSchema, None);
    (EntObjectType sampleParent, Some (sampleConfig true false));
    (EntOther 0%nat, None) ].
(** ** Reading the outcome of a series of wrap calls *)

(** The first visit that [wrapResolvers] of schema-wrapper.ts pays to the
    field [i] when handed [e]: the parent type name it passes to
    [wrapField] there. *)
Definition firstVisitV1 (i : fieldId) (e : Entity) : option (option string) :=
  snd <$> find (fun ip => bool_decide (ip.1 = i)) (planV1 e).

(** The resolver a schema declared, under any interception layers. *)
Fixpoint innermost (r : Resolver) : resolverId :=
  match r with
  | Original id => id
  | WrappedV1 inner _ _ _ _ => innermost inner
  | WrappedV2 inner _ _ _ => innermost inner
  end.

(** The selector under which a field wrapped by schema-wrapper.ts looks
    for its own validators: [parent + ':' + name]. *)
Definition fieldSelector (parent fname : string) : string :=
  parent +:+ ":" +:+ fname.

(** A name that [||] passes on: neither [undefined] nor empty. *)
Definition truthyName (a : option string) : Prop :=
  match a with Some s => s ≠ "" | None => False end.

(** ** The order of the calls of one activation *)

(** [p] makes no call to the outside. *)
Inductive noCalls {A : Type} : prog A -> Prop :=
| nc_ret a : noCalls (Ret a)
| nc_throw e : noCalls (Throw e)
| nc_load l k : (forall vd, noCalls (k vd)) -> noCalls (Load l k)
| nc_store l f k : noCalls k -> noCalls (Store l f k)
| nc_now k : (forall t, noCalls (k t)) -> noCalls (DateNow k)
| nc_uuid k : (forall u, noCalls (k u)) -> noCalls (Uuid k)
| nc_console line k : noCalls k -> noCalls (ConsoleError line k).

(** [p] makes the calls [cs] in this order, the next one only after the
    promise of the one before has fulfilled: a validator that rejects, and
    whatever follows the resolver's settlement, lead to no further call. *)
Inductive follows {A : Type} : list call -> prog A -> Prop :=
| fo_load cs l k : (forall vd, follows cs (k vd)) -> follows cs (Load l k)
| fo_store cs l f k : follows cs k -> follows cs (Store l f k)
| fo_now cs k : (forall t, follows cs (k t)) -> follows cs (DateNow k)
| fo_uuid cs k : (forall u, follows cs (k u)) -> follows cs (Uuid k)
| fo_console cs line k : follows cs k -> follows cs (ConsoleError line k)
| fo_validator cs s l v args k :
    (forall e, noCalls (k (Rejected e))) ->
    (forall rs, follows cs (k (Fulfilled rs))) ->
    follows (CallValidator s l v args :: cs) (AwaitValidator s l v args k)
| fo_resolve r args k :
    (forall x, noCalls (k x)) -> follows [CallResolve r args] (AwaitResolve r args k).

(** The number of validator fulfilments a script starts with. *)
Fixpoint fulfilments (ins : list input) : nat :=
  match ins with
  | InValidator _ :: ins' => S (fulfilments ins')
  | _ => 0
  end.

(** Every call an activation of a wrapped resolver can make for the state
    [l] found in store [w], in order. *)
Definition callPlan (FieldValidationDefinitions : Registry) (w : World) (l : loc)
    (ftype fname : string) (parentTypeName : option string)
    (r : resolverId) (args : list Arg) : list call :=
  validatorCalls Global l args (globalDue FieldValidationDefinitions w l)
  ++ validatorCalls Local l args
       (fst (SchemaWrapper.getValidators FieldValidationDefinitions ftype fname
               parentTypeName))
  ++ [CallResolve r args].

(** ** Lists that only grow *)

(** A list property of the state after an update: the old elements are
    still there, in front and in order, and a list is not taken away. *)
Definition listGrows {X : Type} (before after : option (list X)) : Prop :=
  default [] before `prefix_of` default [] after
  ∧ (is_Some before -> is_Some after).

Definition grows (vd vd' : Validity) : Prop :=
  listGrows (___validationResults vd) (___validationResults vd')
  ∧ listGrows (___globalValidationResults vd) (___globalValidationResults vd')
  ∧ listGrows (___profilingData vd) (___profilingData vd').

(** Run from the store [w], [p] only ever extends the lists of a state:
    in the segment that starts now, and in every later segment whatever
    the store has become by then. *)
Fixpoint extending {A : Type} (p : prog A) (w : World) : Prop :=
  match p with
  | Ret _ | Throw _ => True
  | Load l k => extending (k (validityAt w l)) w
  | Store l f k =>
      grows (validityAt w l) (f (validityAt w l)) ∧ extending k (updValidity l f w)
  | DateNow k => extending (k (clock w (ticks w))) (tick w)
  | Uuid k => extending (k (uuids w (drawn w))) (draw w)
  | ConsoleError line k => extending k (logError line w)
  | AwaitValidator _ _ _ _ k => forall r w', extending (k r) w'
  | AwaitResolve _ _ k => forall r w', extending (k r) w'
  end.

(** ** Requests side by side *)

(** A call that is not a validator call for the state [l]. *)
Definition notFor (l : loc) (c : call) : Prop :=
  match c with
  | CallValidator _ l' _ _ => l' ≠ l
  | CallResolve _ _ => True
  end.

(** An event of a schedule in which no wrapped resolver finds the state
    [l], each resolver having at most one wrapper. *)
Definition besides (l : loc) (ev : event) : Prop :=
  match ev with
  | Invoke r args => flat r ∧ contextOf r args ≠ Some l
  | Settle _ _ => True
  end.

(** A second request, whose state is at address 8. *)
Definition otherRequest : Arg :=
  {| arg_validity := Some 8%nat; arg_rootValidity := None;
     arg_parentType := None; arg_path := None |}.

(** ** The Express adapter of schema-wrapper.ts (lines 42-102) *)

Module Express.

(** What [JSON.parse] makes of a response body, by what lines 80-86 do
    with the value: [result.data] throws on [null], is falsy on a value
    that is no object or has no truthy [data], and otherwise the value is
    a GraphQL response.  Of such a response the properties [data] and
    [errors] are kept, [errors] being absent or an array. *)
Inductive Parsed : Type :=
| ParsedNull
| ParsedOther
| ParsedResponse (result : SchemaWrapper.Response).

(** The two functions of the platform that the adapter calls.  [None] is
    the body of a [send] without arguments. *)
Record Platform : Type :=
  { Body : Type;
    JSON_parse : option Body -> result Parsed;
    JSON_stringify : SchemaWrapper.Response -> Body }.

(** A [send] function: the server's own, or the one line 78 installs,
    which has captured the [send] it replaced. *)
Inductive Sender : Type :=
| OwnSend
| Intercepting (originalSend : Sender).

(** The request and response objects of one HTTP exchange:
    [req.__graphQLValidity], [res.send], the argument lists the server's
    own [send] has received, and the number of calls of [next]. *)
Record Exchange (J : Platform) : Type :=
  { req_validity : option loc;
    res_send : Sender;
    delivered : list (list (Body J));
    nextCalls : nat }.
Arguments req_validity {J} _.
Arguments res_send {J} _.
Arguments delivered {J} _.
Arguments nextCalls {J} _.

(** A new state object [{ ___validationResults: [],
    ___globalValidationResults: undefined }] at an address not in use. *)
Definition newValidity (w : World) : loc := fresh (dom (heap w)).

Definition allocValidity (w : World) : World :=
  {| heap := <[newValidity w := freshValidity]> (heap w);
     console := console w;
     clock := clock w; ticks := ticks w;
     uuids := uuids w; drawn := drawn w |}.

(** The request as a resolver argument. *)
Definition requestArg {J : Platform} (x : Exchange J) : Arg :=
  {| arg_validity := req_validity x; arg_rootValidity := None;
     arg_parentType := None; arg_path := None |}.

(** lines 70-102.  On request and response objects none of the three
    statements of the outer [try] throws, so its [catch] is not entered;
    [next] is called in the [finally]. *)
Definition graphQLValidityMiddleware {J : Platform} (x : Exchange J) (w : World)
    : Exchange J * World :=
  ({| req_validity := Some (newValidity w);
      res_send := Intercepting (res_send x);
      delivered := delivered x;
      nextCalls := S (nextCalls x) |},
   allocValidity w).

(** lines 79-90, the [try] and [catch] of the installed [send]: the
    argument list handed on to the original [send]. *)
Definition intercept {J : Platform} (x : Exchange J) (args : list (Body J)) (w : World)
    : list (Body J) * World :=
  match JSON_parse J (head args) with
  | Rejected err => (args, logError [CErr err] w)
  | Fulfilled ParsedNull =>
      (args, logError [CErr (typeError "Cannot read property 'data' of null")] w)
  | Fulfilled ParsedOther => (args, w)
  | Fulfilled (ParsedResponse result) =>
      match req_validity x with
      | None =>
          (args,
           logError
             [CErr (typeError
                      "Cannot read property '___globalValidationResults' of undefined")]
             w)
      | Some l =>
          match SchemaWrapper.getResponseValidationResults (validityAt w l) result with
          | Rejected err => (args, logError [CErr err] w)
          | Fulfilled result' => (JSON_stringify J result' :: tail args, w)
          end
      end
  end.

(** [s.apply(res, args)] *)
Fixpoint send {J : Platform} (s : Sender) (x : Exchange J) (args : list (Body J))
    (w : World) : Exchange J * World :=
  match s with
  | OwnSend =>
      ({| req_validity := req_validity x;
          res_send := res_send x;
          delivered := delivered x ++ [args];
          nextCalls := nextCalls x |}, w)
  | Intercepting originalSend =>
      let '(args', w') := intercept x args w in
      send originalSend x args' w'
  end.

(** [res.send(...args)] *)
Definition callSend {J : Platform} (x : Exchange J) (args : list (Body J)) (w : World)
    : Exchange J * World :=
  send (res_send x) x args w.

(** lines 42-61.  The function returned for a request reads
    [request.__graphQLValidity] when it is called. *)
Inductive Extension : Type :=
| MergingExtension
| EmptyExtension.

Definition wrapExtension {J : Platform} (request : option (Exchange J)) (w : World)
    : Extension * option (Exchange J) * World :=
  match request with
  | Some x =>
      (MergingExtension,
       Some {| req_validity := Some (newValidity w);
               res_send := res_send x;
               delivered := delivered x;
               nextCalls := nextCalls x |},
       allocValidity w)
  | None => (EmptyExtension, None, w)
  end.

(** A call [extension({ result })], [response] being the content of the
    [result] object: its content afterwards, or what the call throws; the value returned is [null]
    either way. *)
Definition callExtension {J : Platform} (extension : Extension)
    (request : option (Exchange J)) (response : SchemaWrapper.Response) (w : World)
    : result SchemaWrapper.Response :=
  match extension with
  | EmptyExtension => Fulfilled response
  | MergingExtension =>
      match request ≫= req_validity with
      | None =>
          Rejected (typeError
                      "Cannot read property '___globalValidationResults' of undefined")
      | Some l => SchemaWrapper.getResponseValidationResults (validityAt w l) response
      end
  end.

End Express.

(** A platform for examples: a body is text that is no JSON, or the
    serialisation of a response object. *)
Inductive sampleBody : Type :=
| NotJson (text : string)
| Serialised (response : SchemaWrapper.Response).

(** Truthiness of a value. *)
Definition truthy (v : JsValue) : bool :=
  match v with
  | JUndefined | JNull | JBool false | JNum 0 | JStr "" => false
  | _ => true
  end.

Definition samplePlatform : Express.Platform :=
  {| Express.Body := sampleBody;
     Express.JSON_parse := fun body =>
       match body with
       | Some (Serialised response) =>
           if truthy (default JUndefined (SchemaWrapper.rdata response))
           then Fulfilled (Express.ParsedResponse response)
           else Fulfilled Express.ParsedOther
       | _ => Rejected {| message := "Unexpected token"; stack := "SyntaxError" |}
       end;
     Express.JSON_stringify := Serialised |}.

(** An exchange as the server hands it to the first middleware. *)
Definition sampleExchange : Express.Exchange samplePlatform :=
  {| Express.req_validity := None;
     Express.res_send := Express.OwnSend;
     Express.delivered := [];
     Express.nextCalls := 0 |}.

(** ** Accounting for what settlements add *)

(** Something is observed of the store ([view]), and for each settlement
    of a promise it is stated what is to be observed at the next
    suspension of the activation, given the store in which the promise
    settles. *)
Section Accounting.
Context {X : Type}.
Context (view : World -> X).
Context (afterValidator : site -> loc -> result (list JsObject) -> World -> X).
Context (afterResolver : result ResolveOutput -> World -> X).

(** [accounts p w acc Q E]: run from [w], [p] reaches its next suspension
    observing [acc]; every settlement after that, in whatever store, leads
    to the next suspension observing what is stated for it; and [p] ends
    in [Q] or [E] with the observation then expected. *)
Fixpoint accounts {A : Type} (p : prog A) (w : World) (acc : X)
    (Q : A -> World -> X -> Prop) (E : JsError -> World -> X -> Prop) : Prop :=
  match p with
  | Ret a => Q a w acc
  | Throw e => E e w acc
  | Load l' k => accounts (k (validityAt w l')) w acc Q E
  | Store l' f k => accounts k (updValidity l' f w) acc Q E
  | DateNow k => accounts (k (clock w (ticks w))) (tick w) acc Q E
  | Uuid k => accounts (k (uuids w (drawn w))) (draw w) acc Q E
  | ConsoleError line k => accounts k (logError line w) acc Q E
  | AwaitValidator s l' _ _ k =>
      view w = acc ∧ forall r w', accounts (k r) w' (afterValidator s l' r w') Q E
  | AwaitResolve _ _ k =>
      view w = acc ∧ forall r w', accounts (k r) w' (afterResolver r w') Q E
  end.

(** The end of an activation: the observation is the expected one. *)
Definition asExpected {A : Type} : A -> World -> X -> Prop :=
  fun _ w acc => view w = acc.

(** A whole activation, started or resumed in any store. *)
Definition accounted (p : prog ResolveOutput) : Prop :=
  forall w, accounts p w (view w) asExpected asExpected.

End Accounting.

(** What is to be observed after an event of a schedule, the events [done]
    having led to the pool [P]; [afterResolver] is given the resolver and
    the arguments of the activation. *)
Definition eventView {X : Type} (view : World -> X)
    (afterValidator : site -> loc -> result (list JsObject) -> World -> X)
    (afterResolver : Resolver * list Arg -> result ResolveOutput -> World -> X)
    (done : list event) (P : Pool) (ev : event) : X :=
  match ev with
  | Invoke _ _ => view (pworld P)
  | Settle tid i =>
      match tasks P !! tid with
      | Some (AwaitValidator s l' _ _ _) =>
          match i with
          | InValidator rs => afterValidator s l' (Fulfilled rs) (pworld P)
          | InReject e => afterValidator s l' (Rejected e) (pworld P)
          | InResolve _ => view (pworld P)
          end
      | Some (AwaitResolve _ _ _) =>
          match i, invocations done !! tid with
          | InResolve out, Some ra => afterResolver ra (Fulfilled out) (pworld P)
          | InReject e, Some ra => afterResolver ra (Rejected e) (pworld P)
          | _, _ => view (pworld P)
          end
      | _ => view (pworld P)
      end
  end.

(** *** The result lists *)

(** The local and the global results of the state [l], an absent list
    read as empty. *)
Definition Lists : Type := list JsObject * list JsObject.

Definition listsAt (l : loc) (w : World) : Lists :=
  (default [] (___validationResults (validityAt w l)),
   default [] (___globalValidationResults (validityAt w l))).

Definition addGain (acc gain : Lists) : Lists :=
  (acc.1 ++ gain.1, acc.2 ++ gain.2).

(** What the settlement of a validator's promise adds to the lists of
    [l]: the results it fulfils with, on the local or on the global list
    according to the loop that called it, when it was called for [l]. *)
Definition validatorGain (l : loc) (s : site) (l' : loc)
    (r : result (list JsObject)) : Lists :=
  match r with
  | Fulfilled rs =>
      if decide (l' = l)
      then match s with Local => (rs, []) | Global => ([], rs) end
      else ([], [])
  | Rejected _ => ([], [])
  end.

(** Whether an activation unwraps resolver results into the state [l]. *)
Definition unwrapsAt (l : loc) (ra : Resolver * list Arg) : bool :=
  match ra.1 with
  | WrappedV2 _ _ _ _ => bool_decide (Index.scanValidity ra.2 = Some l)
  | _ => false
  end.

(** What the settlement of the original resolver's promise adds: the
    errors its result carries, when the wrapper is the one of the index
    module and found [l]. *)
Definition resolveGain (l : loc) (ra : Resolver * list Arg)
    (r : result ResolveOutput) : Lists :=
  match r with
  | Fulfilled out => if unwrapsAt l ra then (carriedErrors out, []) else ([], [])
  | Rejected _ => ([], [])
  end.

Definition listsAfterValidator (l : loc) (s : site) (l' : loc)
    (r : result (list JsObject)) (w : World) : Lists :=
  addGain (listsAt l w) (validatorGain l s l' r).

Definition listsAfterResolver (l : loc) (ra : Resolver * list Arg)
    (r : result ResolveOutput) (w : World) : Lists :=
  addGain (listsAt l w) (resolveGain l ra r).

(** What an event of a schedule adds to the lists of [l]. *)
Definition eventGain (l : loc) (done : list event) (P : Pool) (ev : event) : Lists :=
  match ev with
  | Invoke _ _ => ([], [])
  | Settle tid i =>
      match tasks P !! tid, i with
      | Some (AwaitValidator s l' _ _ _), InValidator rs =>
          validatorGain l s l' (Fulfilled rs)
      | Some (AwaitResolve _ _ _), InResolve out =>
          match invocations done !! tid with
          | Some ra => resolveGain l ra (Fulfilled out)
          | None => ([], [])
          end
      | _, _ => ([], [])
      end
  end.

(** What a schedule adds, event by event. *)
Fixpoint gains (FieldValidationDefinitions : Registry) (l : loc)
    (done : list event) (P : Pool) (evs : list event) : Lists :=
  match evs with
  | [] => ([], [])
  | ev :: rest =>
      addGain (eventGain l done P ev)
        (gains FieldValidationDefinitions l (done ++ [ev])
           (poolStep FieldValidationDefinitions P ev) rest)
  end.

(** *** The profiling records *)

(** Of a profiling record: its path, its name, [fieldsExecution], and by
    how much [totalExecution] differs from [execution - validation]. *)
Definition RecordSummary : Type := option Path * string * Z * Z.

Definition summarize (entry : ProfilingEntry) : RecordSummary :=
  (path entry, name (profile entry), fieldsExecution (profile entry),
   totalExecution (profile entry)
   - (execution (profile entry) - validation (profile entry))).

Definition recordsAt (l : loc) (w : World) : list RecordSummary :=
  map summarize (default [] (___profilingData (validityAt w l))).

(** The record an activation writes into the state [l] when its resolver
    has fulfilled: the wrapper is the one of the index module, profiling
    is enabled, it found [l], and an argument carried the field
    information. *)
Definition recordOf (l : loc) (ra : Resolver * list Arg) : option RecordSummary :=
  match ra.1 with
  | WrappedV2 _ fname _ config =>
      if enableProfiling config && bool_decide (Index.scanValidity ra.2 = Some l)
      then (fun a => (arg_path a, fname, 0, 0)) <$> Index.scanAst ra.2
      else None
  | _ => None
  end.

(** What the settlement of the original resolver's promise adds to the
    profiling list of [l] in store [w]: the activation's record, when the
    state has a profiling list. *)
Definition recordGain (l : loc) (ra : Resolver * list Arg)
    (r : result ResolveOutput) (w : World) : list RecordSummary :=
  match r, recordOf l ra, ___profilingData (validityAt w l) with
  | Fulfilled _, Some record, Some _ => [record]
  | _, _, _ => []
  end.

Definition recordsAfterValidator (l : loc) (s : site) (l' : loc)
    (r : result (list JsObject)) (w : World) : list RecordSummary :=
  recordsAt l w.

Definition recordsAfterResolver (l : loc) (ra : Resolver * list Arg)
    (r : result ResolveOutput) (w : World) : list RecordSummary :=
  recordsAt l w ++ recordGain l ra r w.

(** The records an event of a schedule adds to the profiling list of [l]. *)
Definition eventRecords (l : loc) (done : list event) (P : Pool) (ev : event)
    : list RecordSummary :=
  match ev with
  | Invoke _ _ => []
  | Settle tid i =>
      match tasks P !! tid, i, invocations done !! tid with
      | Some (AwaitResolve _ _ _), InResolve out, Some ra =>
          recordGain l ra (Fulfilled out) (pworld P)
      | _, _, _ => []
      end
  end.

Fixpoint records (FieldValidationDefinitions : Registry) (l : loc)
    (done : list event) (P : Pool) (evs : list event) : list RecordSummary :=
  match evs with
  | [] => []
  | ev :: rest =>
      eventRecords l done P ev
      ++ records FieldValidationDefinitions l (done ++ [ev])
           (poolStep FieldValidationDefinitions P ev) rest
  end.

(** Every activation of a pool accounts for what it shows. *)
Definition poolAccounted {X : Type} (view : World -> X)
    (afterValidator : site -> loc -> result (list JsObject) -> World -> X)
    (afterResolver : Resolver * list Arg -> result ResolveOutput -> World -> X)
    (evs : list event) (P : Pool) : Prop :=
  length (tasks P) = length (invocations evs)
  ∧ forall tid p ra,
      tasks P !! tid = Some p -> invocations evs !! tid = Some ra ->
      accounted view afterValidator (afterResolver ra) p.

(** An argument carrying the state at address 8 under [rootValue]. *)
Definition otherContext : Arg :=
  {| arg_validity := None; arg_rootValidity := Some 8%nat;
     arg_parentType := None; arg_path := None |}.
(** ** General facts about [run] *)

Ltac unmonad := unfold mbind, mret, prog_bind, prog_ret in *.

Lemma prepend_nil {A} (o : Outcome A) : prepend [] o = o.
Proof. by destruct o. Qed.

Lemma prepend_prepend {A} cs1 cs2 (o : Outcome A) :
  prepend cs1 (prepend cs2 o) = prepend (cs1 ++ cs2) o.
Proof. unfold prepend; simpl. by rewrite app_assoc. Qed.

Lemma called_prepend {A} c (o : Outcome A) : called c o = prepend [c] o.
Proof. done. Qed.

(** [run] distributes over sequencing. *)
Lemma run_bind {A B} (p : prog A) (f : A -> prog B) ins w :
  run (bind p f) ins w =
  let o := run p ins w in
  match residual o with
  | Ret a => prepend (calls_of o) (run (f a) (unread o) (world_of o))
  | r => finished (world_of o) (calls_of o) (unread o) (bind r f)
  end.
Proof.
  revert ins w; induction p as [a|e|l k IH|l g k IH|k IH|k IH|line k IH
                               |s l v args k IH|r args k IH]; intros ins w; simpl.
  - by rewrite prepend_nil.
  - done.
  - apply IH.
  - apply IH.
  - apply IH.
  - apply IH.
  - apply IH.
  - destruct ins as [|[rs|o|e] ins']; simpl; try done.
    + rewrite IH; simpl. by destruct (residual (run (k (Fulfilled rs)) ins' w)).
    + rewrite IH; simpl. by destruct (residual (run (k (Rejected e)) ins' w)).
  - destruct ins as [|[rs|o|e] ins']; simpl; try done.
    + rewrite IH; simpl. by destruct (residual (run (k (Fulfilled o)) ins' w)).
    + rewrite IH; simpl. by destruct (residual (run (k (Rejected e)) ins' w)).
Qed.

(** [run] through a [try]: a throw of the body continues in the handler. *)
Lemma run_try_catch {A} (p : prog A) (h : JsError -> prog A) ins w :
  run (try_catch p h) ins w =
  let o := run p ins w in
  match residual o with
  | Throw e => prepend (calls_of o) (run (h e) (unread o) (world_of o))
  | r => finished (world_of o) (calls_of o) (unread o) (try_catch r h)
  end.
Proof.
  revert ins w; induction p as [a|e|l k IH|l g k IH|k IH|k IH|line k IH
                               |s l v args k IH|r args k IH]; intros ins w; simpl.
  - done.
  - by rewrite prepend_nil.
  - apply IH.
  - apply IH.
  - apply IH.
  - apply IH.
  - apply IH.
  - destruct ins as [|[rs|o|e] ins']; simpl; try done.
    + rewrite IH; simpl. by destruct (residual (run (k (Fulfilled rs)) ins' w)).
    + rewrite IH; simpl. by destruct (residual (run (k (Rejected e)) ins' w)).
  - destruct ins as [|[rs|o|e] ins']; simpl; try done.
    + rewrite IH; simpl. by destruct (residual (run (k (Fulfilled o)) ins' w)).
    + rewrite IH; simpl. by destruct (residual (run (k (Rejected e)) ins' w)).
Qed.

(** ** The validator loops *)

Import SchemaWrapper.

Lemma runValidators_cons s l push v vs args :
  runValidators s l push (v :: vs) args =
  AwaitValidator s l v args
    (fun r => bind (bind (settle r) (fun rs => store l (push rs)))
                (fun _ => runValidators s l push vs args)).
Proof. reflexivity. Qed.

(** Every validator fulfils: the loop calls all of them, in order. *)
Lemma run_validators_ok s l push vs args rss ins w :
  length rss = length vs ->
  run (runValidators s l push vs args) (map InValidator rss ++ ins) w =
  finished (pushAll l push rss w) (validatorCalls s l args vs) ins (Ret tt).
Proof.
  revert rss w; induction vs as [|v vs IH]; intros [|rs rss] w Hlen; try done.
  rewrite runValidators_cons; simpl.
  rewrite IH; [done | by injection Hlen].
Qed.

(** The validator after [rss] rejects: the loop throws there. *)
Lemma run_validators_reject s l push vs args rss e ins w :
  (length rss < length vs)%nat ->
  run (runValidators s l push vs args) (map InValidator rss ++ InReject e :: ins) w =
  finished (pushAll l push rss w)
    (take (S (length rss)) (validatorCalls s l args vs)) ins (Throw e).
Proof.
  revert rss w; induction vs as [|v vs IH]; intros rss w Hlen; simpl in Hlen; first lia.
  rewrite runValidators_cons.
  destruct rss as [|rs rss]; simpl; first done.
  rewrite IH; [done | simpl in Hlen; lia].
Qed.

(** The script ends inside the loop: the loop is suspended at the next
    validator. *)
Lemma run_validators_pending s l push vs args rss w :
  (length rss < length vs)%nat ->
  run (runValidators s l push vs args) (map InValidator rss) w =
  finished (pushAll l push rss w)
    (take (S (length rss)) (validatorCalls s l args vs)) []
    (runValidators s l push (drop (length rss) vs) args).
Proof.
  revert rss w; induction vs as [|v vs IH]; intros rss w Hlen; simpl in Hlen; first lia.
  destruct rss as [|rs rss]; first done.
  rewrite runValidators_cons; simpl.
  rewrite IH; [done | simpl in Hlen; lia].
Qed.

(** ** Reading the store after a series of pushes *)

Lemma validityAt_upd_eq l f w : validityAt (updValidity l f w) l = f (validityAt w l).
Proof. unfold validityAt, updValidity; simpl. by rewrite lookup_total_insert_eq. Qed.

Lemma validityAt_upd_ne l l' f w :
  l ≠ l' -> validityAt (updValidity l f w) l' = validityAt w l'.
Proof. intros. unfold validityAt, updValidity; simpl. by rewrite lookup_total_insert_ne. Qed.

Lemma pushAll_other l push rss w :
  console (pushAll l push rss w) = console w
  ∧ clock (pushAll l push rss w) = clock w
  ∧ ticks (pushAll l push rss w) = ticks w
  ∧ uuids (pushAll l push rss w) = uuids w
  ∧ drawn (pushAll l push rss w) = drawn w
  ∧ ∀ l', l ≠ l' -> validityAt (pushAll l push rss w) l' = validityAt w l'.
Proof.
  revert w; induction rss as [|rs rss IH]; intros w; simpl; first done.
  destruct (IH (updValidity l (push rs) w)) as (-> & -> & -> & -> & -> & H).
  repeat split; try done.
  intros l' Hne. rewrite H by done. by apply validityAt_upd_ne.
Qed.

Lemma pushAll_local l rss w :
  validityAt (pushAll l pushLocal rss w) l =
  match rss with
  | [] => validityAt w l
  | _ => pushLocal (concat rss) (validityAt w l)
  end.
Proof.
  revert w; induction rss as [|rs rss IH]; intros w; simpl; first done.
  rewrite IH, validityAt_upd_eq.
  destruct rss as [|rs' rss]; simpl.
  - by rewrite app_nil_r.
  - unfold pushLocal; simpl. by rewrite <- app_assoc.
Qed.

Lemma pushAll_global l rss w :
  validityAt (pushAll l pushGlobal rss w) l =
  match rss with
  | [] => validityAt w l
  | _ => pushGlobal (concat rss) (validityAt w l)
  end.
Proof.
  revert w; induction rss as [|rs rss IH]; intros w; simpl; first done.
  rewrite IH, validityAt_upd_eq.
  destruct rss as [|rs' rss]; simpl.
  - by rewrite app_nil_r.
  - unfold pushGlobal; simpl. by rewrite <- app_assoc.
Qed.

(** ** A complete validation *)

Arguments SchemaWrapper.validate : simpl never.
Arguments Index.afterResolve : simpl never.

Lemma run_validate_ok reg l ftype fname parent args grs lrs ins w :
  length grs = length (globalDue reg w l) ->
  length lrs = length (fst (getValidators reg ftype fname parent)) ->
  run (validate reg l ftype fname parent args)
      (map InValidator grs ++ map InValidator lrs ++ ins) w =
  finished (afterValidate l grs lrs w)
    (validatorCalls Global l args (globalDue reg w l)
     ++ validatorCalls Local l args (fst (getValidators reg ftype fname parent)))
    ins (Ret tt).
Proof.
  intros Hg Hl. unfold validate, getValidationResults. unmonad. simpl.
  unfold afterValidate, prologue, ensureLocal, globalDue in *.
  destruct (___validationResults (validityAt w l)) eqn:Hloc; simpl;
    rewrite ?validityAt_upd_eq; simpl;
    destruct (___globalValidationResults (validityAt w l)) eqn:Hglob; simpl.
  - destruct grs; [|done]. simpl. by rewrite run_validators_ok.
  - rewrite run_bind; simpl. rewrite run_validators_ok by done. simpl.
    rewrite run_validators_ok by done. done.
  - destruct grs; [|done]. simpl. by rewrite run_validators_ok.
  - rewrite run_bind; simpl. rewrite run_validators_ok by done. simpl.
    rewrite run_validators_ok by done. done.
Qed.

(** ** The store after a complete validation *)

Lemma tick_validityAt w l : validityAt (tick w) l = validityAt w l.
Proof. done. Qed.

Lemma prologue_other l w :
  console (prologue l w) = console w
  ∧ clock (prologue l w) = clock w
  ∧ ticks (prologue l w) = ticks w
  ∧ uuids (prologue l w) = uuids w
  ∧ drawn (prologue l w) = drawn w
  ∧ ∀ l', l ≠ l' -> validityAt (prologue l w) l' = validityAt w l'.
Proof.
  unfold prologue, ensureLocal.
  destruct (___validationResults (validityAt w l)); simpl;
    rewrite ?validityAt_upd_eq; simpl;
    destruct (___globalValidationResults (validityAt w l)); simpl;
    repeat split; try done; intros l' Hne;
    rewrite ?validityAt_upd_ne by done; done.
Qed.

Lemma prologue_at l w :
  validityAt (prologue l w) l =
  {| ___validationResults := Some (default [] (___validationResults (validityAt w l)));
     ___globalValidationResults :=
       Some (default [] (___globalValidationResults (validityAt w l)));
     ___profilingData := ___profilingData (validityAt w l) |}.
Proof.
  unfold prologue, ensureLocal.
  destruct (validityAt w l) as [[loc|] [glob|] prof] eqn:Hvd; simpl;
    rewrite ?validityAt_upd_eq, ?Hvd; simpl;
    rewrite ?validityAt_upd_eq, ?Hvd; simpl; done.
Qed.

Lemma afterValidate_other l grs lrs w :
  console (afterValidate l grs lrs w) = console w
  ∧ clock (afterValidate l grs lrs w) = clock w
  ∧ ticks (afterValidate l grs lrs w) = ticks w
  ∧ uuids (afterValidate l grs lrs w) = uuids w
  ∧ drawn (afterValidate l grs lrs w) = drawn w
  ∧ ∀ l', l ≠ l' -> validityAt (afterValidate l grs lrs w) l' = validityAt w l'.
Proof.
  unfold afterValidate.
  destruct (pushAll_other l pushLocal lrs (pushAll l pushGlobal grs (prologue l w)))
    as (-> & -> & -> & -> & -> & H1).
  destruct (pushAll_other l pushGlobal grs (prologue l w))
    as (-> & -> & -> & -> & -> & H2).
  destruct (prologue_other l w) as (-> & -> & -> & -> & -> & H3).
  repeat split; try done.
  intros l' Hne. by rewrite H1, H2, H3.
Qed.

Lemma afterValidate_at l grs lrs w :
  validityAt (afterValidate l grs lrs w) l =
  {| ___validationResults :=
       Some (default [] (___validationResults (validityAt w l)) ++ concat lrs);
     ___globalValidationResults :=
       Some (default [] (___globalValidationResults (validityAt w l)) ++ concat grs);
     ___profilingData := ___profilingData (validityAt w l) |}.
Proof.
  unfold afterValidate.
  rewrite pushAll_local, pushAll_global, prologue_at.
  destruct lrs, grs; simpl; rewrite ?app_nil_r; done.
Qed.

(** ** The last segment of the index wrapper *)

Lemma run_afterResolve_result validity ast cfg fname pst vet out ins w :
  let o := run (Index.afterResolve validity ast cfg fname pst vet out) ins w in
  residual o = Ret (effective out) ∧ unread o = ins ∧ calls_of o = []
  ∧ ticks (world_of o) = S (ticks w) ∧ clock (world_of o) = clock w
  ∧ uuids (world_of o) = uuids w ∧ drawn (world_of o) = drawn w.
Proof.
  unfold Index.afterResolve, Index.unwrap, Index.recordProfile,
    Profiling.storeProfilingInfo, getValidationResults.
  unmonad.
  destruct out as [v|[d errs]], validity as [l|]; simpl;
    repeat match goal with
    | |- context [match ?x with _ => _ end] => destruct x eqn:?; simpl
    end; done.
Qed.

Lemma logError_validityAt line w l : validityAt (logError line w) l = validityAt w l.
Proof. done. Qed.

Lemma draw_validityAt w l : validityAt (draw w) l = validityAt w l.
Proof. done. Qed.

Ltac norm_store :=
  repeat first
    [ rewrite validityAt_upd_eq
    | rewrite tick_validityAt
    | rewrite logError_validityAt
    | rewrite draw_validityAt
    | rewrite validityAt_upd_ne by done ];
  simpl.

Ltac crush_segment :=
  unfold Index.afterResolve, Index.unwrap, Index.recordProfile,
    Profiling.storeProfilingInfo, getValidationResults;
  unmonad; simpl;
  repeat (norm_store;
          match goal with
          | H : ?x = _ |- context [match ?x with _ => _ end] => rewrite H; simpl
          | |- context [match ?x with _ => _ end] => destruct x eqn:?; simpl
          end);
  norm_store.

(** No state found: the last segment touches neither heap nor console. *)
Lemma run_afterResolve_no_context ast cfg fname pst vet out ins w :
  let o := run (Index.afterResolve None ast cfg fname pst vet out) ins w in
  heap (world_of o) = heap w ∧ console (world_of o) = console w.
Proof. destruct out as [v|[d errs]]; crush_segment; done. Qed.

(** The result lists after the last segment. *)
Lemma run_afterResolve_lists l ast cfg fname pst vet out ins w :
  let w' := world_of (run (Index.afterResolve (Some l) ast cfg fname pst vet out) ins w) in
  ___validationResults (validityAt w' l) =
    match out with
    | DataValidation d =>
        Some (default [] (___validationResults (validityAt w l)) ++ errors d)
    | Plain _ => ___validationResults (validityAt w l)
    end
  ∧ ___globalValidationResults (validityAt w' l)
    = ___globalValidationResults (validityAt w l)
  ∧ ∀ l', l ≠ l' -> validityAt w' l' = validityAt w l'.
Proof.
  destruct out as [v|[d errs]]; crush_segment;
    repeat split; rewrite ?app_nil_r; try done;
    try (intros l' Hne; norm_store; done);
    simplify_eq/=; try done;
    match goal with H : ___validationResults _ = _ |- _ => by rewrite H end.
Qed.

(** Profiling is recorded when it is enabled, an argument carried
    [parentType] and the state has a [___profilingData] list. *)
Lemma run_afterResolve_profile l a cfg fname pst vet out ins w ps :
  enableProfiling cfg = true ->
  ___profilingData (validityAt w l) = Some ps ->
  let w' := world_of (run (Index.afterResolve (Some l) (Some a) cfg fname pst vet out) ins w) in
  ___profilingData (validityAt w' l) =
    Some (ps ++ [ {| path := arg_path a;
                     profile :=
                       {| name := fname;
                          validation := vet - pst;
                          execution := clock w (ticks w) - pst;
                          fieldsExecution := 0;
                          totalExecution := (clock w (ticks w) - pst) - (vet - pst) |} |} ])
  ∧ console w' = console w.
Proof.
  intros Hen Hps.
  destruct out as [v|[d errs]]; crush_segment; simplify_eq/=; try done;
    repeat match goal with
    | H : ___profilingData _ = _ |- _ => rewrite H in *; clear H
    end; simplify_eq/=; done.
Qed.

(** The recorder fails: nothing is recorded, one line is logged. *)
Lemma run_afterResolve_profile_fails l ast cfg fname pst vet out ins w :
  enableProfiling cfg = true ->
  ast = None ∨ ___profilingData (validityAt w l) = None ->
  let w' := world_of (run (Index.afterResolve (Some l) ast cfg fname pst vet out) ins w) in
  ___profilingData (validityAt w' l) = ___profilingData (validityAt w l)
  ∧ ∃ err, console w' = console w ++ [[CStr "Profiling failed!"; CErr err]].
Proof.
  intros Hen Hfail.
  destruct out as [v|[d errs]]; crush_segment; simplify_eq/=;
    try (destruct Hfail; congruence);
    (split; [try done|eauto]);
    repeat match goal with
    | H : ___profilingData _ = _ |- _ => rewrite H in *; clear H
    end; simplify_eq/=; try done; destruct Hfail; congruence.
Qed.

(** Profiling is off: nothing is recorded or logged. *)
Lemma run_afterResolve_profile_off l ast cfg fname pst vet out ins w :
  enableProfiling cfg = false ->
  let w' := world_of (run (Index.afterResolve (Some l) ast cfg fname pst vet out) ins w) in
  ___profilingData (validityAt w' l) = ___profilingData (validityAt w l)
  ∧ console w' = console w.
Proof.
  intros Hen.
  destruct out as [v|[d errs]]; crush_segment; simplify_eq/=; done.
Qed.

(** ** Complete runs of a wrapped resolver *)

Local Opaque SchemaWrapper.validate Index.afterResolve.

(** schema-wrapper.ts, state found, every promise fulfils. *)
Lemma run_v1_ok reg fname ftype cfg parent r args l grs lrs out ins w :
  findRequest args = Some l ->
  length grs = length (globalDue reg w l) ->
  length lrs = length (fst (getValidators reg ftype fname parent)) ->
  run (invoke reg (WrappedV1 (Original r) fname ftype cfg parent) args)
      (map InValidator grs ++ map InValidator lrs ++ InResolve out :: ins) w =
  finished (afterValidate l grs lrs w)
    (validatorCalls Global l args (globalDue reg w l)
     ++ validatorCalls Local l args (fst (getValidators reg ftype fname parent))
     ++ [CallResolve r args])
    ins (Ret out).
Proof.
  intros Hctx Hg Hl. simpl. unfold wrapped. rewrite Hctx. unmonad.
  rewrite run_try_catch, run_bind. cbv zeta.
  rewrite run_validate_ok by done. simpl.
  by rewrite <- app_assoc.
Qed.

(** schema-wrapper.ts, no state found. *)
Lemma run_v1_no_context reg fname ftype cfg parent r args out ins w :
  findRequest args = None ->
  run (invoke reg (WrappedV1 (Original r) fname ftype cfg parent) args)
      (InResolve out :: ins) w =
  finished w [CallResolve r args] ins (Ret out).
Proof. intros Hctx. simpl. unfold wrapped. by rewrite Hctx. Qed.

(** index module, state found, every promise fulfils. *)
Lemma run_v2_ok reg fname ftype cfg r args l grs lrs out ins w :
  Index.scanValidity args = Some l ->
  length grs = length (globalDue reg w l) ->
  length lrs = length (fst (getValidators reg ftype fname
                              (Index.scanAst args ≫= arg_parentType))) ->
  run (invoke reg (WrappedV2 (Original r) fname ftype cfg) args)
      (map InValidator grs ++ map InValidator lrs ++ InResolve out :: ins) w =
  finished
    (world_of
       (run (Index.afterResolve (Some l) (Index.scanAst args) cfg fname
               (clock w (ticks w)) (clock w (S (ticks w))) out)
            ins (tick (afterValidate l grs lrs (tick w)))))
    (validatorCalls Global l args (globalDue reg w l)
     ++ validatorCalls Local l args
          (fst (getValidators reg ftype fname (Index.scanAst args ≫= arg_parentType)))
     ++ [CallResolve r args])
    ins (Ret (effective out)).
Proof.
  intros Hctx Hg Hl. simpl. unfold Index.wrapped. rewrite Hctx. unmonad. simpl.
  rewrite run_try_catch, run_bind. cbv zeta.
  rewrite run_validate_ok by done. simpl.
  destruct (afterValidate_other l grs lrs (tick w)) as (_ & -> & -> & _).
  simpl.
  destruct (run_afterResolve_result (Some l) (Index.scanAst args) cfg fname
              (clock w (ticks w)) (clock w (S (ticks w))) out ins
              (tick (afterValidate l grs lrs (tick w))))
    as (-> & -> & -> & _).
  unfold finished. f_equal. by rewrite <- app_assoc.
Qed.

(** index module, no state found. *)
Lemma run_v2_no_context reg fname ftype cfg r args out ins w :
  Index.scanValidity args = None ->
  run (invoke reg (WrappedV2 (Original r) fname ftype cfg) args)
      (InResolve out :: ins) w =
  finished
    (world_of
       (run (Index.afterResolve None (Index.scanAst args) cfg fname
               (clock w (ticks w)) (clock w (S (ticks w))) out)
            ins (tick (tick w))))
    [CallResolve r args] ins (Ret (effective out)).
Proof.
  intros Hctx. simpl. unfold Index.wrapped. rewrite Hctx. unmonad. simpl.
  rewrite run_try_catch. cbv zeta.
  destruct (run_afterResolve_result None (Index.scanAst args) cfg fname
              (clock w (ticks w)) (clock w (S (ticks w))) out ins (tick (tick w)))
    as (-> & -> & -> & _).
  done.
Qed.

Local Transparent SchemaWrapper.validate Index.afterResolve.

(** ** Rejections reach the [catch] block *)

Lemma propagating_bind {A B} (p : prog A) (f : A -> prog B) :
  propagating p -> (forall a, propagating (f a)) -> propagating (bind p f).
Proof.
  intros Hp Hf; induction Hp; simpl; try (constructor; eauto; fail); auto.
  - constructor; [|done]. intros e. by rewrite H.
  - constructor; [|done]. intros e. by rewrite H.
Qed.

Lemma propagating_runValidators s l push vs args :
  propagating (runValidators s l push vs args).
Proof.
  induction vs as [|v vs IH]; first by constructor.
  rewrite runValidators_cons. constructor; first done.
  intros rs; simpl. by constructor.
Qed.

Lemma propagating_validate reg l ftype fname parent args :
  propagating (validate reg l ftype fname parent args).
Proof.
  unfold validate, getValidationResults. unmonad; simpl.
  constructor; intros vd.
  destruct (___validationResults vd); simpl.
  - constructor; intros vd'. destruct (___globalValidationResults vd'); simpl.
    + apply propagating_runValidators.
    + constructor. apply propagating_bind; [apply propagating_runValidators|].
      intros _. apply propagating_runValidators.
  - constructor. constructor; intros vd'.
    destruct (___globalValidationResults vd'); simpl.
    + apply propagating_runValidators.
    + constructor. apply propagating_bind; [apply propagating_runValidators|].
      intros _. apply propagating_runValidators.
Qed.

Lemma propagating_afterResolve validity ast cfg fname pst vet out :
  propagating (Index.afterResolve validity ast cfg fname pst vet out).
Proof.
  unfold Index.afterResolve, Index.unwrap, Index.recordProfile,
    Profiling.storeProfilingInfo, getValidationResults.
  unmonad.
  destruct out as [v|[d errs]], validity as [l|], ast as [a|],
    (enableProfiling cfg); simpl;
    repeat first
      [ constructor; intros
      | match goal with
        | |- context [match ?x with _ => _ end] => destruct x; simpl
        end ].
Qed.

Lemma guarded_onCatch {A} cfg cfg' e : guarded (@onCatch A cfg) (@onCatch A cfg' e).
Proof.
  unfold onCatch, callErrorWrapper, onUnhandledError. unmonad.
  destruct (wrapErrors cfg'), (unhandledErrorWrapper cfg'); simpl;
    repeat (constructor; intros).
Qed.

Lemma guarded_try_catch {A} (p : prog A) h :
  propagating p -> (forall e, guarded h (h e)) -> guarded h (try_catch p h).
Proof.
  intros Hp Hh; induction Hp; simpl; try (constructor; eauto; fail); auto.
  - constructor; [|done]. intros e. by rewrite H.
  - constructor; [|done]. intros e. by rewrite H.
Qed.

(** The two wrappers, around an original resolver. *)
Lemma guarded_v1 reg r fname ftype cfg parent args :
  guarded (onCatch cfg) (invoke reg (WrappedV1 (Original r) fname ftype cfg parent) args).
Proof.
  simpl. unfold wrapped. apply guarded_try_catch; [|apply guarded_onCatch].
  unmonad. apply propagating_bind.
  - destruct (findRequest args); [apply propagating_validate|constructor].
  - intros _. constructor; [done|]. intros o; constructor.
Qed.

Lemma guarded_v2 reg r fname ftype cfg args :
  guarded (onCatch cfg) (invoke reg (WrappedV2 (Original r) fname ftype cfg) args).
Proof.
  simpl. unfold Index.wrapped. apply guarded_try_catch; [|apply guarded_onCatch].
  unmonad. simpl. constructor; intros pst.
  apply propagating_bind.
  - destruct (Index.scanValidity args); [apply propagating_validate|constructor].
  - intros _. simpl. constructor; intros vet.
    constructor; [done|]. intros o; simpl. apply propagating_afterResolve.
Qed.

(** A rejection at the await where [p] is suspended after [pre] runs the
    handler on the rejection, in the store [p] was suspended in. *)
Lemma run_reject_at_await {A} (h : JsError -> prog A) p pre e post w :
  guarded h p ->
  Forall (fun i => ¬ is_reject i) pre ->
  awaiting (residual (run p pre w)) ->
  unread (run p pre w) = [] ->
  run p (pre ++ InReject e :: post) w =
  prepend (calls_of (run p pre w)) (run (h e) post (world_of (run p pre w))).
Proof.
  intros Hg; revert pre w; induction Hg; intros pre w Hpre Haw Hun; simpl in *;
    try done; eauto.
  - destruct pre as [|[rs'|o|e'] pre']; simpl in *; simplify_eq.
    + by rewrite H.
    + inversion_clear Hpre. by rewrite H1.
    + inversion_clear Hpre. by exfalso.
  - destruct pre as [|[rs'|o|e'] pre']; simpl in *; simplify_eq.
    + by rewrite H.
    + inversion_clear Hpre. by rewrite H1.
    + inversion_clear Hpre. by exfalso.
Qed.

(** What the [catch] block does, by configuration. *)
Lemma run_onCatch_plain {A} cfg e ins w :
  wrapErrors cfg = false ->
  run (@onCatch A cfg e) ins w = finished w [] ins (Throw e).
Proof. intros H. unfold onCatch. by rewrite H. Qed.

Lemma run_onCatch_custom {A} cfg f e ins w :
  wrapErrors cfg = true -> unhandledErrorWrapper cfg = Some f ->
  run (@onCatch A cfg e) ins w = finished w [] ins (Throw (f e)).
Proof. intros H Hf. unfold onCatch, callErrorWrapper. by rewrite H, Hf. Qed.

Lemma run_onCatch_default {A} cfg e ins w :
  wrapErrors cfg = true -> unhandledErrorWrapper cfg = None ->
  run (@onCatch A cfg e) ins w =
  finished
    (logError [CStr ("Unhandled error occured with id:" +:+ uuids w (drawn w)
                     +:+ ", stack:" +:+ stack e)] (draw w))
    [] ins
    (Throw (newError ("An internal error occured, with following id:"
                      +:+ uuids w (drawn w) +:+ ", please contact Administrator!"))).
Proof. intros H Hf. unfold onCatch, callErrorWrapper. by rewrite H, Hf. Qed.

(** ** How often the original resolver is called *)

Lemma noResolve_bind {A B} (p : prog A) (f : A -> prog B) :
  noResolve p -> (forall a, noResolve (f a)) -> noResolve (bind p f).
Proof. intros Hp Hf; induction Hp; simpl; try (constructor; eauto; fail); auto. Qed.

Lemma noResolve_try_catch {A} (p : prog A) h :
  noResolve p -> (forall e, noResolve (h e)) -> noResolve (try_catch p h).
Proof. intros Hp Hf; induction Hp; simpl; try (constructor; eauto; fail); auto. Qed.

Lemma resolvesOnce_bind {A B} r args (p : prog A) (f : A -> prog B) :
  resolvesOnce r args p -> (forall a, noResolve (f a)) ->
  resolvesOnce r args (bind p f).
Proof.
  intros Hp Hf; induction Hp; simpl; try (constructor; eauto; fail).
  constructor. intros o. by apply noResolve_bind.
Qed.

Lemma resolvesOnce_after {A B} r args (p : prog A) (f : A -> prog B) :
  noResolve p -> (forall a, resolvesOnce r args (f a)) ->
  resolvesOnce r args (bind p f).
Proof. intros Hp Hf; induction Hp; simpl; try (constructor; eauto; fail); auto. Qed.

Lemma resolvesOnce_try_catch {A} r args (p : prog A) h :
  resolvesOnce r args p ->
  (forall e, resolvesOnce r args (h e)) -> (forall e, noResolve (h e)) ->
  resolvesOnce r args (try_catch p h).
Proof.
  intros Hp Hh1 Hh2; induction Hp; simpl; try (constructor; eauto; fail); auto.
  constructor. intros o. by apply noResolve_try_catch.
Qed.

Lemma noResolve_runValidators s l push vs args :
  noResolve (A:=unit) (runValidators s l push vs args).
Proof.
  induction vs as [|v vs IH]; first by constructor.
  rewrite runValidators_cons. constructor.
  intros [rs|e]; simpl; by repeat constructor.
Qed.

Lemma noResolve_validate reg l ftype fname parent args :
  noResolve (validate reg l ftype fname parent args).
Proof.
  unfold validate, getValidationResults. unmonad; simpl.
  constructor; intros vd.
  destruct (___validationResults vd); simpl;
    repeat (constructor; intros);
    match goal with |- context [___globalValidationResults ?x] =>
      destruct (___globalValidationResults x) end; simpl;
    repeat first [ apply noResolve_runValidators
                 | apply noResolve_bind; [|intros _]
                 | constructor ].
Qed.

Lemma noResolve_afterResolve validity ast cfg fname pst vet out :
  noResolve (Index.afterResolve validity ast cfg fname pst vet out).
Proof.
  unfold Index.afterResolve, Index.unwrap, Index.recordProfile,
    Profiling.storeProfilingInfo, getValidationResults.
  unmonad.
  destruct out as [v|[d errs]], validity as [l|], ast as [a|],
    (enableProfiling cfg); simpl;
    repeat first
      [ constructor; intros
      | match goal with
        | |- context [match ?x with _ => _ end] => destruct x; simpl
        end ].
Qed.

Lemma noResolve_onCatch {A} cfg e : noResolve (@onCatch A cfg e).
Proof.
  unfold onCatch, callErrorWrapper, onUnhandledError. unmonad.
  destruct (wrapErrors cfg), (unhandledErrorWrapper cfg); simpl;
    repeat (constructor; intros).
Qed.

Lemma resolvesOnce_onCatch {A} r args cfg e : resolvesOnce r args (@onCatch A cfg e).
Proof.
  unfold onCatch, callErrorWrapper, onUnhandledError. unmonad.
  destruct (wrapErrors cfg), (unhandledErrorWrapper cfg); simpl;
    repeat (constructor; intros).
Qed.

Lemma resolvesOnce_v1 reg r fname ftype cfg parent args :
  resolvesOnce r args (invoke reg (WrappedV1 (Original r) fname ftype cfg parent) args).
Proof.
  simpl. unfold wrapped.
  apply resolvesOnce_try_catch;
    [|intros; apply resolvesOnce_onCatch|intros; apply noResolve_onCatch].
  unmonad. apply resolvesOnce_after.
  - destruct (findRequest args); [apply noResolve_validate|constructor].
  - intros _. constructor. intros [o|e]; constructor.
Qed.

Lemma resolvesOnce_v2 reg r fname ftype cfg args :
  resolvesOnce r args (invoke reg (WrappedV2 (Original r) fname ftype cfg) args).
Proof.
  simpl. unfold Index.wrapped.
  apply resolvesOnce_try_catch;
    [|intros; apply resolvesOnce_onCatch|intros; apply noResolve_onCatch].
  unmonad. simpl. constructor; intros pst.
  apply resolvesOnce_after.
  - destruct (Index.scanValidity args); [apply noResolve_validate|constructor].
  - intros _. simpl. constructor; intros vet. constructor.
    intros [o|e]; simpl; [apply noResolve_afterResolve|constructor].
Qed.

Lemma noResolve_run {A} (p : prog A) ins w :
  noResolve p -> resolverCalls (calls_of (run p ins w)) = [].
Proof.
  intros Hp; revert ins w; induction Hp; intros ins w; simpl; eauto.
  destruct ins as [|[rs|o|e] ins']; simpl; eauto.
Qed.

(** Whatever the script, the original resolver is called at most once, and
    it has been called once when the wrapper returns a value. *)
Lemma resolvesOnce_run {A} r args (p : prog A) ins w :
  resolvesOnce r args p ->
  let o := run p ins w in
  (resolverCalls (calls_of o) = [] ∧ ∀ a, residual o ≠ Ret a)
  ∨ resolverCalls (calls_of o) = [(r, args)].
Proof.
  intros Hp; revert ins w; induction Hp; intros ins w; simpl; eauto.
  - destruct ins as [|[rs|o|e] ins']; simpl; eauto.
  - right. destruct ins as [|[rs|o|e] ins']; simpl; try done;
      by rewrite noResolve_run.
Qed.

(** ** Which local validators are called *)

Lemma localsWithin_weaken {A} vs (p : prog A) :
  localsWithin [] p -> localsWithin vs p.
Proof.
  intros Hp; remember [] as ws eqn:Hws; induction Hp; subst;
    try (constructor; eauto; fail); done.
Qed.

Lemma localsWithin_bind {A B} vs (p : prog A) (f : A -> prog B) :
  localsWithin [] p -> (forall a, localsWithin vs (f a)) ->
  localsWithin vs (bind p f).
Proof.
  intros Hp Hf; remember [] as ws eqn:Hws; induction Hp; subst; simpl;
    try (constructor; eauto; fail); auto; done.
Qed.

Lemma localsWithin_try_catch {A} vs (p : prog A) h :
  localsWithin vs p -> (forall e, localsWithin [] (h e)) ->
  localsWithin vs (try_catch p h).
Proof.
  intros Hp Hh; induction Hp; simpl; try (constructor; eauto; fail).
  by apply localsWithin_weaken.
Qed.

Lemma localsWithin_global_loop l push vs args :
  localsWithin (A:=unit) [] (runValidators Global l push vs args).
Proof.
  induction vs as [|v vs IH]; first by constructor.
  rewrite runValidators_cons. constructor.
  intros [rs|e]; simpl; by repeat constructor.
Qed.

Lemma localsWithin_local_loop {B} l push vs args ws (f : unit -> prog B) :
  (forall a, localsWithin ws (f a)) ->
  localsWithin (vs ++ ws) (bind (runValidators Local l push vs args) f).
Proof.
  intros Hf. induction vs as [|v vs IH]; first by simpl.
  rewrite runValidators_cons. simpl. constructor.
  intros [rs|e]; simpl; by repeat constructor.
Qed.

Lemma localsWithin_bind2 {A B C} vs (p : prog A) (g : A -> prog B) (f : B -> prog C) :
  localsWithin [] p -> (forall a, localsWithin vs (bind (g a) f)) ->
  localsWithin vs (bind (bind p g) f).
Proof.
  intros Hp Hf; remember [] as ws eqn:Hws; induction Hp; subst; simpl;
    try (constructor; eauto; fail); auto; done.
Qed.

Lemma localsWithin_validate {B} reg l ftype fname parent args ws (f : unit -> prog B) :
  (forall a, localsWithin ws (f a)) ->
  localsWithin (fst (getValidators reg ftype fname parent) ++ ws)
    (bind (validate reg l ftype fname parent args) f).
Proof.
  intros Hf. unfold validate, getValidationResults. unmonad; simpl.
  constructor; intros vd.
  destruct (___validationResults vd); simpl;
    repeat (constructor; intros);
    match goal with |- context [___globalValidationResults ?x] =>
      destruct (___globalValidationResults x) end; simpl;
    try (by apply localsWithin_local_loop);
    constructor;
    (apply localsWithin_bind2; [apply localsWithin_global_loop|]);
    intros _; by apply localsWithin_local_loop.
Qed.

Lemma localsWithin_afterResolve validity ast cfg fname pst vet out :
  localsWithin [] (Index.afterResolve validity ast cfg fname pst vet out).
Proof.
  unfold Index.afterResolve, Index.unwrap, Index.recordProfile,
    Profiling.storeProfilingInfo, getValidationResults.
  unmonad.
  destruct out as [v|[d errs]], validity as [l|], ast as [a|],
    (enableProfiling cfg); simpl;
    repeat first
      [ constructor; intros
      | match goal with
        | |- context [match ?x with _ => _ end] => destruct x; simpl
        end ].
Qed.

Lemma localsWithin_onCatch {A} cfg e : localsWithin [] (@onCatch A cfg e).
Proof.
  unfold onCatch, callErrorWrapper, onUnhandledError. unmonad.
  destruct (wrapErrors cfg), (unhandledErrorWrapper cfg); simpl;
    repeat (constructor; intros).
Qed.

Local Opaque SchemaWrapper.validate Index.afterResolve.

Lemma localsWithin_v1 reg r fname ftype cfg parent args l :
  findRequest args = Some l ->
  localsWithin (fst (getValidators reg ftype fname parent))
    (invoke reg (WrappedV1 (Original r) fname ftype cfg parent) args).
Proof.
  intros Hctx. simpl. unfold wrapped. rewrite Hctx.
  apply localsWithin_try_catch; [|intros; apply localsWithin_onCatch].
  unmonad.
  pose proof (localsWithin_validate reg l ftype fname parent args []
                (fun _ => invoke reg (Original r) args)) as H.
  rewrite app_nil_r in H. apply H.
  intros _. constructor. intros [o|e]; constructor.
Qed.

Lemma localsWithin_v2 reg r fname ftype cfg args l :
  Index.scanValidity args = Some l ->
  localsWithin
    (fst (getValidators reg ftype fname (Index.scanAst args ≫= arg_parentType)))
    (invoke reg (WrappedV2 (Original r) fname ftype cfg) args).
Proof.
  intros Hctx. simpl. unfold Index.wrapped. rewrite Hctx.
  apply localsWithin_try_catch; [|intros; apply localsWithin_onCatch].
  unmonad. simpl. constructor; intros pst.
  match goal with
  | |- localsWithin _ (bind (validate _ _ _ _ ?parent _) ?f) =>
      pose proof (localsWithin_validate reg l ftype fname parent args [] f) as H
  end.
  rewrite app_nil_r in H. apply H.
  intros _. simpl. constructor; intros vet. constructor.
  intros [o|e]; simpl; [apply localsWithin_afterResolve|constructor].
Qed.

Local Transparent SchemaWrapper.validate Index.afterResolve.

(** Whatever the script, the local validators called are an initial part
    of the selected list, in its order. *)
Lemma localsWithin_run {A} vs (p : prog A) ins w :
  localsWithin vs p -> localValidatorsRun (calls_of (run p ins w)) `prefix_of` vs.
Proof.
  intros Hp; revert ins w; induction Hp; intros ins w; simpl; eauto;
    try apply prefix_nil.
  - destruct ins as [|[rs|o|e] ins']; simpl; eauto; apply prefix_nil.
  - destruct ins as [|[rs|o|e] ins']; simpl;
      first [ apply prefix_cons; by eauto | apply prefix_cons, prefix_nil ].
  - destruct ins as [|[rs|o|e] ins']; simpl; eauto; apply prefix_nil.
Qed.

(** ** When the clock is read *)

Lemma paced_bind {A B} nv nr m nret n (p : prog A) (f : A -> prog B) :
  paced nv nr m n p -> (forall a, paced nv nr nret m (f a)) ->
  paced nv nr nret n (bind p f).
Proof. induction 1; intros Hf; simpl; try (constructor; auto); auto. Qed.

Lemma paced_try_catch {A} nv nr nret n (p : prog A) h :
  paced nv nr nret n p -> (forall m e, paced nv nr nret m (h e)) ->
  paced nv nr nret n (try_catch p h).
Proof. induction 1; intros Hh; simpl; try (constructor; auto); auto. Qed.

Lemma paced_runValidators nv nr s l push vs args :
  paced nv nr nv nv (runValidators s l push vs args).
Proof.
  induction vs as [|v vs IH]; [constructor|].
  rewrite runValidators_cons. constructor. intros [rs|e]; simpl.
  - constructor. exact IH.
  - constructor.
Qed.

Lemma paced_validate nv nr reg l ftype fname parent args :
  paced nv nr nv nv (validate reg l ftype fname parent args).
Proof.
  unfold validate, getValidationResults. unmonad. simpl.
  constructor; intros vd.
  destruct (___validationResults vd); simpl;
    repeat (constructor; intros);
    match goal with
    | |- context [___globalValidationResults ?x] =>
        destruct (___globalValidationResults x); simpl
    end;
    try apply paced_runValidators;
    constructor;
    (eapply paced_bind; [apply paced_runValidators|intros; apply paced_runValidators]).
Qed.

Lemma paced_onCatch {A} nv nr nret n cfg e : paced nv nr nret n (@onCatch A cfg e).
Proof.
  unfold onCatch, callErrorWrapper, onUnhandledError. unmonad.
  destruct (wrapErrors cfg); [|constructor].
  destruct (unhandledErrorWrapper cfg); simpl; repeat (constructor; intros).
Qed.

Lemma paced_afterResolve nv nr n validity ast cfg fname pst vet out :
  paced nv nr (S n) n (Index.afterResolve validity ast cfg fname pst vet out).
Proof.
  unfold Index.afterResolve, Index.unwrap, Index.recordProfile,
    Profiling.storeProfilingInfo, getValidationResults.
  unmonad.
  destruct out as [v|[d errs]], validity as [l|]; simpl;
    repeat (first [ constructor; intros
                  | match goal with
                    | |- context [match ?x with _ => _ end] => destruct x eqn:?; simpl
                    end ]).
Qed.

(** The wrapper of the index module reads the clock once before it calls
    a validator, once more before it calls the original resolver, and a
    third time before it returns. *)
Lemma paced_v2 reg r fname ftype cfg args :
  paced 1 2 3 0 (invoke reg (WrappedV2 (Original r) fname ftype cfg) args).
Proof.
  simpl. unfold Index.wrapped. apply paced_try_catch; [|intros; apply paced_onCatch].
  unmonad. simpl. constructor; intros pst.
  eapply (paced_bind 1 2 1).
  - destruct (Index.scanValidity args); [apply paced_validate|constructor].
  - intros _. constructor; intros vet. constructor. intros [out|e]; simpl.
    + apply paced_afterResolve.
    + constructor.
Qed.

Lemma paced_run {A} nv nr nret n (p : prog A) ins w :
  paced nv nr nret n p ->
  ∃ m, paced nv nr nret m (residual (run p ins w))
       ∧ (ticks (world_of (run p ins w)) + n = ticks w + m)%nat.
Proof.
  intros Hp; revert ins w; induction Hp; intros ins w; simpl.
  - exists nret. split; [constructor|done].
  - exists n. split; [constructor|done].
  - eauto.
  - destruct (IHHp ins (updValidity l f w)) as (m & ? & ?). by exists m.
  - destruct (H0 (clock w (ticks w)) ins (tick w)) as (m & ? & Ht).
    exists m. split; [done|]. simpl in Ht. lia.
  - destruct (H0 (uuids w (drawn w)) ins (draw w)) as (m & ? & ?). by exists m.
  - destruct (IHHp ins (logError line w)) as (m & ? & ?). by exists m.
  - destruct ins as [|[rs|o|e] ins']; simpl;
      try (exists nv; split; [by constructor|done]); eauto.
  - destruct ins as [|[rs|o|e] ins']; simpl;
      try (exists nr; split; [by constructor|done]); eauto.
Qed.

(** ** Wrapping fields *)

(** A series of in-place updates of field objects by functions that leave
    one another's results alone: each field ends up updated by the first
    function applied to it. *)
Section AlterFold.
Context (G : (Field -> Field) -> Prop).
Hypothesis absorb : forall g g', G g -> G g' -> forall f, g' (g f) = g f.

Lemma applyOps_lookup ops h i :
  Forall (fun op => G op.2) ops ->
  applyOps h ops !! i =
  match firstOp i ops with
  | Some g => g <$> h !! i
  | None => h !! i
  end.
Proof.
  intros Hops; revert h; induction Hops as [|[j g] ops Hg Hops IH]; intros h;
    first done.
  unfold applyOps, firstOp in *; simpl. rewrite IH.
  case_bool_decide as Hj; simpl.
  - subst j. rewrite lookup_alter_eq.
    destruct (find _ ops) as [[j' g']|] eqn:Hfind; simpl; last done.
    destruct (h !! i) as [f|]; simpl; last done.
    f_equal. apply absorb; first done.
    apply find_some in Hfind as [Hin _].
    rewrite Forall_forall in Hops. by apply (Hops (j', g')), list_elem_of_In.
  - by rewrite lookup_alter_ne.
Qed.

Lemma firstOp_app i ops1 ops2 :
  firstOp i (ops1 ++ ops2) =
  match firstOp i ops1 with
  | Some g => Some g
  | None => firstOp i ops2
  end.
Proof.
  unfold firstOp. induction ops1 as [|[j g] ops1 IH]; simpl; first done.
  by case_bool_decide.
Qed.

Lemma applyOps_app h ops1 ops2 :
  applyOps h (ops1 ++ ops2) = applyOps (applyOps h ops1) ops2.
Proof. apply foldl_app. Qed.
End AlterFold.

(** *** One field *)

Lemma wrapField_v1_marks f c p r :
  processed f = false -> resolve f = Some r ->
  SchemaWrapper.wrapField f c p =
  {| fname := fname f; ftype := ftype f;
     resolve := Some (WrappedV1 r (fname f) (ftype f) c (js_or p (parentTypeName c)));
     processed := true |}.
Proof. intros Hp Hr. unfold SchemaWrapper.wrapField. by rewrite Hr, Hp. Qed.

Lemma wrapField_v1_noop f c p : settled f -> SchemaWrapper.wrapField f c p = f.
Proof.
  intros [Hp|Hr]; unfold SchemaWrapper.wrapField.
  - rewrite Hp. by destruct (resolve f).
  - by rewrite Hr.
Qed.

Lemma wrapField_v1_settled f c p : settled (SchemaWrapper.wrapField f c p).
Proof.
  unfold SchemaWrapper.wrapField, settled.
  destruct (resolve f) eqn:Hr; [|by right].
  destruct (processed f) eqn:Hp; by left.
Qed.

Lemma wrapField_v1_idem f c p c' p' :
  SchemaWrapper.wrapField (SchemaWrapper.wrapField f c p) c' p'
  = SchemaWrapper.wrapField f c p.
Proof. apply wrapField_v1_noop, wrapField_v1_settled. Qed.

Lemma wrapField_v2_marks f c r :
  processed f = false -> resolve f = Some r ->
  Index.wrapField f c =
  {| fname := fname f; ftype := ftype f;
     resolve := Some (WrappedV2 r (fname f) (ftype f) c);
     processed := true |}.
Proof. intros Hp Hr. unfold Index.wrapField. by rewrite Hr, Hp. Qed.

Lemma wrapField_v2_noop f c : settled f -> Index.wrapField f c = f.
Proof.
  intros [Hp|Hr]; unfold Index.wrapField.
  - rewrite Hp. by destruct (resolve f).
  - by rewrite Hr.
Qed.

Lemma wrapField_v2_settled f c : settled (Index.wrapField f c).
Proof.
  unfold Index.wrapField, settled.
  destruct (resolve f) eqn:Hr; [|by right].
  destruct (processed f) eqn:Hp; by left.
Qed.

Lemma wrapField_v2_idem f c c' :
  Index.wrapField (Index.wrapField f c) c' = Index.wrapField f c.
Proof. apply wrapField_v2_noop, wrapField_v2_settled. Qed.

(** *** Types, schemas and series of calls as series of field updates *)

Lemma isWrapV1_absorb g g' : isWrapV1 g -> isWrapV1 g' -> forall f, g' (g f) = g f.
Proof. intros (c & p & ->) (c' & p' & ->) f. apply wrapField_v1_idem. Qed.

Lemma isWrapV2_absorb g g' : isWrapV2 g -> isWrapV2 g' -> forall f, g' (g f) = g f.
Proof. intros (c & ->) (c' & ->) f. apply wrapField_v2_idem. Qed.

Lemma foldl_map {A B C} (f : A -> B -> A) (g : C -> B) a l :
  foldl f a (map g l) = foldl (fun a c => f a (g c)) a l.
Proof. revert a; induction l as [|c l IH]; intros a; simpl; [done|apply IH]. Qed.

Lemma wrapType_v1_ops h t c :
  SchemaWrapper.wrapType h t c =
  applyOps h (map (fun f => (f, fun fld => SchemaWrapper.wrapField fld c (Some (tname t))))
                  (visitsType t)).
Proof.
  unfold SchemaWrapper.wrapType, visitsType, applyOps.
  destruct (getFields t) as [fs|]; simpl; [|by destruct (tprocessed t)].
  destruct (tprocessed t); [done|]. by rewrite foldl_map.
Qed.

Lemma wrapResolvers_v1_ops h e c :
  SchemaWrapper.wrapResolvers h e c = applyOps h (opsV1 c e).
Proof.
  unfold SchemaWrapper.wrapResolvers, opsV1.
  destruct e as [s|t|f]; simpl.
  - unfold SchemaWrapper.wrapSchema. revert h.
    induction s as [|t s IH]; intros h; simpl; [done|].
    rewrite map_app, applyOps_app, IH, wrapType_v1_ops.
    by rewrite map_map.
  - rewrite wrapType_v1_ops. by rewrite map_map.
  - done.
Qed.

Lemma wrapType_v2_ops h t c :
  Index.wrapType h t c =
  applyOps h (map (fun f => (f, fun fld => Index.wrapField fld c)) (visitsType t)).
Proof.
  unfold Index.wrapType, visitsType, applyOps.
  destruct (getFields t) as [fs|]; simpl; [|by destruct (tprocessed t)].
  destruct (tprocessed t); [done|]. by rewrite foldl_map.
Qed.

Lemma wrapResolvers_v2_ops h e c :
  Index.wrapResolvers h e c = applyOps h (opsV2 c e).
Proof.
  unfold Index.wrapResolvers, opsV2.
  destruct e as [s|t|f]; simpl.
  - unfold Index.wrapSchema. revert h.
    induction s as [|t s IH]; intros h; simpl; [done|].
    by rewrite map_app, applyOps_app, IH, wrapType_v2_ops.
  - by rewrite wrapType_v2_ops.
  - done.
Qed.

Lemma opsV1_wrap c e : Forall (fun op => isWrapV1 op.2) (opsV1 c e).
Proof. unfold opsV1. apply Forall_map, Forall_true. intros [i p]; simpl. by eexists _, _. Qed.

Lemma opsV2_wrap c e : Forall (fun op => isWrapV2 op.2) (opsV2 c e).
Proof. unfold opsV2. apply Forall_map, Forall_true. intros i; simpl. by eexists. Qed.

Lemma wrapAllV1_ops h calls :
  wrapAllV1 h calls = applyOps h (concat (map (fun ec => opsV1 ec.2 ec.1) calls)).
Proof.
  unfold wrapAllV1. revert h; induction calls as [|[e c] calls IH]; intros h; simpl; [done|].
  by rewrite applyOps_app, IH, wrapResolvers_v1_ops.
Qed.

Lemma wrapAllV2_ops h calls :
  wrapAllV2 h calls = applyOps h (concat (map (fun ec => opsV2 ec.2 ec.1) calls)).
Proof.
  unfold wrapAllV2. revert h; induction calls as [|[e c] calls IH]; intros h; simpl; [done|].
  by rewrite applyOps_app, IH, wrapResolvers_v2_ops.
Qed.

Lemma firstOp_in G i ops g :
  Forall (fun op => G op.2) ops -> firstOp i ops = Some g -> G g.
Proof.
  unfold firstOp. intros Hops Hf.
  destruct (find _ ops) as [[j g']|] eqn:Hfind; simplify_eq/=.
  apply find_some in Hfind as [Hin _].
  rewrite Forall_forall in Hops. by apply (Hops (j, g)), list_elem_of_In.
Qed.

Lemma firstOp_opsV1_None i c c' e :
  firstOp i (opsV1 c e) = None -> firstOp i (opsV1 c' e) = None.
Proof.
  unfold opsV1, firstOp. induction (planV1 e) as [|[j p] l IH]; simpl; [done|].
  by case_bool_decide.
Qed.

Lemma firstOp_opsV2_None i c c' e :
  firstOp i (opsV2 c e) = None -> firstOp i (opsV2 c' e) = None.
Proof.
  unfold opsV2, firstOp. induction (planV2 e) as [|j l IH]; simpl; [done|].
  by case_bool_decide.
Qed.

(** Wrapping the same entity again changes nothing. *)
Lemma wrapResolvers_v1_twice h e c c' :
  SchemaWrapper.wrapResolvers (SchemaWrapper.wrapResolvers h e c) e c'
  = SchemaWrapper.wrapResolvers h e c.
Proof.
  apply map_eq; intros i.
  rewrite (wrapResolvers_v1_ops _ e c').
  rewrite (applyOps_lookup isWrapV1 isWrapV1_absorb) by apply opsV1_wrap.
  destruct (firstOp i (opsV1 c' e)) as [g'|] eqn:Hg'; [|done].
  rewrite wrapResolvers_v1_ops.
  rewrite (applyOps_lookup isWrapV1 isWrapV1_absorb) by apply opsV1_wrap.
  destruct (firstOp i (opsV1 c e)) as [g|] eqn:Hg.
  - destruct (h !! i); simpl; [|done]. f_equal.
    apply isWrapV1_absorb.
    + eapply firstOp_in; [apply opsV1_wrap|done].
    + eapply firstOp_in; [apply opsV1_wrap|done].
  - apply (firstOp_opsV1_None _ _ c') in Hg. congruence.
Qed.

Lemma wrapResolvers_v2_twice h e c c' :
  Index.wrapResolvers (Index.wrapResolvers h e c) e c' = Index.wrapResolvers h e c.
Proof.
  apply map_eq; intros i.
  rewrite (wrapResolvers_v2_ops _ e c').
  rewrite (applyOps_lookup isWrapV2 isWrapV2_absorb) by apply opsV2_wrap.
  destruct (firstOp i (opsV2 c' e)) as [g'|] eqn:Hg'; [|done].
  rewrite wrapResolvers_v2_ops.
  rewrite (applyOps_lookup isWrapV2 isWrapV2_absorb) by apply opsV2_wrap.
  destruct (firstOp i (opsV2 c e)) as [g|] eqn:Hg.
  - destruct (h !! i); simpl; [|done]. f_equal.
    apply isWrapV2_absorb.
    + eapply firstOp_in; [apply opsV2_wrap|done].
    + eapply firstOp_in; [apply opsV2_wrap|done].
  - apply (firstOp_opsV2_None _ _ c') in Hg. congruence.
Qed.

(** After any series of wrap calls a field is as declared, or has been
    through [wrapField] once. *)
Lemma wrapAllV1_field h calls i f0 :
  h !! i = Some f0 ->
  wrapAllV1 h calls !! i = Some f0
  ∨ ∃ c p, wrapAllV1 h calls !! i = Some (SchemaWrapper.wrapField f0 c p).
Proof.
  intros Hi. rewrite wrapAllV1_ops.
  assert (Hall : Forall (fun op => isWrapV1 op.2)
                   (concat (map (fun ec => opsV1 ec.2 ec.1) calls))).
  { apply Forall_concat, Forall_map, Forall_true. intros [e c]. apply opsV1_wrap. }
  rewrite (applyOps_lookup isWrapV1 isWrapV1_absorb) by done.
  destruct (firstOp i _) as [g|] eqn:Hg; [|by left].
  right. apply (firstOp_in isWrapV1) in Hg as (c & p & ->); [|done].
  exists c, p. by rewrite Hi.
Qed.

Lemma wrapAllV2_field h calls i f0 :
  h !! i = Some f0 ->
  wrapAllV2 h calls !! i = Some f0
  ∨ ∃ c, wrapAllV2 h calls !! i = Some (Index.wrapField f0 c).
Proof.
  intros Hi. rewrite wrapAllV2_ops.
  assert (Hall : Forall (fun op => isWrapV2 op.2)
                   (concat (map (fun ec => opsV2 ec.2 ec.1) calls))).
  { apply Forall_concat, Forall_map, Forall_true. intros [e c]. apply opsV2_wrap. }
  rewrite (applyOps_lookup isWrapV2 isWrapV2_absorb) by done.
  destruct (firstOp i _) as [g|] eqn:Hg; [|by left].
  right. apply (firstOp_in isWrapV2) in Hg as (c & ->); [|done].
  exists c. by rewrite Hi.
Qed.

(** Whether a series of updates touches a field. *)
Lemma firstOp_None i ops : firstOp i ops = None <-> i ∉ ops.*1.
Proof.
  unfold firstOp. induction ops as [|[j g] ops IH]; simpl.
  - split; [intros _; apply not_elem_of_nil|done].
  - case_bool_decide as Hj; simpl.
    + subst j. split; [done|]. intros Hn. destruct Hn. apply list_elem_of_here.
    + rewrite IH, not_elem_of_cons. split; [by intros ?; split; [congruence|]|by intros []].
Qed.

Lemma opsV1_fst c e : (opsV1 c e).*1 = (planV1 e).*1.
Proof. unfold opsV1. rewrite <- list_fmap_compose. by apply list_fmap_ext. Qed.

Lemma opsV2_fst c e : (opsV2 c e).*1 = planV2 e.
Proof.
  unfold opsV2. rewrite <- list_fmap_compose.
  etrans; [|apply list_fmap_id]. by apply list_fmap_ext.
Qed.

Lemma series_fst {X} (ops : X -> list (fieldId * (Field -> Field))) i calls :
  i ∈ (concat (map ops calls)).*1 <-> Exists (fun c => i ∈ (ops c).*1) calls.
Proof.
  induction calls as [|c calls IH]; simpl.
  - rewrite Exists_nil. split; [|done]. apply not_elem_of_nil.
  - rewrite fmap_app, elem_of_app, Exists_cons, IH. done.
Qed.

(** A field that some call of the series visits has been through
    [wrapField]; a field that none visits is as it was. *)
Lemma wrapAllV1_visited h calls i f0 :
  h !! i = Some f0 ->
  Exists (fun ec => i ∈ (planV1 ec.1).*1) calls ->
  ∃ c p, wrapAllV1 h calls !! i = Some (SchemaWrapper.wrapField f0 c p).
Proof.
  intros Hi Hex. rewrite wrapAllV1_ops.
  assert (Hall : Forall (fun op => isWrapV1 op.2)
                   (concat (map (fun ec => opsV1 ec.2 ec.1) calls))).
  { apply Forall_concat, Forall_map, Forall_true. intros [e c]. apply opsV1_wrap. }
  rewrite (applyOps_lookup isWrapV1 isWrapV1_absorb) by done.
  destruct (firstOp i _) as [g|] eqn:Hg.
  - apply (firstOp_in isWrapV1) in Hg as (c & p & ->); [|done].
    exists c, p. by rewrite Hi.
  - apply firstOp_None in Hg. destruct Hg.
    apply (series_fst (fun ec => opsV1 ec.2 ec.1)).
    eapply Exists_impl; [exact Hex|]. intros [e c] H; simpl in *.
    by rewrite opsV1_fst.
Qed.

Lemma wrapAllV1_unvisited h calls i :
  Forall (fun ec => i ∉ (planV1 ec.1).*1) calls ->
  wrapAllV1 h calls !! i = h !! i.
Proof.
  intros Hall'. rewrite wrapAllV1_ops.
  assert (Hall : Forall (fun op => isWrapV1 op.2)
                   (concat (map (fun ec => opsV1 ec.2 ec.1) calls))).
  { apply Forall_concat, Forall_map, Forall_true. intros [e c]. apply opsV1_wrap. }
  rewrite (applyOps_lookup isWrapV1 isWrapV1_absorb) by done.
  destruct (firstOp i _) as [g|] eqn:Hg; [|done].
  assert (Hn : firstOp i (concat (map (fun ec => opsV1 ec.2 ec.1) calls)) = None);
    [|congruence].
  apply firstOp_None. intros Hin.
  apply (series_fst (fun ec => opsV1 ec.2 ec.1)) in Hin.
  apply Exists_exists in Hin as ([e c] & Hec & Hin). simpl in Hin.
  rewrite opsV1_fst in Hin.
  rewrite Forall_forall in Hall'. by apply (Hall' (e, c)).
Qed.

Lemma wrapAllV2_visited h calls i f0 :
  h !! i = Some f0 ->
  Exists (fun ec => i ∈ planV2 ec.1) calls ->
  ∃ c, wrapAllV2 h calls !! i = Some (Index.wrapField f0 c).
Proof.
  intros Hi Hex. rewrite wrapAllV2_ops.
  assert (Hall : Forall (fun op => isWrapV2 op.2)
                   (concat (map (fun ec => opsV2 ec.2 ec.1) calls))).
  { apply Forall_concat, Forall_map, Forall_true. intros [e c]. apply opsV2_wrap. }
  rewrite (applyOps_lookup isWrapV2 isWrapV2_absorb) by done.
  destruct (firstOp i _) as [g|] eqn:Hg.
  - apply (firstOp_in isWrapV2) in Hg as (c & ->); [|done].
    exists c. by rewrite Hi.
  - apply firstOp_None in Hg. destruct Hg.
    apply (series_fst (fun ec => opsV2 ec.2 ec.1)).
    eapply Exists_impl; [exact Hex|]. intros [e c] H; simpl in *.
    by rewrite opsV2_fst.
Qed.

Lemma wrapAllV2_unvisited h calls i :
  Forall (fun ec => i ∉ planV2 ec.1) calls ->
  wrapAllV2 h calls !! i = h !! i.
Proof.
  intros Hall'. rewrite wrapAllV2_ops.
  assert (Hall : Forall (fun op => isWrapV2 op.2)
                   (concat (map (fun ec => opsV2 ec.2 ec.1) calls))).
  { apply Forall_concat, Forall_map, Forall_true. intros [e c]. apply opsV2_wrap. }
  rewrite (applyOps_lookup isWrapV2 isWrapV2_absorb) by done.
  destruct (firstOp i _) as [g|] eqn:Hg; [|done].
  assert (Hn : firstOp i (concat (map (fun ec => opsV2 ec.2 ec.1) calls)) = None);
    [|congruence].
  apply firstOp_None. intros Hin.
  apply (series_fst (fun ec => opsV2 ec.2 ec.1)) in Hin.
  apply Exists_exists in Hin as ([e c] & Hec & Hin). simpl in Hin.
  rewrite opsV2_fst in Hin.
  rewrite Forall_forall in Hall'. by apply (Hall' (e, c)).
Qed.

Lemma resolvesOnce_original reg r args :
  resolvesOnce r args (invoke reg (Original r) args).
Proof. simpl. constructor. intros [o|e]; constructor. Qed.

(** ** Interference on one request's state *)

Lemma run_nil_calls {A} (p : prog A) w :
  calls_of (run p [] w) = headCall (residual (run p [] w))
  ∧ unread (run p [] w) = [].
Proof. revert w; induction p; intros w; simpl; eauto. Qed.

Lemma stranger_quiet {A} l (p : prog A) : stranger l p -> quiet l p.
Proof. induction 1; constructor; eauto; done. Qed.

Lemma quiet_bind {A B} l (p : prog A) (f : A -> prog B) :
  quiet l p -> (forall a, quiet l (f a)) -> quiet l (bind p f).
Proof. intros Hp Hf; induction Hp; simpl; try (constructor; eauto; fail); auto. Qed.

Lemma quiet_try_catch {A} l (p : prog A) h :
  quiet l p -> (forall e, quiet l (h e)) -> quiet l (try_catch p h).
Proof. intros Hp Hf; induction Hp; simpl; try (constructor; eauto; fail); auto. Qed.

Lemma stranger_bind {A B} l (p : prog A) (f : A -> prog B) :
  stranger l p -> (forall a, stranger l (f a)) -> stranger l (bind p f).
Proof. intros Hp Hf; induction Hp; simpl; try (constructor; eauto; fail); auto. Qed.

Lemma stranger_try_catch {A} l (p : prog A) h :
  stranger l p -> (forall e, stranger l (h e)) -> stranger l (try_catch p h).
Proof. intros Hp Hf; induction Hp; simpl; try (constructor; eauto; fail); auto. Qed.

Lemma keepsGlobal_initLocal : keepsGlobal initLocal.
Proof. intros vd; split; [done|]. intros _; by eexists. Qed.

Lemma keepsGlobal_pushLocal rs : keepsGlobal (pushLocal rs).
Proof. intros vd; split; [done|]. intros _; by eexists. Qed.

Lemma keepsGlobal_pushProfile entry : keepsGlobal (Profiling.pushProfile entry).
Proof. intros vd; split; done. Qed.

Lemma quiet_runValidators l s l' push vs args :
  (s = Global -> l' ≠ l) -> (l' = l -> forall rs, keepsGlobal (push rs)) ->
  quiet l (runValidators s l' push vs args).
Proof.
  intros Hs Hpush. induction vs as [|v vs IH]; first by constructor.
  rewrite runValidators_cons. constructor; first done.
  intros [rs|e]; simpl; [|constructor].
  constructor; [intros Hl; by apply Hpush | exact IH].
Qed.

Lemma stranger_runValidators l s l' push vs args :
  l' ≠ l -> stranger l (runValidators s l' push vs args).
Proof.
  intros Hne. induction vs as [|v vs IH]; first by constructor.
  rewrite runValidators_cons. constructor; first done.
  intros [rs|e]; simpl; [|constructor].
  constructor; [done | exact IH].
Qed.

Lemma quiet_validate l reg l' ftype fname parent args :
  quiet l (validate reg l' ftype fname parent args).
Proof.
  unfold validate, getValidationResults. unmonad; simpl.
  constructor; intros vd Hvd.
  assert (Hloop : quiet l (runValidators Local l' pushLocal
                    (fst (getValidators reg ftype fname parent)) args)).
  { apply quiet_runValidators; [done|]. intros _ rs. apply keepsGlobal_pushLocal. }
  assert (Hrest : forall vd' : Validity,
    (l' = l -> is_Some (___globalValidationResults vd')) ->
    quiet l (bind
      match ___globalValidationResults vd' with
      | Some _ => Ret ()
      | None => Store l' initGlobal
                  (runValidators Global l' pushGlobal (lookupValidators reg "$") args)
      end
      (fun _ => runValidators Local l' pushLocal
                  (fst (getValidators reg ftype fname parent)) args))).
  { intros vd' Hvd'. destruct (___globalValidationResults vd') eqn:Hg; simpl; [done|].
    assert (l' ≠ l) by (intros ->; by destruct Hvd').
    constructor; [done|]. apply quiet_bind; [|done].
    apply quiet_runValidators; [done|done]. }
  destruct (___validationResults vd); simpl.
  - constructor. intros vd' Hvd'. by apply Hrest.
  - constructor; [intros _; apply keepsGlobal_initLocal|].
    constructor. intros vd' Hvd'. by apply Hrest.
Qed.

Lemma stranger_validate l reg l' ftype fname parent args :
  l' ≠ l -> stranger l (validate reg l' ftype fname parent args).
Proof.
  intros Hne. unfold validate, getValidationResults. unmonad; simpl.
  constructor; [done|]; intros vd.
  destruct (___validationResults vd); simpl;
    repeat (constructor; [done|]; intros);
    match goal with |- context [___globalValidationResults ?x] =>
      destruct (___globalValidationResults x) end; simpl;
    repeat first [ by apply stranger_runValidators
                 | apply stranger_bind; [|intros _]
                 | constructor; [done|] ].
Qed.

Lemma quiet_afterResolve l validity ast cfg fname pst vet out :
  quiet l (Index.afterResolve validity ast cfg fname pst vet out).
Proof.
  unfold Index.afterResolve, Index.unwrap, Index.recordProfile,
    Profiling.storeProfilingInfo, getValidationResults.
  unmonad.
  destruct out as [v|[d errs]], validity as [l'|], ast as [a|],
    (enableProfiling cfg); simpl;
    repeat first
      [ match goal with
        | |- quiet _ (Store _ _ _) =>
            constructor;
            [intros _; first [apply keepsGlobal_initLocal | apply keepsGlobal_pushLocal
                             | apply keepsGlobal_pushProfile]|]
        | |- quiet _ (Load _ _) => constructor; intros ? _
        | |- quiet _ ?p =>
            match p with
            | context [match ?x with _ => _ end] => destruct x; simpl
            end
        end
      | constructor; intros ].
Qed.

Lemma stranger_afterResolve l validity ast cfg fname pst vet out :
  validity ≠ Some l ->
  stranger l (Index.afterResolve validity ast cfg fname pst vet out).
Proof.
  intros Hne.
  unfold Index.afterResolve, Index.unwrap, Index.recordProfile,
    Profiling.storeProfilingInfo, getValidationResults.
  unmonad.
  destruct out as [v|[d errs]], validity as [l'|], ast as [a|],
    (enableProfiling cfg); simpl;
    try (assert (l' ≠ l) by congruence);
    repeat first
      [ match goal with
        | |- stranger _ (Store _ _ _) => constructor; [done|]
        | |- stranger _ (Load _ _) => constructor; [done|]; intros ?
        | |- stranger _ ?p =>
            match p with
            | context [match ?x with _ => _ end] => destruct x; simpl
            end
        end
      | constructor; intros ].
Qed.

Lemma stranger_onCatch {A} l cfg e : stranger l (@onCatch A cfg e).
Proof.
  unfold onCatch, callErrorWrapper, onUnhandledError. unmonad.
  destruct (wrapErrors cfg), (unhandledErrorWrapper cfg); simpl;
    repeat (constructor; intros).
Qed.

Lemma quiet_onCatch {A} l cfg e : quiet l (@onCatch A cfg e).
Proof. apply stranger_quiet, stranger_onCatch. Qed.

(** Any resolver, however often wrapped, is quiet on every state. *)
Lemma quiet_invoke l reg r args : quiet l (invoke reg r args).
Proof.
  induction r as [id|inner IH fname ftype cfg parent|inner IH fname ftype cfg]; simpl.
  - constructor. intros [o|e]; constructor.
  - unfold wrapped. apply quiet_try_catch; [|intros; apply quiet_onCatch].
    unmonad. apply quiet_bind; [|done].
    destruct (findRequest args); [apply quiet_validate|constructor].
  - unfold Index.wrapped. apply quiet_try_catch; [|intros; apply quiet_onCatch].
    unmonad. simpl. constructor; intros pst.
    apply quiet_bind.
    + destruct (Index.scanValidity args); [apply quiet_validate|constructor].
    + intros _. simpl. constructor; intros vet.
      apply quiet_bind; [done|]. intros o. apply quiet_afterResolve.
Qed.

(** A resolver that finds another state, or none, never touches [l]. *)
Lemma stranger_invoke l reg r args :
  flat r -> contextOf r args ≠ Some l -> stranger l (invoke reg r args).
Proof.
  destruct r as [id|[id| |] fname ftype cfg parent|[id| |] fname ftype cfg];
    simpl; try done; intros _ Hctx.
  - constructor. intros [o|e]; constructor.
  - unfold wrapped. apply stranger_try_catch; [|intros; apply stranger_onCatch].
    unmonad. apply stranger_bind.
    + destruct (findRequest args) as [l'|]; [|constructor].
      apply stranger_validate. congruence.
    + intros _. constructor. intros [o|e]; constructor.
  - unfold Index.wrapped. apply stranger_try_catch; [|intros; apply stranger_onCatch].
    unmonad. simpl. constructor; intros pst.
    apply stranger_bind.
    + destruct (Index.scanValidity args) as [l'|]; [|constructor].
      apply stranger_validate. congruence.
    + intros _. simpl. constructor; intros vet. constructor.
      intros [o|e]; simpl; [by apply stranger_afterResolve|constructor].
Qed.

Lemma quiet_run {A} l (p : prog A) ins w :
  quiet l p ->
  is_Some (___globalValidationResults (validityAt w l)) ->
  let o := run p ins w in
  quiet l (residual o)
  ∧ ___globalValidationResults (validityAt (world_of o) l)
    = ___globalValidationResults (validityAt w l)
  ∧ (is_Some (___validationResults (validityAt w l)) ->
     is_Some (___validationResults (validityAt (world_of o) l)))
  ∧ globalValidatorsRun l (calls_of o) = [].
Proof.
  intros Hp; revert ins w; induction Hp as
    [a|e|l' k Hk IH|l' f k Hf Hk IH|k Hk IH|k Hk IH|line k Hk IH
    |s l' v args k Hs Hk IH|r args k Hk IH]; intros ins w Hw; simpl.
  - split_and!; [constructor|done..].
  - split_and!; [constructor|done..].
  - apply IH; [|done]. by intros ->.
  - destruct (decide (l' = l)) as [->|Hne].
    + destruct (Hf eq_refl (validityAt w l)) as [Hg Hl].
      destruct (IH ins (updValidity l f w)) as (H1 & H2 & H3 & H4).
      { rewrite validityAt_upd_eq. by rewrite Hg. }
      rewrite validityAt_upd_eq in H2, H3. rewrite Hg in H2.
      split_and!; auto.
    + destruct (IH ins (updValidity l' f w)) as (H1 & H2 & H3 & H4).
      { by rewrite validityAt_upd_ne. }
      rewrite validityAt_upd_ne in H2, H3 by done.
      split_and!; auto.
  - exact (IH _ ins (tick w) Hw).
  - exact (IH _ ins (draw w) Hw).
  - exact (IH ins (logError line w) Hw).
  - assert (Hhead : globalValidatorsRun l [CallValidator s l' v args] = []).
    { unfold globalValidatorsRun; simpl. destruct s; [|done].
      rewrite decide_False; [done|auto]. }
    assert (Hcons : forall cs, globalValidatorsRun l cs = [] ->
              globalValidatorsRun l (CallValidator s l' v args :: cs) = []).
    { intros cs Hcs. change (CallValidator s l' v args :: cs)
        with ([CallValidator s l' v args] ++ cs).
      unfold globalValidatorsRun in *. by rewrite omap_app, Hhead, Hcs. }
    destruct ins as [|[rs|o|e] ins']; simpl.
    + split_and!; [by apply q_validator|done|done|exact Hhead].
    + destruct (IH (Fulfilled rs) ins' w Hw) as (H1 & H2 & H3 & H4).
      split_and!; [done..|by apply Hcons].
    + split_and!; [by apply q_validator|done|done|exact Hhead].
    + destruct (IH (Rejected e) ins' w Hw) as (H1 & H2 & H3 & H4).
      split_and!; [done..|by apply Hcons].
  - destruct ins as [|[rs|o|e] ins']; simpl.
    + split_and!; [by apply q_resolve|done..].
    + split_and!; [by apply q_resolve|done..].
    + destruct (IH (Fulfilled o) ins' w Hw) as (H1 & H2 & H3 & H4).
      split_and!; auto.
    + destruct (IH (Rejected e) ins' w Hw) as (H1 & H2 & H3 & H4).
      split_and!; auto.
Qed.

Lemma stranger_run {A} l (p : prog A) ins w :
  stranger l p ->
  let o := run p ins w in
  stranger l (residual o)
  ∧ validityAt (world_of o) l = validityAt w l
  ∧ globalValidatorsRun l (calls_of o) = [].
Proof.
  intros Hp; revert ins w; induction Hp as
    [a|e|l' k Hne Hk IH|l' f k Hne Hk IH|k Hk IH|k Hk IH|line k Hk IH
    |s l' v args k Hne Hk IH|r args k Hk IH]; intros ins w; simpl.
  - split_and!; [constructor|done..].
  - split_and!; [constructor|done..].
  - apply IH.
  - destruct (IH ins (updValidity l' f w)) as (H1 & H2 & H3).
    rewrite validityAt_upd_ne in H2 by done. by split_and!.
  - exact (IH _ ins (tick w)).
  - exact (IH _ ins (draw w)).
  - exact (IH ins (logError line w)).
  - assert (Hcons : forall cs, globalValidatorsRun l cs = [] ->
              globalValidatorsRun l (CallValidator s l' v args :: cs) = []).
    { intros cs Hcs. unfold globalValidatorsRun in *; simpl.
      destruct s; [|done]. by rewrite decide_False. }
    destruct ins as [|[rs|o|e] ins']; simpl.
    + split_and!; [by apply st_validator|done|by apply (Hcons [])].
    + destruct (IH (Fulfilled rs) ins' w) as (H1 & H2 & H3).
      split_and!; [done..|by apply Hcons].
    + split_and!; [by apply st_validator|done|by apply (Hcons [])].
    + destruct (IH (Rejected e) ins' w) as (H1 & H2 & H3).
      split_and!; [done..|by apply Hcons].
  - destruct ins as [|[rs|o|e] ins']; simpl.
    + split_and!; [by apply st_resolve|done..].
    + split_and!; [by apply st_resolve|done..].
    + destruct (IH (Fulfilled o) ins' w) as (H1 & H2 & H3). split_and!; auto.
    + destruct (IH (Rejected e) ins' w) as (H1 & H2 & H3). split_and!; auto.
Qed.

Lemma pushGlobal_global rs vd :
  ___globalValidationResults (pushGlobal rs vd)
  = Some (default [] (___globalValidationResults vd) ++ rs).
Proof. done. Qed.

(** The global loop, whatever follows it inside the [try]. *)
Lemma owner_global_loop {B C} l (h : JsError -> prog C) vs args
    (g1 : unit -> prog B) (g2 : B -> prog C) :
  vs ≠ [] ->
  quiet l (try_catch (bind (g1 tt) g2) h) ->
  owner l h vs
    (try_catch (bind (bind (runValidators Global l pushGlobal vs args) g1) g2) h).
Proof.
  intros Hvs Hq. induction vs as [|v vs IH]; first done. clear Hvs.
  rewrite runValidators_cons; simpl.
  assert (Hstep : forall rs w,
    let o := run (try_catch
                    (bind (bind (runValidators Global l pushGlobal vs args) g1) g2) h)
                 [] (updValidity l (pushGlobal rs) w) in
    ___globalValidationResults (validityAt (world_of o) l)
    = Some (default [] (___globalValidationResults (validityAt w l)) ++ rs)
    ∧ (is_Some (___validationResults (validityAt w l)) ->
       is_Some (___validationResults (validityAt (world_of o) l)))
    ∧ (vs = [] -> quiet l (residual o))
    ∧ (vs ≠ [] -> owner l h vs (residual o))).
  { intros rs w. destruct vs as [|v' vs].
    - simpl.
      destruct (quiet_run l _ [] (updValidity l (pushGlobal rs) w) Hq)
        as (H1 & H2 & H3 & _).
      { rewrite validityAt_upd_eq. by eexists. }
      rewrite validityAt_upd_eq in H2, H3.
      split_and!; [by rewrite H2|by intros; apply H3|done|done].
    - rewrite runValidators_cons; simpl. rewrite validityAt_upd_eq.
      split_and!; [done|done|done|].
      intros _. by apply IH. }
  constructor.
  - done.
  - intros rs w. apply (Hstep rs w).
  - intros rs w. apply (Hstep rs w).
  - intros rs w. apply (Hstep rs w).
  - intros rs w. apply (Hstep rs w).
Qed.

Lemma quiet_headCall {A} l (p : prog A) :
  quiet l p -> globalValidatorsRun l (headCall p) = [].
Proof.
  destruct 1; simpl; try done.
  unfold globalValidatorsRun; simpl. destruct s; [|done].
  by rewrite decide_False by auto.
Qed.

Lemma owner_headCall {A} l (h : JsError -> prog A) vs p :
  owner l h vs p -> exists v vs', vs = v :: vs' ∧ globalValidatorsRun l (headCall p) = [v].
Proof.
  destruct 1. eexists _, _; split; [done|].
  unfold globalValidatorsRun; simpl. by rewrite decide_True.
Qed.

(** What an activation that finds the state [l] does up to its first
    await, when the global list is still absent. *)
Lemma enter_validate {C} l reg ftype fname parent args (g : unit -> prog C) h w :
  ___globalValidationResults (validityAt w l) = None ->
  (forall u, quiet l (g u)) -> (forall e, quiet l (h e)) ->
  let gvs := lookupValidators reg "$" in
  let o := run (try_catch (bind (validate reg l ftype fname parent args) g) h) [] w in
  ___globalValidationResults (validityAt (world_of o) l) = Some []
  ∧ is_Some (___validationResults (validityAt (world_of o) l))
  ∧ (gvs = [] -> quiet l (residual o))
  ∧ (gvs ≠ [] -> owner l h gvs (residual o)).
Proof.
  intros Hglob Hg Hh gvs o. subst o gvs.
  unfold validate, getValidationResults. unmonad; simpl.
  set (lvs := lookupValidators reg "*" ++ lookupValidators reg ftype ++
              lookupValidators reg (js_to_string parent +:+ ":" +:+ fname)).
  assert (Hq : quiet l (try_catch
                 (bind ((fun _ : unit => runValidators Local l pushLocal lvs args) tt) g) h)).
  { apply quiet_try_catch; [|done]. apply quiet_bind; [|done].
    apply quiet_runValidators; [done|]. intros _ rs. apply keepsGlobal_pushLocal. }
  assert (Hmain : forall w',
    ___globalValidationResults (validityAt w' l) = None ->
    is_Some (___validationResults (validityAt w' l)) ->
    let o := run (try_catch
                    (bind (bind (runValidators Global l pushGlobal
                                   (lookupValidators reg "$") args)
                             (fun _ => runValidators Local l pushLocal lvs args)) g) h)
                 [] (updValidity l initGlobal w') in
    ___globalValidationResults (validityAt (world_of o) l) = Some []
    ∧ is_Some (___validationResults (validityAt (world_of o) l))
    ∧ (lookupValidators reg "$" = [] -> quiet l (residual o))
    ∧ (lookupValidators reg "$" ≠ [] -> owner l h (lookupValidators reg "$") (residual o))).
  { intros w' Hg' Hl'. destruct (lookupValidators reg "$") as [|v vs] eqn:Hgvs.
    - simpl.
      destruct (quiet_run l _ [] (updValidity l initGlobal w') Hq) as (H1 & H2 & H3 & _).
      { rewrite validityAt_upd_eq. by eexists. }
      rewrite validityAt_upd_eq in H2, H3.
      split_and!; [by rewrite H2|by apply H3|done|done].
    - pose proof (owner_global_loop l h (v :: vs) args
                    (fun _ => runValidators Local l pushLocal lvs args) g
                    ltac:(done) Hq) as Hown.
      rewrite runValidators_cons in Hown |- *; simpl in Hown |- *.
      rewrite validityAt_upd_eq.
      split_and!; [done|done|done|by intros _]. }
  destruct (___validationResults (validityAt w l)) eqn:Hloc; simpl.
  - rewrite Hglob; simpl. apply Hmain; [done|]. rewrite Hloc. by eexists.
  - rewrite validityAt_upd_eq; simpl. rewrite Hglob; simpl.
    apply Hmain; rewrite validityAt_upd_eq; simpl; [done|by eexists].
Qed.

(** ** The pool *)

Local Opaque SchemaWrapper.validate Index.afterResolve.

Lemma enter_invoke reg r args l w :
  flat r -> contextOf r args = Some l ->
  ___globalValidationResults (validityAt w l) = None ->
  exists cfg, configOf r = Some cfg ∧
    let gvs := lookupValidators reg "$" in
    let o := run (invoke reg r args) [] w in
    ___globalValidationResults (validityAt (world_of o) l) = Some []
    ∧ is_Some (___validationResults (validityAt (world_of o) l))
    ∧ (gvs = [] -> quiet l (residual o))
    ∧ (gvs ≠ [] -> owner l (onCatch cfg) gvs (residual o)).
Proof.
  destruct r as [id|[id| |] fname ftype cfg parent|[id| |] fname ftype cfg];
    simpl; try done; intros _ Hctx Hglob; exists cfg; (split; [done|]).
  - unfold wrapped. rewrite Hctx. unmonad.
    apply (enter_validate l reg ftype fname parent args
             (fun _ => invoke reg (Original id) args) (onCatch cfg) w Hglob).
    + intros _. apply quiet_invoke.
    + intros e. apply quiet_onCatch.
  - unfold Index.wrapped. rewrite Hctx. unmonad. simpl.
    refine (enter_validate l reg ftype fname _ args _ (onCatch cfg) (tick w) Hglob _ _).
    + intros _. simpl. constructor; intros vet.
      apply (quiet_bind l (invoke reg (Original id) args)); [apply quiet_invoke|].
      intros o. apply quiet_afterResolve.
    + intros e. apply quiet_onCatch.
Qed.

Local Transparent SchemaWrapper.validate Index.afterResolve.

Lemma run_onCatch_throw {A} cfg e ins w :
  exists x w', run (@onCatch A cfg e) ins w = finished w' [] ins (Throw x)
               ∧ heap w' = heap w.
Proof.
  unfold onCatch, callErrorWrapper, onUnhandledError. unmonad.
  destruct (wrapErrors cfg), (unhandledErrorWrapper cfg); simpl; by eexists _, _.
Qed.

Lemma globalCalls_app l t1 t2 :
  globalCalls l (t1 ++ t2) = globalCalls l t1 ++ globalCalls l t2.
Proof. apply omap_app. Qed.

Lemma globalCalls_stamp l tid cs :
  globalCalls l (stamp tid cs) = map (pair tid) (globalValidatorsRun l cs).
Proof.
  unfold globalCalls, stamp, globalValidatorsRun.
  induction cs as [|c cs IH]; simpl; [done|].
  destruct c as [[|] l' v args|r args]; simpl; try done.
  destruct (decide (l' = l)); simpl; [by f_equal|done].
Qed.

Lemma invocations_app evs1 evs2 :
  invocations (evs1 ++ evs2) = invocations evs1 ++ invocations evs2.
Proof. apply omap_app. Qed.

Lemma resume_quiet {A} l (p p' : prog A) i :
  quiet l p -> resume p i = Some p' -> quiet l p'.
Proof. destruct 1, i; simpl; intros; simplify_eq; auto. Qed.

Lemma resume_stranger {A} l (p p' : prog A) i :
  stranger l p -> resume p i = Some p' -> stranger l p'.
Proof. destruct 1, i; simpl; intros; simplify_eq; auto. Qed.

Lemma ownerState_mono l evs evs' otid done todo p :
  ownerState l evs otid done todo p -> ownerState l (evs ++ evs') otid done todo p.
Proof.
  intros [(ra0 & Hra0 & Hctx0) Hcases]. split.
  { exists ra0. split; [|done]. rewrite invocations_app. by apply lookup_app_l_Some. }
  destruct Hcases as [(ra & cfg & v & done' & Hra & Hcfg & Hdone & Hown)|[H|H]];
    [left|right; by left|right; by right].
  exists ra, cfg, v, done'. split_and!; try done.
  rewrite invocations_app. by apply lookup_app_l_Some.
Qed.

Lemma globalResultsAt_eq P l :
  globalResultsAt P l = ___globalValidationResults (validityAt (pworld P) l).
Proof. done. Qed.

(** An event that the pool cannot take leaves it as it is. *)
Lemma PoolInv_settle_skip reg l evs P tid i :
  PoolInv reg l evs P -> PoolInv reg l (evs ++ [Settle tid i]) P.
Proof.
  unfold PoolInv. rewrite invocations_app; simpl. rewrite app_nil_r.
  intros [Hlen Hinv]. split; [done|].
  destruct (globalResultsAt P l); [|done].
  destruct Hinv as (Hloc & otid & done & todo & p & H1 & H2 & H3 & H4 & H5 & H6).
  split; [done|]. exists otid, done, todo, p. split_and!; try done.
  by apply ownerState_mono.
Qed.

(** Calling a resolver when the global list of [l] exists. *)
Lemma PoolInv_invoke_present reg l evs P r args gs :
  PoolInv reg l evs P ->
  globalResultsAt P l = Some gs ->
  PoolInv reg l (evs ++ [Invoke r args]) (poolStep reg P (Invoke r args))
  ∧ globalResultsAt (poolStep reg P (Invoke r args)) l = Some gs.
Proof.
  intros [Hlen Hinv] Hg. rewrite Hg in Hinv.
  destruct Hinv as (Hloc & otid & done & todo & p & H1 & H2 & H3 & H4 & H5 & H6).
  destruct (quiet_run l _ [] (pworld P) (quiet_invoke l reg r args))
    as (Hq & Hg' & Hl' & Hc').
  { rewrite <- globalResultsAt_eq, Hg. by eexists. }
  assert (Hg2 : globalResultsAt (poolStep reg P (Invoke r args)) l = Some gs).
  { unfold globalResultsAt; simpl. by rewrite Hg'. }
  split; [|done].
  unfold PoolInv. rewrite Hg2. simpl.
  rewrite invocations_app, !length_app; simpl. split; [by rewrite Hlen|].
  split; [by apply Hl'|].
  exists otid, done, todo, p. split_and!; try done.
  - rewrite globalCalls_app, globalCalls_stamp, Hc'; simpl. by rewrite app_nil_r.
  - by apply lookup_app_l_Some.
  - by apply (ownerState_mono l evs [Invoke r args]).
  - intros tid q Hq' Hne.
    apply lookup_app_Some in Hq' as [Hq'|[_ Hq']]; [by eapply H6|].
    destruct (tid - length (tasks P))%nat; simplify_eq/=. done.
Qed.

(** Calling a resolver of another request while the global list of [l] is
    absent. *)
Lemma PoolInv_invoke_stranger reg l evs P r args :
  PoolInv reg l evs P -> flat r ->
  globalResultsAt P l = None -> contextOf r args ≠ Some l ->
  PoolInv reg l (evs ++ [Invoke r args]) (poolStep reg P (Invoke r args))
  ∧ globalResultsAt (poolStep reg P (Invoke r args)) l = None.
Proof.
  intros [Hlen Hinv] Hflat Hg Hctx. rewrite Hg in Hinv.
  destruct Hinv as (Hst & Hcalls & Hctxs).
  destruct (stranger_run l _ [] (pworld P) (stranger_invoke l reg r args Hflat Hctx))
    as (Hs & Hv & Hc).
  assert (Hg2 : globalResultsAt (poolStep reg P (Invoke r args)) l = None).
  { unfold globalResultsAt; simpl. by rewrite Hv. }
  split; [|done].
  unfold PoolInv. rewrite Hg2. simpl.
  rewrite invocations_app, !length_app; simpl. split; [by rewrite Hlen|].
  split_and!.
  - apply Forall_app. split; [done|]. by constructor.
  - rewrite globalCalls_app, globalCalls_stamp, Hc, Hcalls. done.
  - apply Forall_app. split; [done|]. by constructor.
Qed.

(** The first resolver of the request of [l] is called. *)
Lemma PoolInv_invoke_enter reg l evs P r args :
  PoolInv reg l evs P -> flat r ->
  globalResultsAt P l = None -> contextOf r args = Some l ->
  PoolInv reg l (evs ++ [Invoke r args]) (poolStep reg P (Invoke r args))
  ∧ globalResultsAt (poolStep reg P (Invoke r args)) l = Some [].
Proof.
  intros [Hlen Hinv] Hflat Hg Hctx. rewrite Hg in Hinv.
  destruct Hinv as (Hst & Hcalls & Hctxs).
  destruct (enter_invoke reg r args l (pworld P) Hflat Hctx Hg)
    as (cfg & Hcfg & Hg' & Hl' & Hquiet & Hown).
  destruct (run_nil_calls (invoke reg r args) (pworld P)) as [Hhead _].
  assert (Hg2 : globalResultsAt (poolStep reg P (Invoke r args)) l = Some []).
  { unfold globalResultsAt; simpl. by rewrite Hg'. }
  split; [|done].
  unfold PoolInv. rewrite Hg2. simpl.
  rewrite invocations_app, !length_app; simpl. split; [by rewrite Hlen|].
  split; [done|].
  assert (Hothers : forall tid q,
    (tasks P ++ [residual (run (invoke reg r args) [] (pworld P))]) !! tid = Some q ->
    tid ≠ length (tasks P) -> quiet l q).
  { intros tid q Hq Hne. apply lookup_app_Some in Hq as [Hq|[Hge Hq]].
    - apply stranger_quiet. rewrite Forall_forall in Hst.
      apply Hst. by eapply list_elem_of_lookup_2.
    - destruct (tid - length (tasks P))%nat eqn:Hd; simplify_eq/=. lia. }
  assert (Hnew : (tasks P ++ [residual (run (invoke reg r args) [] (pworld P))])
                 !! length (tasks P)
                 = Some (residual (run (invoke reg r args) [] (pworld P)))).
  { rewrite lookup_app_r by lia. by rewrite Nat.sub_diag. }
  destruct (lookupValidators reg "$") as [|v vs] eqn:Hgvs.
  - exists (length (tasks P)), [], [], (residual (run (invoke reg r args) [] (pworld P))).
    split_and!; try done.
    + rewrite globalCalls_app, globalCalls_stamp, Hcalls, Hhead.
      by rewrite (quiet_headCall l _ (Hquiet eq_refl)).
    + split; [|right; left; split; [done|]; by apply Hquiet].
      exists (r, args). split; [|done].
      rewrite invocations_app, lookup_app_r by lia. by rewrite Hlen, Nat.sub_diag.
  - exists (length (tasks P)), [v], vs,
      (residual (run (invoke reg r args) [] (pworld P))).
    assert (Hown' := Hown ltac:(done)).
    destruct (owner_headCall _ _ _ _ Hown') as (v' & vs' & Heq & Hhc). simplify_eq.
    split_and!; try done.
    + rewrite globalCalls_app, globalCalls_stamp, Hcalls, Hhead, Hhc. done.
    + assert (Hnth : invocations (evs ++ [Invoke r args]) !! length (tasks P)
                     = Some (r, args)).
      { rewrite invocations_app, lookup_app_r by lia.
        by rewrite Hlen, Nat.sub_diag. }
      split; [by exists (r, args)|].
      left. by exists (r, args), cfg, v', [].
Qed.

(** A promise settles while the global list of [l] is absent. *)
Lemma PoolInv_settle_absent reg l evs P tid i p p' :
  PoolInv reg l evs P -> globalResultsAt P l = None ->
  tasks P !! tid = Some p -> resume p i = Some p' ->
  PoolInv reg l (evs ++ [Settle tid i]) (poolStep reg P (Settle tid i))
  ∧ globalResultsAt (poolStep reg P (Settle tid i)) l = None.
Proof.
  intros [Hlen Hinv] Hg Ht Hr. rewrite Hg in Hinv.
  destruct Hinv as (Hst & Hcalls & Hctxs).
  assert (Hp : stranger l p).
  { rewrite Forall_forall in Hst. apply Hst. by eapply list_elem_of_lookup_2. }
  destruct (stranger_run l p' [] (pworld P) (resume_stranger l p p' i Hp Hr))
    as (Hs & Hv & Hc).
  unfold poolStep. rewrite Ht, Hr.
  assert (Hg2 : globalResultsAt
                  {| pworld := world_of (run p' [] (pworld P));
                     tasks := <[tid := residual (run p' [] (pworld P))]> (tasks P);
                     trace := trace P ++ stamp tid (calls_of (run p' [] (pworld P))) |} l
                = None).
  { unfold globalResultsAt; simpl. by rewrite Hv. }
  split; [|done].
  unfold PoolInv. rewrite Hg2. simpl.
  rewrite invocations_app, length_insert; simpl. rewrite app_nil_r.
  split; [done|]. split_and!; try done.
  - by apply Forall_insert.
  - rewrite globalCalls_app, globalCalls_stamp, Hc, Hcalls. done.
Qed.

(** A promise of an activation other than the owner settles. *)
Lemma PoolInv_settle_quiet reg l evs P tid i p p' gs :
  PoolInv reg l evs P -> globalResultsAt P l = Some gs ->
  tasks P !! tid = Some p -> resume p i = Some p' -> quiet l p ->
  PoolInv reg l (evs ++ [Settle tid i]) (poolStep reg P (Settle tid i))
  ∧ globalResultsAt (poolStep reg P (Settle tid i)) l = Some gs.
Proof.
  intros [Hlen Hinv] Hg Ht Hr Hp. rewrite Hg in Hinv.
  destruct Hinv as (Hloc & otid & done & todo & q & H1 & H2 & H3 & H4 & H5 & H6).
  destruct (quiet_run l p' [] (pworld P) (resume_quiet l p p' i Hp Hr))
    as (Hq & Hg' & Hl' & Hc').
  { rewrite <- globalResultsAt_eq, Hg. by eexists. }
  unfold poolStep. rewrite Ht, Hr.
  assert (Hg2 : globalResultsAt
                  {| pworld := world_of (run p' [] (pworld P));
                     tasks := <[tid := residual (run p' [] (pworld P))]> (tasks P);
                     trace := trace P ++ stamp tid (calls_of (run p' [] (pworld P))) |} l
                = Some gs).
  { unfold globalResultsAt; simpl. by rewrite Hg'. }
  split; [|done].
  unfold PoolInv. rewrite Hg2. simpl.
  rewrite invocations_app, length_insert; simpl. rewrite app_nil_r.
  split; [done|]. split; [by apply Hl'|].
  assert (Hlt : (tid < length (tasks P))%nat) by (by eapply lookup_lt_Some).
  assert (Hcalls : globalCalls l (trace P ++ stamp tid (calls_of (run p' [] (pworld P))))
                   = map (pair otid) done).
  { rewrite globalCalls_app, globalCalls_stamp, Hc'; simpl. by rewrite app_nil_r. }
  assert (Hrest : forall tid' q',
    <[tid := residual (run p' [] (pworld P))]> (tasks P) !! tid' = Some q' ->
    tid' ≠ otid -> quiet l q').
  { intros tid' q' Hq' Hne. destruct (decide (tid' = tid)) as [->|Hne'].
    - rewrite list_lookup_insert_eq in Hq' by done. by simplify_eq.
    - rewrite list_lookup_insert_ne in Hq' by done. by eapply H6. }
  destruct (decide (tid = otid)) as [->|Hne].
  - simplify_eq.
    exists otid, done, todo, (residual (run p' [] (pworld P))).
    split_and!; try done.
    + by rewrite list_lookup_insert_eq.
    + pose proof (ownerState_mono l evs [Settle otid i] _ _ _ _ H5) as [Hfound _].
      destruct H5
        as [_ [(ra & cfg & v & done' & Hra & Hcfg & Hdone & Hown)|[[Htodo _]|[x ->]]]].
      * inversion Hown; simplify_eq. inversion Hp; simplify_eq.
        match goal with H : Global = Global -> _ ≠ _ |- _ => by destruct (H eq_refl) end.
      * split; [done|]. right; left. done.
      * by destruct i.
  - exists otid, done, todo, q. split_and!; try done.
    + by rewrite list_lookup_insert_ne.
    + by apply ownerState_mono.
Qed.

(** A promise of the owner settles while it runs the global validators. *)
Lemma owner_settles l cfg v todo (p p' : prog ResolveOutput) i w gs :
  owner l (onCatch cfg) (v :: todo) p ->
  resume p i = Some p' ->
  ___globalValidationResults (validityAt w l) = Some gs ->
  is_Some (___validationResults (validityAt w l)) ->
  let o := run p' [] w in
  (∃ rs, i = InValidator rs
     ∧ ___globalValidationResults (validityAt (world_of o) l) = Some (gs ++ rs)
     ∧ is_Some (___validationResults (validityAt (world_of o) l))
     ∧ (todo = [] -> quiet l (residual o))
     ∧ (todo ≠ [] -> owner l (onCatch cfg) todo (residual o)))
  ∨ (∃ e x, i = InReject e ∧ p' = onCatch cfg e
     ∧ residual o = Throw x ∧ calls_of o = []
     ∧ validityAt (world_of o) l = validityAt w l).
Proof.
  intros Hown Hr Hg Hl o. subst o.
  inversion Hown as [v' vs' args k Hrej Hglob Hloc Hq Ho]; simplify_eq.
  destruct i as [rs|out|e]; simpl in Hr; simplify_eq.
  - left. exists rs. split_and!; auto.
    by rewrite Hglob, Hg.
  - right. rewrite Hrej.
    destruct (run_onCatch_throw (A:=ResolveOutput) cfg e [] w) as (x & w' & Hrun & Hheap).
    exists e, x. rewrite Hrun; simpl. split_and!; try done.
    unfold validityAt. by rewrite Hheap.
Qed.

Lemma PoolInv_settle_present reg l evs P tid i p p' gs :
  PoolInv reg l evs P -> globalResultsAt P l = Some gs ->
  tasks P !! tid = Some p -> resume p i = Some p' ->
  PoolInv reg l (evs ++ [Settle tid i]) (poolStep reg P (Settle tid i))
  ∧ ∃ gs', globalResultsAt (poolStep reg P (Settle tid i)) l = Some (gs ++ gs').
Proof.
  intros HI Hg Ht Hr.
  assert (Hquiet : quiet l p ->
    PoolInv reg l (evs ++ [Settle tid i]) (poolStep reg P (Settle tid i))
    ∧ ∃ gs', globalResultsAt (poolStep reg P (Settle tid i)) l = Some (gs ++ gs')).
  { intros Hp.
    destruct (PoolInv_settle_quiet reg l evs P tid i p p' gs HI Hg Ht Hr Hp) as [H1 H2].
    split; [done|]. exists []. by rewrite app_nil_r. }
  pose proof HI as [Hlen Hinv]. rewrite Hg in Hinv.
  destruct Hinv as (Hloc & otid & done & todo & q & H1 & H2 & H3 & H4 & H5 & H6).
  destruct (decide (tid = otid)) as [->|Hne]; [|by eauto].
  simplify_eq.
  pose proof (ownerState_mono l evs [Settle otid i] _ _ _ _ H5) as [Hfound _].
  destruct H5
    as [_ [(ra & cfg & v & done' & Hra & Hcfg & Hdone & Hown)|[[Htodo Hq]|[x ->]]]];
    [|by auto|by destruct i].
  destruct (owner_settles l cfg v todo p p' i (pworld P) gs Hown Hr Hg Hloc)
    as [(rs & -> & Hg' & Hl' & Hq' & Ho')|(e & x & -> & -> & Hres & Hcs & Hv)].
  - (* fulfilled *)
    unfold poolStep. rewrite Ht, Hr.
    set (o := run p' [] (pworld P)) in *.
    destruct (run_nil_calls p' (pworld P)) as [Hhead _]. fold o in Hhead.
    assert (Hg2 : globalResultsAt
                    {| pworld := world_of o;
                       tasks := <[otid := residual o]> (tasks P);
                       trace := trace P ++ stamp otid (calls_of o) |} l
                  = Some (gs ++ rs)) by done.
    split; [|by eexists].
    unfold PoolInv. rewrite Hg2. simpl.
    rewrite invocations_app, length_insert; simpl. rewrite app_nil_r.
    split; [done|]. split; [done|].
    assert (Hlt : (otid < length (tasks P))%nat) by (by eapply lookup_lt_Some).
    assert (Hrest : forall tid' q',
      <[otid := residual o]> (tasks P) !! tid' = Some q' -> tid' ≠ otid -> quiet l q').
    { intros tid' q' Hq'' Hne. rewrite list_lookup_insert_ne in Hq'' by done.
      by eapply H6. }
    destruct todo as [|v' todo'].
    + exists otid, done, [], (residual o). split_and!; try done.
      * rewrite globalCalls_app, globalCalls_stamp, Hhead.
        rewrite (quiet_headCall l _ (Hq' eq_refl)); simpl. by rewrite app_nil_r.
      * by rewrite list_lookup_insert_eq.
      * split; [done|]. right; left. split; [done|]. by apply Hq'.
    + assert (Hown' := Ho' ltac:(done)).
      destruct (owner_headCall _ _ _ _ Hown') as (v2 & vs2 & Heq & Hhc). simplify_eq.
      exists otid, (done' ++ [v] ++ [v2]), vs2, (residual o). split_and!; try done.
      * rewrite H1. by rewrite <- !app_assoc.
      * rewrite globalCalls_app, globalCalls_stamp, Hhead, Hhc, H2.
        by rewrite !map_app, <- !app_assoc.
      * intros _. by destruct done'.
      * by rewrite list_lookup_insert_eq.
      * split; [done|].
        left. exists ra, cfg, v2, (done' ++ [v]). split_and!; try done.
        -- rewrite invocations_app; simpl. by rewrite app_nil_r.
        -- by rewrite <- app_assoc.
  - (* rejected *)
    unfold poolStep. rewrite Ht, Hr.
    set (o := run (onCatch cfg e) [] (pworld P)) in *.
    assert (Hg2 : globalResultsAt
                    {| pworld := world_of o;
                       tasks := <[otid := residual o]> (tasks P);
                       trace := trace P ++ stamp otid (calls_of o) |} l
                  = Some gs).
    { unfold globalResultsAt; simpl. rewrite Hv. by rewrite <- globalResultsAt_eq. }
    split; [|exists []; by rewrite app_nil_r].
    unfold PoolInv. rewrite Hg2. simpl.
    rewrite invocations_app, length_insert; simpl. rewrite app_nil_r.
    split; [done|]. split; [by rewrite Hv|].
    assert (Hlt : (otid < length (tasks P))%nat) by (by eapply lookup_lt_Some).
    subst done.
    exists otid, (done' ++ [v]), todo, (residual o). split_and!; try done.
    + rewrite globalCalls_app, globalCalls_stamp, Hcs; simpl. by rewrite app_nil_r.
    + by rewrite list_lookup_insert_eq.
    + split; [done|]. right; right. by exists x.
    + intros tid' q' Hq'' Hne. rewrite list_lookup_insert_ne in Hq'' by done.
      by eapply H6.
Qed.

(** *** The invariant holds along every schedule *)

Lemma PoolInv_init reg l w :
  ___globalValidationResults (validityAt w l) = None ->
  PoolInv reg l [] (emptyPool w).
Proof.
  intros Hg. unfold PoolInv, globalResultsAt; simpl. rewrite Hg.
  split_and!; by constructor.
Qed.

Lemma poolStep_grows reg P ev :
  trace P `prefix_of` trace (poolStep reg P ev)
  ∧ (length (tasks P) <= length (tasks (poolStep reg P ev)))%nat.
Proof.
  destruct ev as [r args|tid i]; simpl.
  - split; [by apply prefix_app_r|]. rewrite length_app; lia.
  - destruct (tasks P !! tid) as [p|]; [|done].
    destruct (resume p i) as [p'|]; [|done]. simpl.
    split; [by apply prefix_app_r|]. by rewrite length_insert.
Qed.

Lemma PoolInv_step reg l evs P ev :
  match ev with Invoke r _ => flat r | Settle _ _ => True end ->
  PoolInv reg l evs P ->
  PoolInv reg l (evs ++ [ev]) (poolStep reg P ev)
  ∧ (forall gs, globalResultsAt P l = Some gs ->
       ∃ gs', globalResultsAt (poolStep reg P ev) l = Some (gs ++ gs')).
Proof.
  intros Hflat HI. destruct ev as [r args|tid i].
  - destruct (globalResultsAt P l) as [gs|] eqn:Hg.
    + destruct (PoolInv_invoke_present reg l evs P r args gs HI Hg) as [H1 H2].
      split; [done|]. intros gs' ?; simplify_eq. exists []. by rewrite app_nil_r.
    + destruct (decide (contextOf r args = Some l)) as [Hctx|Hctx].
      * by destruct (PoolInv_invoke_enter reg l evs P r args HI Hflat Hg Hctx).
      * by destruct (PoolInv_invoke_stranger reg l evs P r args HI Hflat Hg Hctx).
  - destruct (tasks P !! tid) as [p|] eqn:Ht;
      [destruct (resume p i) as [p'|] eqn:Hr|].
    + destruct (globalResultsAt P l) as [gs|] eqn:Hg.
      * destruct (PoolInv_settle_present reg l evs P tid i p p' gs HI Hg Ht Hr)
          as [H1 H2].
        split; [done|]. by intros gs' ?; simplify_eq.
      * by destruct (PoolInv_settle_absent reg l evs P tid i p p' HI Hg Ht Hr).
    + unfold poolStep. rewrite Ht, Hr.
      split; [by apply PoolInv_settle_skip|].
      intros gs Hgs. exists []. by rewrite app_nil_r.
    + unfold poolStep. rewrite Ht.
      split; [by apply PoolInv_settle_skip|].
      intros gs Hgs. exists []. by rewrite app_nil_r.
Qed.

Lemma flatSchedule_cons ev evs :
  flatSchedule (ev :: evs) ->
  match ev with Invoke r _ => flat r | Settle _ _ => True end ∧ flatSchedule evs.
Proof.
  unfold flatSchedule. destruct ev as [r args|tid i]; simpl; [|done].
  by inversion 1.
Qed.

Lemma flatSchedule_app evs1 evs2 :
  flatSchedule (evs1 ++ evs2) <-> flatSchedule evs1 ∧ flatSchedule evs2.
Proof. unfold flatSchedule. rewrite invocations_app. apply Forall_app. Qed.

Lemma poolRun_app reg P evs1 evs2 :
  poolRun reg P (evs1 ++ evs2) = poolRun reg (poolRun reg P evs1) evs2.
Proof. apply foldl_app. Qed.

Lemma PoolInv_run reg l evs P evs' :
  flatSchedule evs' -> PoolInv reg l evs P ->
  PoolInv reg l (evs ++ evs') (poolRun reg P evs')
  ∧ (forall gs, globalResultsAt P l = Some gs ->
       ∃ gs', globalResultsAt (poolRun reg P evs') l = Some (gs ++ gs'))
  ∧ trace P `prefix_of` trace (poolRun reg P evs')
  ∧ (length (tasks P) <= length (tasks (poolRun reg P evs')))%nat.
Proof.
  revert evs P; induction evs' as [|ev evs' IH]; intros evs P Hflat HI; simpl.
  - rewrite app_nil_r. split_and!; [done| |done|done].
    intros gs Hgs. exists []. by rewrite app_nil_r.
  - apply flatSchedule_cons in Hflat as [Hev Hflat].
    destruct (PoolInv_step reg l evs P ev Hev HI) as [HI' Hmono].
    destruct (poolStep_grows reg P ev) as [Htr Hlen].
    destruct (IH (evs ++ [ev]) (poolStep reg P ev) Hflat HI')
      as (HI'' & Hmono' & Htr' & Hlen').
    rewrite <- app_assoc in HI''. split_and!; [done| | |lia].
    + intros gs Hgs. destruct (Hmono gs Hgs) as [gs1 Hgs1].
      destruct (Hmono' _ Hgs1) as [gs2 Hgs2].
      exists (gs1 ++ gs2). by rewrite app_assoc.
    + by etrans.
Qed.

(** ** Strings and correlation ids *)

Lemma string_length_app (s t : string) :
  String.length (s +:+ t) = (String.length s + String.length t)%nat.
Proof. induction s as [|a s IH]; simpl; [done|by rewrite IH]. Qed.

Lemma string_app_inv_tail (s1 s2 t : string) : s1 +:+ t = s2 +:+ t -> s1 = s2.
Proof.
  revert s2; induction s1 as [|a s1 IH]; intros [|b s2] H; simpl in *; try done.
  - apply (f_equal String.length) in H; simpl in H.
    rewrite !string_length_app in H. simpl in H. lia.
  - apply (f_equal String.length) in H; simpl in H.
    rewrite !string_length_app in H. simpl in H. lia.
  - injection H as -> H. f_equal. by apply IH.
Qed.

(** Two messages built around different ids differ. *)
Lemma embedded_id_inj (pre post id1 id2 : string) :
  pre +:+ id1 +:+ post = pre +:+ id2 +:+ post -> id1 = id2.
Proof.
  intros H. apply String.app_inj in H. by apply string_app_inv_tail in H.
Qed.

(** No program rewinds the uuid generator or swaps it. *)
Lemma run_uuids {A} (p : prog A) ins w :
  uuids (world_of (run p ins w)) = uuids w
  ∧ (drawn w <= drawn (world_of (run p ins w)))%nat.
Proof.
  revert ins w; induction p as [a|e|l k IH|l g k IH|k IH|k IH|line k IH
                               |s l v args k IH|r args k IH]; intros ins w; simpl.
  - done.
  - done.
  - apply IH.
  - exact (IH ins (updValidity l g w)).
  - exact (IH _ ins (tick w)).
  - destruct (IH (uuids w (drawn w)) ins (draw w)) as [H1 H2]. simpl in *.
    split; [done|lia].
  - exact (IH ins (logError line w)).
  - destruct ins as [|[rs|o|e] ins']; simpl; try done; apply IH.
  - destruct ins as [|[rs|o|e] ins']; simpl; try done; apply IH.
Qed.

(** ** Reading call lists *)

Lemma localValidatorsRun_app cs1 cs2 :
  localValidatorsRun (cs1 ++ cs2) = localValidatorsRun cs1 ++ localValidatorsRun cs2.
Proof. apply omap_app. Qed.

Lemma localValidatorsRun_global l args vs :
  localValidatorsRun (validatorCalls Global l args vs) = [].
Proof. induction vs as [|v vs IH]; simpl; done. Qed.

Lemma localValidatorsRun_local l args vs :
  localValidatorsRun (validatorCalls Local l args vs) = vs.
Proof.
  induction vs as [|v vs IH]; [done|].
  change (localValidatorsRun (validatorCalls Local l args (v :: vs)))
    with (v :: localValidatorsRun (validatorCalls Local l args vs)).
  by rewrite IH.
Qed.

Lemma resolverCalls_app cs1 cs2 :
  resolverCalls (cs1 ++ cs2) = resolverCalls cs1 ++ resolverCalls cs2.
Proof. apply omap_app. Qed.

Lemma resolverCalls_validators s l args vs :
  resolverCalls (validatorCalls s l args vs) = [].
Proof. induction vs as [|v vs IH]; simpl; done. Qed.

(** ** A rejected original resolver without a state in the arguments *)

Lemma run_v1_no_context_reject reg fname ftype cfg parent r args e ins w :
  findRequest args = None ->
  run (invoke reg (WrappedV1 (Original r) fname ftype cfg parent) args)
      (InReject e :: ins) w =
  prepend [CallResolve r args] (run (onCatch (A:=ResolveOutput) cfg e) ins w).
Proof. intros Hctx. simpl. unfold wrapped. by rewrite Hctx. Qed.

Lemma run_v2_no_context_reject reg fname ftype cfg r args e ins w :
  Index.scanValidity args = None ->
  run (invoke reg (WrappedV2 (Original r) fname ftype cfg) args)
      (InReject e :: ins) w =
  prepend [CallResolve r args]
    (run (onCatch (A:=ResolveOutput) cfg e) ins (tick (tick w))).
Proof. intros Hctx. simpl. unfold Index.wrapped. by rewrite Hctx. Qed.

(** The sample id stream does not repeat. *)
Lemma sampleUuid_inj i j : sampleUuid i = sampleUuid j -> i = j.
Proof.
  revert j; induction i as [|i IH]; intros [|j] H; simpl in H; try done.
  injection H as H. f_equal. by apply IH.
Qed.

(** ** Consequences of the invariant *)

Lemma invoke_present reg l P r args gs :
  globalResultsAt P l = Some gs ->
  globalResultsAt (poolStep reg P (Invoke r args)) l = Some gs
  ∧ globalCalls l (trace (poolStep reg P (Invoke r args))) = globalCalls l (trace P).
Proof.
  intros Hg.
  destruct (quiet_run l _ [] (pworld P) (quiet_invoke l reg r args))
    as (_ & Hg' & _ & Hc).
  { rewrite <- globalResultsAt_eq, Hg. by eexists. }
  split.
  - unfold globalResultsAt; simpl. by rewrite Hg'.
  - simpl. rewrite globalCalls_app, globalCalls_stamp, Hc; simpl. by rewrite app_nil_r.
Qed.

Lemma invoke_enter_calls reg l evs P r args :
  PoolInv reg l evs P -> flat r ->
  globalResultsAt P l = None -> contextOf r args = Some l ->
  map snd (globalCalls l (trace (poolStep reg P (Invoke r args))))
  = take 1 (lookupValidators reg "$").
Proof.
  intros [Hlen Hinv] Hflat Hg Hctx. rewrite Hg in Hinv.
  destruct Hinv as (Hst & Hcalls & Hctxs).
  destruct (enter_invoke reg r args l (pworld P) Hflat Hctx Hg)
    as (cfg & Hcfg & Hg' & Hl' & Hquiet & Hown).
  destruct (run_nil_calls (invoke reg r args) (pworld P)) as [Hhead _].
  simpl. rewrite globalCalls_app, globalCalls_stamp, Hcalls, Hhead. simpl.
  destruct (lookupValidators reg "$") as [|v vs] eqn:Hgvs.
  - by rewrite (quiet_headCall l _ (Hquiet eq_refl)).
  - destruct (owner_headCall _ _ _ _ (Hown ltac:(done))) as (v' & vs' & Heq & Hhc).
    simplify_eq. by rewrite Hhc.
Qed.

Lemma globalCalls_prefix l t1 t2 :
  t1 `prefix_of` t2 -> globalCalls l t1 `prefix_of` globalCalls l t2.
Proof. intros [k ->]. rewrite globalCalls_app. by apply prefix_app_r. Qed.

(** The calls of global validators for [l], read off the invariant. *)
Lemma PoolInv_calls reg l evs P :
  PoolInv reg l evs P ->
  ∃ otid done todo,
    lookupValidators reg "$" = done ++ todo
    ∧ globalCalls l (trace P) = map (pair otid) done
    ∧ (is_Some (globalResultsAt P l) -> (otid < length (tasks P))%nat)
    ∧ (is_Some (globalResultsAt P l) -> lookupValidators reg "$" ≠ [] -> done ≠ [])
    ∧ (requestReturned l evs P -> is_Some (globalResultsAt P l) -> todo = []).
Proof.
  intros [Hlen Hinv]. destruct (globalResultsAt P l) as [gs|].
  - destruct Hinv as (Hloc & otid & done & todo & p & H1 & H2 & H3 & H4 & H5 & H6).
    exists otid, done, todo. split_and!; try done;
      try (intros _; by eapply lookup_lt_Some).
    intros Hret _. destruct H5 as [(ra0 & Hra0 & Hctx0) H5].
    assert (Hp : returned p) by (by eapply Hret).
    destruct H5 as [(ra & cfg & v & done' & _ & _ & _ & Hown)|[[Htodo _]|[x ->]]];
      [|done|done].
    by inversion Hown; subst.
  - destruct Hinv as (_ & Hcalls & _).
    exists 0%nat, [], (lookupValidators reg "$"). split_and!; try done;
      try (by intros [? ?]); by intros _ [? ?].
Qed.

Lemma PoolInv_entered reg l evs P :
  PoolInv reg l evs P ->
  (∃ ra, ra ∈ invocations evs ∧ contextOf ra.1 ra.2 = Some l) ->
  is_Some (globalResultsAt P l).
Proof.
  intros [Hlen Hinv] (ra & Hin & Hctx).
  destruct (globalResultsAt P l) as [gs|]; [by eexists|].
  destruct Hinv as (_ & _ & Hctxs). rewrite Forall_forall in Hctxs.
  by destruct (Hctxs ra Hin).
Qed.

Lemma PoolInv_local reg l evs P :
  PoolInv reg l evs P -> is_Some (globalResultsAt P l) ->
  is_Some (___validationResults (validityAt (pworld P) l)).
Proof.
  intros [Hlen Hinv] [gs Hg]. rewrite Hg in Hinv. by destruct Hinv.
Qed.

(** The activation that waits for a global validator of [l] hands a
    rejection to the [catch] block of its own wrapper. *)
Lemma PoolInv_owner_rejects reg l evs P tid v args k ra cfg e :
  PoolInv reg l evs P ->
  tasks P !! tid = Some (AwaitValidator Global l v args k) ->
  invocations evs !! tid = Some ra -> configOf ra.1 = Some cfg ->
  k (Rejected e) = onCatch cfg e.
Proof.
  intros [Hlen Hinv] Ht Hra Hcfg.
  destruct (globalResultsAt P l) as [gs|].
  - destruct Hinv as (Hloc & otid & done & todo & p & H1 & H2 & H3 & H4 & H5 & H6).
    destruct (decide (tid = otid)) as [->|Hne].
    + simplify_eq.
      destruct H5
        as [_ [(ra' & cfg' & v' & done' & Hra' & Hcfg' & _ & Hown)|[[_ Hq]|[x Hx]]]];
        [| |done].
      * simplify_eq. inversion Hown; simplify_eq. done.
      * inversion Hq; simplify_eq.
        match goal with H : Global = Global -> _ ≠ _ |- _ => by destruct (H eq_refl) end.
    + pose proof (H6 _ _ Ht Hne) as Hq. inversion Hq; simplify_eq.
      match goal with H : Global = Global -> _ ≠ _ |- _ => by destruct (H eq_refl) end.
  - destruct Hinv as (Hst & _ & _). rewrite Forall_forall in Hst.
    assert (Hs : stranger l (AwaitValidator Global l v args k)).
    { apply Hst. by eapply list_elem_of_lookup_2. }
    by inversion Hs.
Qed.

(** * The claims *)

(** ** C5: the response merger *)

(** C5.  For a state whose local list exists (as in every state an adapter
    creates) and any response, the merger yields the response with its
    errors replaced by: the existing errors (none when absent), then each
    local result reduced to its [message], then each global result
    (none when the global list is absent) reduced the same way; the order
    is kept and nothing is removed, and a reduced entry has no property
    other than [message]. *)
Theorem C5_response_merger (validity : Validity) (response : SchemaWrapper.Response)
    (locals : list JsObject) :
  ___validationResults validity = Some locals ->
  SchemaWrapper.getResponseValidationResults validity response =
    Fulfilled
      {| SchemaWrapper.rdata := SchemaWrapper.rdata response;
         SchemaWrapper.rerrors :=
           Some (default [] (SchemaWrapper.rerrors response)
                 ++ map SchemaWrapper.projectMessage locals
                 ++ map SchemaWrapper.projectMessage
                      (default [] (___globalValidationResults validity))) |}
  ∧ (forall error : JsObject,
       SchemaWrapper.projectMessage error !! "message" = Some (get_message error)
       ∧ forall key, key ≠ "message" -> SchemaWrapper.projectMessage error !! key = None).
Proof.
  intros Hloc. split.
  - unfold SchemaWrapper.getResponseValidationResults. by rewrite Hloc.
  - intros error. unfold SchemaWrapper.projectMessage. split.
    + by rewrite lookup_singleton_eq.
    + intros key Hkey. by rewrite lookup_singleton_ne.
Qed.

Lemma C5_response_merger_witness :
  ___validationResults
    {| ___validationResults := Some [ <["code" := JNum 7]> (violation "a") ];
       ___globalValidationResults := Some [violation "b"];
       ___profilingData := None |}
  = Some [ <["code" := JNum 7]> (violation "a") ]
  ∧ SchemaWrapper.getResponseValidationResults
      {| ___validationResults := Some [ <["code" := JNum 7]> (violation "a") ];
         ___globalValidationResults := Some [violation "b"];
         ___profilingData := None |}
      {| SchemaWrapper.rdata := Some (JNum 1);
         SchemaWrapper.rerrors := Some [violation "c"] |}
    = Fulfilled
        {| SchemaWrapper.rdata := Some (JNum 1);
           SchemaWrapper.rerrors :=
             Some [violation "c"; violation "a"; violation "b"] |}.
Proof.
  split; [reflexivity|].
  destruct (C5_response_merger
              {| ___validationResults := Some [ <["code" := JNum 7]> (violation "a") ];
                 ___globalValidationResults := Some [violation "b"];
                 ___profilingData := None |}
              {| SchemaWrapper.rdata := Some (JNum 1);
                 SchemaWrapper.rerrors := Some [violation "c"] |}
              [ <["code" := JNum 7]> (violation "a") ] eq_refl) as [H _].
  rewrite H. vm_compute. reflexivity.
Defined.

(** ** C2: which local validators run *)

(** The validators selected for a field are what the selectors ["*"], the
    return type name and [parent:field] contribute, concatenated in that
    order, nothing removed.  A registered selector contributes its list.
    An unregistered selector contributes the empty list unless it names a
    member of [Object.prototype]; then it contributes that member.  A
    wrapped resolver that finds a state calls, as local validators, an
    initial part of exactly that list whatever its promises do, and the
    whole list, in order, when every call fulfils.  This holds for the
    wrapper of schema-wrapper.ts, whose parent type name is fixed at wrap
    time, and for the wrapper of the index module, which reads it from the
    arguments. *)
Lemma local_validator_selection (reg : Registry) (ftype fname : string) :
  (forall parent,
     fst (SchemaWrapper.getValidators reg ftype fname parent)
     = SchemaWrapper.lookupValidators reg "*"
       ++ SchemaWrapper.lookupValidators reg ftype
       ++ SchemaWrapper.lookupValidators reg (js_to_string parent +:+ ":" +:+ fname))
  ∧ (forall selector, reg !! selector = None -> selector ∉ objectPrototype ->
       SchemaWrapper.lookupValidators reg selector = [])
  ∧ (forall selector, reg !! selector = None -> selector ∈ objectPrototype ->
       SchemaWrapper.lookupValidators reg selector = [inherited selector])
  ∧ (forall selector vs, reg !! selector = Some vs ->
       SchemaWrapper.lookupValidators reg selector = vs)
  ∧ (forall cfg parent r args l,
       SchemaWrapper.findRequest args = Some l ->
       let selected := fst (SchemaWrapper.getValidators reg ftype fname parent) in
       let p := invoke reg (WrappedV1 (Original r) fname ftype cfg parent) args in
       (forall ins w, localValidatorsRun (calls_of (run p ins w)) `prefix_of` selected)
       ∧ (forall grs lrs out ins w,
            length grs = length (globalDue reg w l) ->
            length lrs = length selected ->
            localValidatorsRun
              (calls_of (run p (map InValidator grs ++ map InValidator lrs
                                ++ InResolve out :: ins) w))
            = selected))
  ∧ (forall cfg r args l,
       Index.scanValidity args = Some l ->
       let selected :=
         fst (SchemaWrapper.getValidators reg ftype fname
                (Index.scanAst args ≫= arg_parentType)) in
       let p := invoke reg (WrappedV2 (Original r) fname ftype cfg) args in
       (forall ins w, localValidatorsRun (calls_of (run p ins w)) `prefix_of` selected)
       ∧ (forall grs lrs out ins w,
            length grs = length (globalDue reg w l) ->
            length lrs = length selected ->
            localValidatorsRun
              (calls_of (run p (map InValidator grs ++ map InValidator lrs
                                ++ InResolve out :: ins) w))
            = selected)).
Proof.
  split_and!.
  - done.
  - intros selector Hsel Hown.
    unfold SchemaWrapper.lookupValidators, SchemaWrapper.getProperty.
    by rewrite Hsel, bool_decide_eq_false_2.
  - intros selector Hsel Hown.
    unfold SchemaWrapper.lookupValidators, SchemaWrapper.getProperty.
    by rewrite Hsel, bool_decide_eq_true_2.
  - intros selector vs Hsel.
    unfold SchemaWrapper.lookupValidators, SchemaWrapper.getProperty. by rewrite Hsel.
  - intros cfg parent r args l Hctx selected p. split.
    + intros ins w. by eapply localsWithin_run, localsWithin_v1.
    + intros grs lrs out ins w Hg Hl. subst p.
      rewrite (run_v1_ok reg fname ftype cfg parent r args l grs lrs out ins w) by done.
      simpl calls_of.
      rewrite !localValidatorsRun_app, localValidatorsRun_global,
        localValidatorsRun_local. simpl. by rewrite app_nil_r.
  - intros cfg r args l Hctx selected p. split.
    + intros ins w. by eapply localsWithin_run, localsWithin_v2.
    + intros grs lrs out ins w Hg Hl. subst p.
      rewrite (run_v2_ok reg fname ftype cfg r args l grs lrs out ins w) by done.
      simpl calls_of.
      rewrite !localValidatorsRun_app, localValidatorsRun_global,
        localValidatorsRun_local. simpl. by rewrite app_nil_r.
Qed.

Example registered_selectors_run_in_order :
  localValidatorsRun
    (calls_of
       (run (invoke sampleRegistry (sampleV1 false) [sampleRequest])
            (map InValidator [[violation "g1"]; []]
             ++ map InValidator [[violation "a"]; []; [violation "b"]]
             ++ [InResolve (Plain (JNum 42))])
            sampleWorld))
  = ["everyField"; "typeXCheck"; "fieldCheck"].
Proof. vm_compute. reflexivity. Qed.

(** C2.  The claim fails for a selector that is unregistered and names a
    member of [Object.prototype].  Nothing is registered under ["toString"]
    in the sample registry, and a field of parent [Parent] has a return
    type named [toString].  The lookup for the type does not give the
    empty list: it gives the inherited function, which is placed between
    the validators of ["*"] and those of ["Parent:field"].  A wrapped
    resolver of either module that finds a state calls it as a local
    validator with the resolver's arguments; when that call fails, as the
    engine's does on the string the function returns, the wrapped
    resolver rejects and the original resolver is not called.  A type
    named [constructor] selects the inherited constructor in the same
    way; when its call yields nothing that can be appended, the
    resolution goes on to the next validator and to the original resolver,
    having called a function nobody registered.  With the type named
    [TypeY], equally unregistered, the same resolution calls the two
    registered validators and then the original resolver. *)
Theorem C2_inherited_selector_is_called :
  sampleRegistry !! "toString" = None
  ∧ sampleRegistry !! "TypeY" = None
  ∧ SchemaWrapper.lookupValidators sampleRegistry "TypeY" = []
  ∧ SchemaWrapper.lookupValidators sampleRegistry "toString" = [inherited "toString"]
  ∧ fst (SchemaWrapper.getValidators sampleRegistry "toString" "field" (Some "Parent"))
    = ["everyField"; inherited "toString"; "fieldCheck"]
  ∧ (let o := run (invoke sampleRegistry
                     (WrappedV1 (Original 1%nat) "field" "toString"
                        (sampleConfig false false) (Some "Parent"))
                     [sampleRequest])
                  (map InValidator [[]; []]
                   ++ [InValidator []; InReject notArrayLike])
                  sampleWorld in
     localValidatorsRun (calls_of o) = ["everyField"; inherited "toString"]
     ∧ last (calls_of o)
       = Some (CallValidator Local 7%nat (inherited "toString") [sampleRequest])
     ∧ resolverCalls (calls_of o) = []
     ∧ residual o = Throw notArrayLike)
  ∧ (let o := run (invoke sampleRegistry
                     (WrappedV2 (Original 1%nat) "field" "toString"
                        (sampleConfig false false))
                     [sampleContext; sampleInfo])
                  (map InValidator [[]; []]
                   ++ [InValidator []; InReject notArrayLike])
                  sampleWorld in
     localValidatorsRun (calls_of o) = ["everyField"; inherited "toString"]
     ∧ last (calls_of o)
       = Some (CallValidator Local 7%nat (inherited "toString")
                 [sampleContext; sampleInfo])
     ∧ resolverCalls (calls_of o) = []
     ∧ residual o = Throw notArrayLike)
  ∧ (let o := run (invoke sampleRegistry
                     (WrappedV1 (Original 1%nat) "field" "constructor"
                        (sampleConfig false false) (Some "Parent"))
                     [sampleRequest])
                  (map InValidator [[]; []]
                   ++ [InValidator []; InValidator []; InValidator [];
                       InResolve (Plain (JNum 42))])
                  sampleWorld in
     localValidatorsRun (calls_of o)
     = ["everyField"; inherited "constructor"; "fieldCheck"]
     ∧ resolverCalls (calls_of o) = [(1%nat, [sampleRequest])]
     ∧ residual o = Ret (Plain (JNum 42)))
  ∧ (let o := run (invoke sampleRegistry
                     (WrappedV1 (Original 1%nat) "field" "TypeY"
                        (sampleConfig false false) (Some "Parent"))
                     [sampleRequest])
                  (map InValidator [[]; []]
                   ++ [InValidator []; InValidator []; InResolve (Plain (JNum 42))])
                  sampleWorld in
     localValidatorsRun (calls_of o) = ["everyField"; "fieldCheck"]
     ∧ resolverCalls (calls_of o) = [(1%nat, [sampleRequest])]
     ∧ residual o = Ret (Plain (JNum 42))).
Proof. vm_compute. split_and!; reflexivity. Qed.

(** ** C4: unwrapping a data-and-errors result *)

(** C4, as the code has it.  In the wrapper of the index module, when the
    original resolver fulfils with a [DataValidationResult], the wrapped
    resolver returns its [data], and, when a state was found, its [errors]
    are appended to the local list after the results of the local
    validators; any other result is returned as it is and adds nothing.
    Without a state the [data] is still returned and no state is touched.
    The wrapper of schema-wrapper.ts returns every result of the original
    resolver as it is, a [DataValidationResult] included, and the local
    list receives the results of the local validators and nothing else. *)
Theorem C4_data_errors_unwrapping (reg : Registry) (fname ftype : string)
    (cfg : ValidityConfig) (r : resolverId) (args : list Arg) :
  (forall d, effective (DataValidation d) = Plain (data d)
             ∧ carriedErrors (DataValidation d) = errors d)
  ∧ (forall v, effective (Plain v) = Plain v ∧ carriedErrors (Plain v) = [])
  ∧ (forall l grs lrs out ins w,
       Index.scanValidity args = Some l ->
       length grs = length (globalDue reg w l) ->
       length lrs = length (fst (SchemaWrapper.getValidators reg ftype fname
                                   (Index.scanAst args ≫= arg_parentType))) ->
       let o := run (invoke reg (WrappedV2 (Original r) fname ftype cfg) args)
                    (map InValidator grs ++ map InValidator lrs ++ InResolve out :: ins) w in
       residual o = Ret (effective out)
       ∧ ___validationResults (validityAt (world_of o) l)
         = Some (default [] (___validationResults (validityAt w l))
                 ++ concat lrs ++ carriedErrors out))
  ∧ (forall out ins w,
       Index.scanValidity args = None ->
       let o := run (invoke reg (WrappedV2 (Original r) fname ftype cfg) args)
                    (InResolve out :: ins) w in
       residual o = Ret (effective out) ∧ heap (world_of o) = heap w)
  ∧ (forall parent l grs lrs out ins w,
       SchemaWrapper.findRequest args = Some l ->
       length grs = length (globalDue reg w l) ->
       length lrs = length (fst (SchemaWrapper.getValidators reg ftype fname parent)) ->
       let o := run (invoke reg (WrappedV1 (Original r) fname ftype cfg parent) args)
                    (map InValidator grs ++ map InValidator lrs ++ InResolve out :: ins) w in
       residual o = Ret out
       ∧ ___validationResults (validityAt (world_of o) l)
         = Some (default [] (___validationResults (validityAt w l)) ++ concat lrs))
  ∧ (forall parent out ins w,
       SchemaWrapper.findRequest args = None ->
       let o := run (invoke reg (WrappedV1 (Original r) fname ftype cfg parent) args)
                    (InResolve out :: ins) w in
       residual o = Ret out ∧ heap (world_of o) = heap w).
Proof.
  split_and!; [done|done| | | |].
  - intros l grs lrs out ins w Hctx Hg Hl o. subst o.
    rewrite (run_v2_ok reg fname ftype cfg r args l grs lrs out ins w) by done.
    split; [done|]. simpl world_of.
    destruct (run_afterResolve_lists l (Index.scanAst args) cfg fname
                (clock w (ticks w)) (clock w (S (ticks w))) out ins
                (tick (afterValidate l grs lrs (tick w)))) as (Hloc & _ & _).
    rewrite Hloc, tick_validityAt, afterValidate_at, tick_validityAt.
    destruct out as [v|d]; simpl; [by rewrite app_nil_r|by rewrite <- app_assoc].
  - intros out ins w Hctx o. subst o.
    rewrite (run_v2_no_context reg fname ftype cfg r args out ins w) by done.
    split; [done|]. simpl world_of.
    by destruct (run_afterResolve_no_context (Index.scanAst args) cfg fname
                   (clock w (ticks w)) (clock w (S (ticks w))) out ins (tick (tick w)))
      as [-> _].
  - intros parent l grs lrs out ins w Hctx Hg Hl o. subst o.
    rewrite (run_v1_ok reg fname ftype cfg parent r args l grs lrs out ins w) by done.
    split; [done|]. simpl world_of. by rewrite afterValidate_at.
  - intros parent out ins w Hctx o. subst o.
    by rewrite (run_v1_no_context reg fname ftype cfg parent r args out ins w).
Qed.

Lemma C4_data_errors_unwrapping_witness :
  Index.scanValidity [sampleContext; sampleInfo] = Some 7%nat
  ∧ SchemaWrapper.findRequest [sampleRequest] = Some 7%nat
  ∧ (let o := run (invoke sampleRegistry (sampleV2 false false) [sampleContext; sampleInfo])
                  (map InValidator [[]; []] ++ map InValidator [[violation "a"]; []; []]
                   ++ [InResolve (DataValidation
                                    {| data := JNum 42; errors := [violation "bad"] |})])
                  sampleWorld in
     residual o = Ret (Plain (JNum 42))
     ∧ ___validationResults (validityAt (world_of o) 7%nat)
       = Some [violation "a"; violation "bad"])
  ∧ (let o := run (invoke sampleRegistry (sampleV1 false) [sampleRequest])
                  (map InValidator [[]; []] ++ map InValidator [[violation "a"]; []; []]
                   ++ [InResolve (DataValidation
                                    {| data := JNum 42; errors := [violation "bad"] |})])
                  sampleWorld in
     residual o
     = Ret (DataValidation {| data := JNum 42; errors := [violation "bad"] |})
     ∧ ___validationResults (validityAt (world_of o) 7%nat) = Some [violation "a"]).
Proof.
  assert (H1 : Index.scanValidity [sampleContext; sampleInfo] = Some 7%nat) by reflexivity.
  assert (H2 : SchemaWrapper.findRequest [sampleRequest] = Some 7%nat) by reflexivity.
  split_and!; [exact H1|exact H2| |].
  - destruct (C4_data_errors_unwrapping sampleRegistry "field" "TypeX"
                (sampleConfig false false) 1%nat [sampleContext; sampleInfo])
      as (_ & _ & Hfound & _).
    destruct (Hfound 7%nat [[]; []] [[violation "a"]; []; []]
                (DataValidation {| data := JNum 42; errors := [violation "bad"] |})
                [] sampleWorld H1) as [Hres Hloc];
      [vm_compute; reflexivity|vm_compute; reflexivity|].
    split; [exact Hres|].
    unfold sampleV2. rewrite Hloc. vm_compute. reflexivity.
  - destruct (C4_data_errors_unwrapping sampleRegistry "field" "TypeX"
                (sampleConfig false false) 1%nat [sampleRequest])
      as (_ & _ & _ & _ & Hv1 & _).
    destruct (Hv1 (Some "Parent") 7%nat [[]; []] [[violation "a"]; []; []]
                (DataValidation {| data := JNum 42; errors := [violation "bad"] |})
                [] sampleWorld H2) as [Hres Hloc];
      [vm_compute; reflexivity|vm_compute; reflexivity|].
    split; [exact Hres|].
    unfold sampleV1. rewrite Hloc. vm_compute. reflexivity.
Defined.

(** C4 as stated fails for the wrapper of schema-wrapper.ts (lines 222-223
    are among the places the claim names): the original resolver fulfils
    with a [DataValidationResult] carrying [42] and one error, a state was
    found and every validator fulfilled with nothing; the wrapped resolver
    returns the [DataValidationResult] itself, not [42], and the local
    list stays empty. *)
Lemma C4_counterexample :
  SchemaWrapper.findRequest [sampleRequest] = Some 7%nat
  ∧ (let out := DataValidation {| data := JNum 42; errors := [violation "bad"] |} in
     let o := run (invoke sampleRegistry (sampleV1 false) [sampleRequest])
                  (map InValidator [[]; []] ++ map InValidator [[]; []; []]
                   ++ [InResolve out])
                  sampleWorld in
     residual o = Ret out
     ∧ residual o ≠ Ret (Plain (data {| data := JNum 42; errors := [violation "bad"] |}))
     ∧ ___validationResults (validityAt sampleWorld 7%nat) = Some []
     ∧ ___validationResults (validityAt (world_of o) 7%nat) = Some []
     ∧ ___validationResults (validityAt (world_of o) 7%nat)
       ≠ Some ([] ++ errors {| data := JNum 42; errors := [violation "bad"] |})).
Proof.
  split; [reflexivity|]. cbv zeta.
  split_and!; try (vm_compute; reflexivity); vm_compute; intros H; discriminate H.
Qed.

(** ** C6: a call without a state in its arguments *)

(** C6, as the code has it.  When no argument carries a state, a wrapped
    resolver calls no validator and records nothing; it calls the original
    resolver once with the arguments it received.  The wrapper of
    schema-wrapper.ts returns the resolver's result as it is, the wrapper
    of the index module returns it after unwrapping.  A rejection of the
    resolver goes through the [catch] block like any other: it is rethrown
    unchanged when [wrapErrors] is off, and replaced by the result of
    [unhandledErrorWrapper] when [wrapErrors] is on. *)
Theorem C6_no_context_amended (reg : Registry) (fname ftype : string)
    (cfg : ValidityConfig) (r : resolverId) (args : list Arg) :
  (forall parent, SchemaWrapper.findRequest args = None ->
     let p := invoke reg (WrappedV1 (Original r) fname ftype cfg parent) args in
     (forall out ins w,
        run p (InResolve out :: ins) w = finished w [CallResolve r args] ins (Ret out))
     ∧ (forall e ins w,
          run p (InReject e :: ins) w =
          prepend [CallResolve r args]
            (run (SchemaWrapper.onCatch (A:=ResolveOutput) cfg e) ins w)))
  ∧ (Index.scanValidity args = None ->
     let p := invoke reg (WrappedV2 (Original r) fname ftype cfg) args in
     (forall out ins w,
        let o := run p (InResolve out :: ins) w in
        residual o = Ret (effective out) ∧ calls_of o = [CallResolve r args]
        ∧ unread o = ins
        ∧ heap (world_of o) = heap w ∧ console (world_of o) = console w)
     ∧ (forall e ins w,
          run p (InReject e :: ins) w =
          prepend [CallResolve r args]
            (run (SchemaWrapper.onCatch (A:=ResolveOutput) cfg e) ins (tick (tick w)))))
  ∧ (forall e ins w,
       (wrapErrors cfg = false ->
        run (SchemaWrapper.onCatch (A:=ResolveOutput) cfg e) ins w
        = finished w [] ins (Throw e))
       ∧ (forall f, wrapErrors cfg = true -> unhandledErrorWrapper cfg = Some f ->
          run (SchemaWrapper.onCatch (A:=ResolveOutput) cfg e) ins w
          = finished w [] ins (Throw (f e)))
       ∧ (wrapErrors cfg = true -> unhandledErrorWrapper cfg = None ->
          run (SchemaWrapper.onCatch (A:=ResolveOutput) cfg e) ins w
          = finished
              (logError [CStr ("Unhandled error occured with id:" +:+ uuids w (drawn w)
                               +:+ ", stack:" +:+ stack e)] (draw w))
              [] ins
              (Throw (newError ("An internal error occured, with following id:"
                                +:+ uuids w (drawn w)
                                +:+ ", please contact Administrator!"))))).
Proof.
  split_and!.
  - intros parent Hctx p. split.
    + intros out ins w. by apply run_v1_no_context.
    + intros e ins w. by apply run_v1_no_context_reject.
  - intros Hctx p. split.
    + intros out ins w o. subst o p.
      rewrite (run_v2_no_context reg fname ftype cfg r args out ins w) by done.
      simpl.
      destruct (run_afterResolve_no_context (Index.scanAst args) cfg fname
                  (clock w (ticks w)) (clock w (S (ticks w))) out ins (tick (tick w)))
        as [-> ->].
      done.
    + intros e ins w. by apply run_v2_no_context_reject.
  - intros e ins w. split_and!.
    + apply run_onCatch_plain.
    + intros f. apply run_onCatch_custom.
    + apply run_onCatch_default.
Qed.

Lemma C6_no_context_amended_witness :
  SchemaWrapper.findRequest [samplePlainArg] = None
  ∧ Index.scanValidity [samplePlainArg] = None
  ∧ run (invoke sampleRegistry (sampleV1 false) [samplePlainArg])
        [InResolve (Plain (JNum 42))] sampleWorld
    = finished sampleWorld [CallResolve 1%nat [samplePlainArg]] [] (Ret (Plain (JNum 42)))
  ∧ residual (run (invoke sampleRegistry (sampleV2 false true) [samplePlainArg])
                  [InResolve (Plain (JNum 42))] sampleWorld)
    = Ret (Plain (JNum 42)).
Proof.
  assert (H1 : SchemaWrapper.findRequest [samplePlainArg] = None) by reflexivity.
  assert (H2 : Index.scanValidity [samplePlainArg] = None) by reflexivity.
  destruct (C6_no_context_amended sampleRegistry "field" "TypeX"
              (sampleConfig false false) 1%nat [samplePlainArg]) as (Hv1 & _ & _).
  destruct (C6_no_context_amended sampleRegistry "field" "TypeX"
              (sampleConfig false true) 1%nat [samplePlainArg]) as (_ & Hv2 & _).
  destruct (Hv1 (Some "Parent") H1) as [Hok _].
  destruct (Hv2 H2) as [Hok2 _].
  split_and!; [exact H1|exact H2|apply Hok|].
  exact (proj1 (Hok2 (Plain (JNum 42)) [] sampleWorld)).
Defined.

(** C6 as stated fails: with [wrapErrors] on and no state in the arguments,
    the rejection of the original resolver does not reach the caller
    unchanged; and the wrapper of the index module hands on the [data] of
    a [DataValidationResult], not the result itself, whether or not a
    state was found. *)
Lemma C6_counterexample :
  SchemaWrapper.findRequest [samplePlainArg] = None
  ∧ Index.scanValidity [samplePlainArg] = None
  ∧ wrapErrors (sampleConfig true false) = true
  ∧ residual (run (invoke sampleRegistry (sampleV1 true) [samplePlainArg])
                  [InReject boom] sampleWorld)
    = Throw (newError
               "An internal error occured, with following id:u, please contact Administrator!")
  ∧ residual (run (invoke sampleRegistry (sampleV1 true) [samplePlainArg])
                  [InReject boom] sampleWorld)
    ≠ Throw boom
  ∧ residual (run (invoke sampleRegistry (sampleV2 true false) [samplePlainArg])
                  [InReject boom] sampleWorld)
    ≠ Throw boom
  ∧ residual (run (invoke sampleRegistry (sampleV2 false false) [samplePlainArg])
                  [InResolve
                     (DataValidation {| data := JNum 42; errors := [violation "bad"] |})] sampleWorld)
    = Ret (Plain (JNum 42))
  ∧ residual (run (invoke sampleRegistry (sampleV2 false false) [samplePlainArg])
                  [InResolve
                     (DataValidation {| data := JNum 42; errors := [violation "bad"] |})] sampleWorld)
    ≠ Ret (DataValidation {| data := JNum 42; errors := [violation "bad"] |}).
Proof.
  split_and!; [reflexivity|reflexivity|reflexivity|vm_compute; reflexivity| | |
               vm_compute; reflexivity|];
    vm_compute; intros H; discriminate H.
Qed.

(** ** C8: the profiling record *)

(** C8.  In a resolution by the wrapper of the index module with profiling
    enabled, a state found, an argument carrying the field's location, a
    profiling list in the state and every promise fulfilled, exactly one
    entry is appended to the profiling list.  With [t0], [t2], [t3] the
    readings of [Date.now] at entry, after local validation and after
    unwrapping, which are the three readings the resolution takes, the
    entry has [validation = t2 - t0], [execution = t3 - t0] and
    [totalExecution = execution - validation].  The readings are taken
    where the names say: on whatever script, the wrapped resolver has read
    the clock once whenever it waits for a validator, global or local,
    twice whenever it waits for the original resolver, and three times
    when it returns; so [t0] is read before the first validator is called,
    [t2] after the last validator has settled and before the original
    resolver is called, and [t3] after the original resolver has
    settled. *)
Theorem C8_profiling_arithmetic (reg : Registry) (fname ftype : string)
    (cfg : ValidityConfig) (r : resolverId) (args : list Arg) (l : loc) (a : Arg)
    (ps : list ProfilingEntry) (grs lrs : list (list JsObject))
    (out : ResolveOutput) (ins : list input) (w : World) :
  enableProfiling cfg = true ->
  Index.scanValidity args = Some l ->
  Index.scanAst args = Some a ->
  ___profilingData (validityAt w l) = Some ps ->
  length grs = length (globalDue reg w l) ->
  length lrs = length (fst (SchemaWrapper.getValidators reg ftype fname
                              (Index.scanAst args ≫= arg_parentType))) ->
  let t0 := clock w (ticks w) in
  let t2 := clock w (S (ticks w)) in
  let t3 := clock w (S (S (ticks w))) in
  let o := run (invoke reg (WrappedV2 (Original r) fname ftype cfg) args)
               (map InValidator grs ++ map InValidator lrs ++ InResolve out :: ins) w in
  (∃ entry,
     ___profilingData (validityAt (world_of o) l) = Some (ps ++ [entry])
     ∧ path entry = arg_path a
     ∧ name (profile entry) = fname
     ∧ validation (profile entry) = t2 - t0
     ∧ execution (profile entry) = t3 - t0
     ∧ totalExecution (profile entry)
       = execution (profile entry) - validation (profile entry)
     ∧ ticks (world_of o) = S (S (S (ticks w))))
  ∧ (forall script w',
       let o' := run (invoke reg (WrappedV2 (Original r) fname ftype cfg) args)
                     script w' in
       match residual o' with
       | AwaitValidator _ _ _ _ _ => ticks (world_of o') = S (ticks w')
       | AwaitResolve _ _ _ => ticks (world_of o') = S (S (ticks w'))
       | Ret _ => ticks (world_of o') = S (S (S (ticks w')))
       | _ => True
       end).
Proof.
  intros Hen Hctx Hast Hps Hg Hl t0 t2 t3 o. subst o. split; last first.
  { intros script w' o'. subst o'.
    destruct (paced_run 1 2 3 0 _ script w' (paced_v2 reg r fname ftype cfg args))
      as (m & Hm & Ht).
    revert Hm Ht.
    generalize (residual (run (invoke reg (WrappedV2 (Original r) fname ftype cfg) args)
                            script w')).
    generalize (ticks (world_of (run (invoke reg (WrappedV2 (Original r) fname ftype cfg)
                                        args) script w'))).
    intros tk res Hm Ht. destruct Hm; try done; lia. }
  rewrite (run_v2_ok reg fname ftype cfg r args l grs lrs out ins w) by done.
  simpl world_of. rewrite Hast.
  set (w3 := tick (afterValidate l grs lrs (tick w))).
  assert (Hps3 : ___profilingData (validityAt w3 l) = Some ps).
  { subst w3. by rewrite tick_validityAt, afterValidate_at, tick_validityAt. }
  destruct (afterValidate_other l grs lrs (tick w)) as (_ & Hclock & Hticks & _).
  destruct (run_afterResolve_profile l a cfg fname t0 t2 out ins w3 ps Hen Hps3)
    as [Hprof _].
  destruct (run_afterResolve_result (Some l) (Some a) cfg fname t0 t2 out ins w3)
    as (_ & _ & _ & Htk & _).
  assert (Ht3 : clock w3 (ticks w3) = t3).
  { subst w3 t3. simpl. by rewrite Hclock, Hticks. }
  rewrite Ht3 in Hprof.
  eexists. split; [exact Hprof|]. split_and!; try done.
  etrans; [exact Htk|]. subst w3. simpl. by rewrite Hticks.
Qed.

Lemma C8_profiling_arithmetic_witness :
  enableProfiling (sampleConfig false true) = true
  ∧ Index.scanValidity [sampleContext; sampleInfo] = Some 7%nat
  ∧ Index.scanAst [sampleContext; sampleInfo] = Some sampleInfo
  ∧ ___profilingData (validityAt sampleWorld 7%nat) = Some []
  ∧ (∃ entry,
      ___profilingData
        (validityAt
           (world_of
              (run (invoke sampleRegistry (sampleV2 false true) [sampleContext; sampleInfo])
                   (map InValidator [[]; []] ++ map InValidator [[]; []; []]
                    ++ [InResolve (Plain (JNum 42))])
                   sampleWorld)) 7%nat)
      = Some ([] ++ [entry])
      ∧ validation (profile entry) = 5
      ∧ execution (profile entry) = 15
      ∧ totalExecution (profile entry) = 10)
  ∧ ticks (world_of
             (run (invoke sampleRegistry (sampleV2 false true) [sampleContext; sampleInfo])
                  [] sampleWorld)) = 1%nat
  ∧ ticks (world_of
             (run (invoke sampleRegistry (sampleV2 false true) [sampleContext; sampleInfo])
                  (map InValidator [[]; []] ++ map InValidator [[]; []])
                  sampleWorld)) = 1%nat
  ∧ ticks (world_of
             (run (invoke sampleRegistry (sampleV2 false true) [sampleContext; sampleInfo])
                  (map InValidator [[]; []] ++ map InValidator [[]; []; []])
                  sampleWorld)) = 2%nat.
Proof.
  assert (H1 : enableProfiling (sampleConfig false true) = true) by reflexivity.
  assert (H2 : Index.scanValidity [sampleContext; sampleInfo] = Some 7%nat) by reflexivity.
  assert (H3 : Index.scanAst [sampleContext; sampleInfo] = Some sampleInfo) by reflexivity.
  assert (H4 : ___profilingData (validityAt sampleWorld 7%nat) = Some [])
    by (vm_compute; reflexivity).
  split_and!; [exact H1|exact H2|exact H3|exact H4|..].
  - destruct (C8_profiling_arithmetic sampleRegistry "field" "TypeX"
                (sampleConfig false true) 1%nat [sampleContext; sampleInfo] 7%nat sampleInfo
                [] [[]; []] [[]; []; []] (Plain (JNum 42)) [] sampleWorld H1 H2 H3 H4)
      as [(entry & Hp & _ & _ & Hv & He & Ht & _) _];
      [vm_compute; reflexivity|vm_compute; reflexivity|].
    exists entry. split; [exact Hp|].
    rewrite Ht, Hv, He. vm_compute. split_and!; reflexivity.
  - destruct (C8_profiling_arithmetic sampleRegistry "field" "TypeX"
                (sampleConfig false true) 1%nat [sampleContext; sampleInfo] 7%nat sampleInfo
                [] [[]; []] [[]; []; []] (Plain (JNum 42)) [] sampleWorld H1 H2 H3 H4)
      as [_ Hpace]; [vm_compute; reflexivity|vm_compute; reflexivity|].
    pose proof (Hpace [] sampleWorld) as Hat. cbv zeta in Hat.
    assert (Hshape : ∃ s l v a k,
               residual (run (invoke sampleRegistry (WrappedV2 (Original 1%nat) "field" "TypeX"
                                                       (sampleConfig false true))
                                [sampleContext; sampleInfo]) [] sampleWorld)
               = AwaitValidator s l v a k)
      by (vm_compute; eexists _, _, _, _, _; reflexivity).
    destruct Hshape as (s & l & v & a & k & Hs). rewrite Hs in Hat. exact Hat.
  - destruct (C8_profiling_arithmetic sampleRegistry "field" "TypeX"
                (sampleConfig false true) 1%nat [sampleContext; sampleInfo] 7%nat sampleInfo
                [] [[]; []] [[]; []; []] (Plain (JNum 42)) [] sampleWorld H1 H2 H3 H4)
      as [_ Hpace]; [vm_compute; reflexivity|vm_compute; reflexivity|].
    pose proof (Hpace (map InValidator [[]; []] ++ map InValidator [[]; []]) sampleWorld)
      as Hat. cbv zeta in Hat.
    assert (Hshape : ∃ s l v a k,
               residual (run (invoke sampleRegistry (WrappedV2 (Original 1%nat) "field" "TypeX"
                                                       (sampleConfig false true))
                                [sampleContext; sampleInfo])
                           (map InValidator [[]; []] ++ map InValidator [[]; []])
                           sampleWorld)
               = AwaitValidator s l v a k)
      by (vm_compute; eexists _, _, _, _, _; reflexivity).
    destruct Hshape as (s & l & v & a & k & Hs). rewrite Hs in Hat. exact Hat.
  - destruct (C8_profiling_arithmetic sampleRegistry "field" "TypeX"
                (sampleConfig false true) 1%nat [sampleContext; sampleInfo] 7%nat sampleInfo
                [] [[]; []] [[]; []; []] (Plain (JNum 42)) [] sampleWorld H1 H2 H3 H4)
      as [_ Hpace]; [vm_compute; reflexivity|vm_compute; reflexivity|].
    pose proof (Hpace (map InValidator [[]; []] ++ map InValidator [[]; []; []]) sampleWorld)
      as Hat. cbv zeta in Hat.
    assert (Hshape : ∃ r a k,
               residual (run (invoke sampleRegistry (WrappedV2 (Original 1%nat) "field" "TypeX"
                                                       (sampleConfig false true))
                                [sampleContext; sampleInfo])
                           (map InValidator [[]; []] ++ map InValidator [[]; []; []])
                           sampleWorld)
               = AwaitResolve r a k)
      by (vm_compute; eexists _, _, _; reflexivity).
    destruct Hshape as (r & a & k & Hs). rewrite Hs in Hat. exact Hat.
Defined.

(** ** C9: a failing profiling recorder *)

(** C9.  In a resolution by the wrapper of the index module with profiling
    enabled and a state found, a failure of the recorder (no argument
    carries the field's location, or the state has no profiling list) is
    caught: the wrapped resolver returns the value it returns with
    profiling disabled, it does not reject, the profiling list is left as
    it was, and one line ["Profiling failed!"] with the error is logged. *)
Theorem C9_profiling_failure_contained (reg : Registry) (fname ftype : string)
    (cfg : ValidityConfig) (r : resolverId) (args : list Arg) (l : loc)
    (grs lrs : list (list JsObject)) (out : ResolveOutput) (ins : list input)
    (w : World) :
  enableProfiling cfg = true ->
  Index.scanValidity args = Some l ->
  Index.scanAst args = None ∨ ___profilingData (validityAt w l) = None ->
  length grs = length (globalDue reg w l) ->
  length lrs = length (fst (SchemaWrapper.getValidators reg ftype fname
                              (Index.scanAst args ≫= arg_parentType))) ->
  let script := map InValidator grs ++ map InValidator lrs ++ InResolve out :: ins in
  let o := run (invoke reg (WrappedV2 (Original r) fname ftype cfg) args) script w in
  let o_off :=
    run (invoke reg (WrappedV2 (Original r) fname ftype (withProfiling false cfg)) args)
        script w in
  residual o = Ret (effective out)
  ∧ residual o = residual o_off
  ∧ unread o = ins
  ∧ calls_of o = calls_of o_off
  ∧ ___profilingData (validityAt (world_of o) l) = ___profilingData (validityAt w l)
  ∧ ___validationResults (validityAt (world_of o) l)
    = ___validationResults (validityAt (world_of o_off) l)
  ∧ ___globalValidationResults (validityAt (world_of o) l)
    = ___globalValidationResults (validityAt (world_of o_off) l)
  ∧ ∃ err, console (world_of o) = console w ++ [[CStr "Profiling failed!"; CErr err]].
Proof.
  intros Hen Hctx Hfail Hg Hl script o o_off. subst o o_off script.
  rewrite (run_v2_ok reg fname ftype cfg r args l grs lrs out ins w) by done.
  rewrite (run_v2_ok reg fname ftype (withProfiling false cfg) r args l grs lrs out ins w)
    by done.
  simpl.
  set (w3 := tick (afterValidate l grs lrs (tick w))).
  set (t0 := clock w (ticks w)). set (t2 := clock w (S (ticks w))).
  assert (Hps3 : ___profilingData (validityAt w3 l) = ___profilingData (validityAt w l)).
  { subst w3. by rewrite tick_validityAt, afterValidate_at, tick_validityAt. }
  assert (Hfail3 : Index.scanAst args = None ∨ ___profilingData (validityAt w3 l) = None).
  { destruct Hfail; [by left|right; congruence]. }
  destruct (run_afterResolve_profile_fails l (Index.scanAst args) cfg fname t0 t2 out ins w3
              Hen Hfail3) as (Hprof & err & Hcon).
  destruct (run_afterResolve_lists l (Index.scanAst args) cfg fname t0 t2 out ins w3)
    as (Hloc & Hglob & _).
  destruct (run_afterResolve_lists l (Index.scanAst args) (withProfiling false cfg)
              fname t0 t2 out ins w3) as (Hloc' & Hglob' & _).
  destruct (afterValidate_other l grs lrs (tick w)) as (Hcon0 & _).
  split_and!; try done.
  - by rewrite Hprof.
  - by rewrite Hloc, Hloc'.
  - by rewrite Hglob, Hglob'.
  - exists err. rewrite Hcon. subst w3. simpl. by rewrite Hcon0.
Qed.

Lemma C9_profiling_failure_contained_witness :
  enableProfiling (sampleConfig false true) = true
  ∧ Index.scanValidity [sampleContext] = Some 7%nat
  ∧ Index.scanAst [sampleContext] = None
  ∧ residual
      (run (invoke sampleRegistry (sampleV2 false true) [sampleContext])
           (map InValidator [[]; []] ++ map InValidator [[]; []]
            ++ [InResolve (Plain (JNum 42))])
           sampleWorld)
    = Ret (Plain (JNum 42)).
Proof.
  assert (H1 : enableProfiling (sampleConfig false true) = true) by reflexivity.
  assert (H2 : Index.scanValidity [sampleContext] = Some 7%nat) by reflexivity.
  assert (H3 : Index.scanAst [sampleContext] = None) by reflexivity.
  split_and!; [exact H1|exact H2|exact H3|].
  refine (proj1 (C9_profiling_failure_contained sampleRegistry "field" "TypeX"
                   (sampleConfig false true) 1%nat [sampleContext] 7%nat
                   [[]; []] [[]; []] (Plain (JNum 42)) [] sampleWorld H1 H2 (or_introl H3)
                   _ _));
    vm_compute; reflexivity.
Defined.

(** ** C7: exceptions and their wrapping *)

(** C7.  Let a wrapped resolver (of either wrapper, around an original
    resolver) be suspended at any of its awaits: a global validator, a
    local validator or the original resolver.  When that promise rejects
    with [e], nothing further is called and the wrapped resolver rejects:
    with [e] itself when [wrapErrors] is off; with the result of
    [unhandledErrorWrapper] on [e] when [wrapErrors] is on.  The default
    wrapper draws a fresh id, logs one line carrying the id and the stack
    of [e], and returns an error whose message embeds the id.  Two
    invocations that fail one after the other take their ids from
    different positions of the generator, so their messages differ
    whenever the generator does not repeat itself. *)
Theorem C7_exceptions_and_wrapping (reg : Registry) :
  (forall cfg p pre e post w,
     wrappedWith reg cfg p ->
     Forall (fun i => ¬ is_reject i) pre ->
     awaiting (residual (run p pre w)) ->
     unread (run p pre w) = [] ->
     let o0 := run p pre w in
     let o := run p (pre ++ InReject e :: post) w in
     calls_of o = calls_of o0 ∧ unread o = post
     ∧ (wrapErrors cfg = false ->
        residual o = Throw e ∧ world_of o = world_of o0)
     ∧ (forall f, wrapErrors cfg = true -> unhandledErrorWrapper cfg = Some f ->
        residual o = Throw (f e) ∧ world_of o = world_of o0)
     ∧ (wrapErrors cfg = true -> unhandledErrorWrapper cfg = None ->
        let id := uuids (world_of o0) (drawn (world_of o0)) in
        residual o = Throw (newError (genericMessage id))
        ∧ world_of o = logError (unhandledLine id e) (draw (world_of o0))))
  ∧ (forall cfg1 cfg2 p1 p2 pre1 pre2 e1 e2 w,
       wrappedWith reg cfg1 p1 -> wrappedWith reg cfg2 p2 ->
       wrapErrors cfg1 = true -> unhandledErrorWrapper cfg1 = None ->
       wrapErrors cfg2 = true -> unhandledErrorWrapper cfg2 = None ->
       (forall i j, uuids w i = uuids w j -> i = j) ->
       Forall (fun i => ¬ is_reject i) pre1 ->
       awaiting (residual (run p1 pre1 w)) -> unread (run p1 pre1 w) = [] ->
       let o1 := run p1 (pre1 ++ [InReject e1]) w in
       Forall (fun i => ¬ is_reject i) pre2 ->
       awaiting (residual (run p2 pre2 (world_of o1))) ->
       unread (run p2 pre2 (world_of o1)) = [] ->
       let o2 := run p2 (pre2 ++ [InReject e2]) (world_of o1) in
       ∃ id1 id2,
         residual o1 = Throw (newError (genericMessage id1))
         ∧ residual o2 = Throw (newError (genericMessage id2))
         ∧ id1 ≠ id2
         ∧ message (newError (genericMessage id1))
           ≠ message (newError (genericMessage id2))).
Proof.
  assert (Hguard : forall cfg p, wrappedWith reg cfg p ->
            guarded (SchemaWrapper.onCatch cfg) p).
  { intros cfg p (r & fname & ftype & args & [[parent ->]| ->]);
      [apply guarded_v1|apply guarded_v2]. }
  assert (Hone : forall cfg p pre e post w,
     wrappedWith reg cfg p ->
     Forall (fun i => ¬ is_reject i) pre ->
     awaiting (residual (run p pre w)) ->
     unread (run p pre w) = [] ->
     run p (pre ++ InReject e :: post) w =
     prepend (calls_of (run p pre w))
       (run (SchemaWrapper.onCatch cfg e) post (world_of (run p pre w)))).
  { intros cfg p pre e post w Hp Hpre Haw Hun.
    by apply run_reject_at_await; [apply Hguard|..]. }
  split.
  - intros cfg p pre e post w Hp Hpre Haw Hun o0 o. subst o o0.
    rewrite (Hone cfg p pre e post w) by done.
    split_and!.
    + destruct (run_onCatch_throw (A:=ResolveOutput) cfg e post (world_of (run p pre w)))
        as (x & w' & -> & _). simpl. by rewrite app_nil_r.
    + by destruct (run_onCatch_throw (A:=ResolveOutput) cfg e post
                     (world_of (run p pre w))) as (x & w' & -> & _).
    + intros Hw. by rewrite run_onCatch_plain.
    + intros f Hw Hf. by rewrite (run_onCatch_custom cfg f).
    + intros Hw Hf id. by rewrite run_onCatch_default.
  - intros cfg1 cfg2 p1 p2 pre1 pre2 e1 e2 w Hp1 Hp2 Hw1 Hf1 Hw2 Hf2 Hinj
      Hpre1 Haw1 Hun1 o1 Hpre2 Haw2 Hun2 o2.
    assert (Ho1 : o1 = prepend (calls_of (run p1 pre1 w))
                         (run (SchemaWrapper.onCatch cfg1 e1) [] (world_of (run p1 pre1 w))))
      by (by apply Hone).
    assert (Ho2 : o2 = prepend (calls_of (run p2 pre2 (world_of o1)))
                         (run (SchemaWrapper.onCatch cfg2 e2) []
                            (world_of (run p2 pre2 (world_of o1)))))
      by (by apply Hone).
    rewrite run_onCatch_default in Ho1, Ho2 by done.
    set (w1 := world_of (run p1 pre1 w)) in *.
    set (w2 := world_of (run p2 pre2 (world_of o1))) in *.
    exists (uuids w1 (drawn w1)), (uuids w2 (drawn w2)).
    assert (Hids : uuids w1 (drawn w1) ≠ uuids w2 (drawn w2)).
    { destruct (run_uuids p1 pre1 w) as [Hu1 Hd1]. fold w1 in Hu1, Hd1.
      destruct (run_uuids p2 pre2 (world_of o1)) as [Hu2 Hd2]. fold w2 in Hu2, Hd2.
      assert (Hu : uuids (world_of o1) = uuids w) by (rewrite Ho1; simpl; exact Hu1).
      assert (Hd : drawn (world_of o1) = S (drawn w1)) by (by rewrite Ho1).
      rewrite Hu in Hu2. rewrite Hd in Hd2. rewrite Hu1, Hu2.
      intros Heq. apply Hinj in Heq. lia. }
    split_and!.
    + by rewrite Ho1.
    + by rewrite Ho2.
    + done.
    + simpl. unfold genericMessage. intros Heq. by apply embedded_id_inj in Heq.
Qed.

Lemma C7_exceptions_and_wrapping_witness :
  let p := invoke sampleRegistry (sampleV1 true) [sampleRequest] in
  let pre := map InValidator [[]; []] ++ map InValidator [[]; []; []] in
  wrappedWith sampleRegistry (sampleConfig true false) p
  ∧ Forall (fun i => ¬ is_reject i) pre
  ∧ awaiting (residual (run p pre sampleWorld))
  ∧ unread (run p pre sampleWorld) = []
  ∧ residual (run p (pre ++ [InReject boom]) sampleWorld)
    = Throw (newError (genericMessage "u"))
  ∧ ∃ id1 id2,
      residual (run p (pre ++ [InReject boom]) sampleWorld)
      = Throw (newError (genericMessage id1))
      ∧ residual (run p ([InValidator []; InValidator []; InValidator []]
                         ++ [InReject boom])
                    (world_of (run p (pre ++ [InReject boom]) sampleWorld)))
        = Throw (newError (genericMessage id2))
      ∧ id1 ≠ id2.
Proof.
  intros p pre.
  assert (Hp : wrappedWith sampleRegistry (sampleConfig true false) p).
  { exists 1%nat, "field", "TypeX", [sampleRequest]. left. by exists (Some "Parent"). }
  assert (Hpre : Forall (fun i => ¬ is_reject i) pre).
  { subst pre. simpl. repeat constructor; intros []. }
  assert (Haw : awaiting (residual (run p pre sampleWorld))) by (vm_compute; exact I).
  assert (Hun : unread (run p pre sampleWorld) = []) by (vm_compute; reflexivity).
  destruct (C7_exceptions_and_wrapping sampleRegistry) as [Hone Htwo].
  split_and!; [exact Hp|exact Hpre|exact Haw|exact Hun| |].
  - destruct (Hone (sampleConfig true false) p pre boom [] sampleWorld Hp Hpre Haw Hun)
      as (_ & _ & _ & _ & Hdef).
    destruct (Hdef eq_refl eq_refl) as [Hres _]. rewrite Hres.
    vm_compute. reflexivity.
  - destruct (Htwo (sampleConfig true false) (sampleConfig true false) p p pre
                [InValidator []; InValidator []; InValidator []] boom boom sampleWorld
                Hp Hp eq_refl eq_refl eq_refl eq_refl sampleUuid_inj Hpre Haw Hun)
      as (id1 & id2 & H1 & H2 & Hne & _).
    + repeat constructor; intros [].
    + vm_compute; exact I.
    + vm_compute; reflexivity.
    + by exists id1, id2.
Defined.

(** ** C3: wrapping is idempotent *)

(** C3.  For both [wrapField] functions: a call on a field whose marker is
    set, or which has no resolver, returns the field unchanged; a call on
    any other field sets the marker and installs the wrapper around the
    resolver the field had, in that one step; hence wrapping a field twice
    equals wrapping it once, and so does wrapping an entity twice.  After
    any series of [wrapResolvers] calls on schemas, types and fields that
    share field objects, a field declared with an original resolver has
    that resolver under exactly one wrapper, with its marker set, when at
    least one call of the series visits the field (as the entity itself or
    through a type or schema that lists it), and is as declared when none
    does.  Whatever happens during an invocation of such a field's
    resolver, the original resolver is never called twice, it receives the
    arguments of the invocation, and it has been called exactly once
    whenever the invocation returns a value. *)
Theorem C3_wrapping_idempotent (reg : Registry) :
  ((forall field config parent,
      settled field -> SchemaWrapper.wrapField field config parent = field)
   ∧ (forall field config parent r,
        processed field = false -> resolve field = Some r ->
        processed (SchemaWrapper.wrapField field config parent) = true
        ∧ resolve (SchemaWrapper.wrapField field config parent)
          = Some (WrappedV1 r (fname field) (ftype field) config
                    (js_or parent (parentTypeName config))))
   ∧ (forall field config parent config' parent',
        SchemaWrapper.wrapField (SchemaWrapper.wrapField field config parent)
          config' parent'
        = SchemaWrapper.wrapField field config parent)
   ∧ (forall fields entity config config',
        SchemaWrapper.wrapResolvers (SchemaWrapper.wrapResolvers fields entity config)
          entity config'
        = SchemaWrapper.wrapResolvers fields entity config)
   ∧ (forall fields callsV1 i field r,
        fields !! i = Some field ->
        processed field = false -> resolve field = Some (Original r) ->
        ∃ field' wr,
          wrapAllV1 fields callsV1 !! i = Some field'
          ∧ resolve field' = Some wr ∧ (layers wr <= 1)%nat ∧ flat wr
          ∧ (Exists (fun ec => i ∈ (planV1 ec.1).*1) callsV1 ->
             layers wr = 1%nat ∧ processed field' = true
             ∧ ∃ config parent,
                 wr = WrappedV1 (Original r) (fname field) (ftype field) config parent)
          ∧ (Forall (fun ec => i ∉ (planV1 ec.1).*1) callsV1 -> field' = field)
          ∧ forall args ins w,
              let o := run (invoke reg wr args) ins w in
              (resolverCalls (calls_of o) = [] ∧ forall a, residual o ≠ Ret a)
              ∨ resolverCalls (calls_of o) = [(r, args)]))
  ∧ ((forall field config, settled field -> Index.wrapField field config = field)
     ∧ (forall field config r,
          processed field = false -> resolve field = Some r ->
          processed (Index.wrapField field config) = true
          ∧ resolve (Index.wrapField field config)
            = Some (WrappedV2 r (fname field) (ftype field) config))
     ∧ (forall field config config',
          Index.wrapField (Index.wrapField field config) config'
          = Index.wrapField field config)
     ∧ (forall fields entity config config',
          Index.wrapResolvers (Index.wrapResolvers fields entity config) entity config'
          = Index.wrapResolvers fields entity config)
     ∧ (forall fields callsV2 i field r,
          fields !! i = Some field ->
          processed field = false -> resolve field = Some (Original r) ->
          ∃ field' wr,
            wrapAllV2 fields callsV2 !! i = Some field'
            ∧ resolve field' = Some wr ∧ (layers wr <= 1)%nat ∧ flat wr
            ∧ (Exists (fun ec => i ∈ planV2 ec.1) callsV2 ->
               layers wr = 1%nat ∧ processed field' = true
               ∧ ∃ config,
                   wr = WrappedV2 (Original r) (fname field) (ftype field) config)
            ∧ (Forall (fun ec => i ∉ planV2 ec.1) callsV2 -> field' = field)
            ∧ forall args ins w,
                let o := run (invoke reg wr args) ins w in
                (resolverCalls (calls_of o) = [] ∧ forall a, residual o ≠ Ret a)
                ∨ resolverCalls (calls_of o) = [(r, args)])).
Proof.
  split; split_and!.
  - apply wrapField_v1_noop.
  - intros field config parent r Hp Hr.
    by rewrite (wrapField_v1_marks field config parent r).
  - apply wrapField_v1_idem.
  - apply wrapResolvers_v1_twice.
  - intros fields callsV1 i field r Hi Hp Hr.
    destruct (decide (Exists (fun ec => i ∈ (planV1 ec.1).*1) callsV1)) as [Hex|Hno].
    + destruct (wrapAllV1_visited fields callsV1 i field Hi Hex) as (c & p & Hw).
      rewrite (wrapField_v1_marks field c p (Original r)) in Hw by done.
      eexists _, _. split_and!; [exact Hw|done|simpl; lia|done| | |].
      * intros _. split_and!; [done|done|by eexists _, _].
      * intros Hall. by destruct (Forall_not_Exists _ _ Hall).
      * intros args ins w. apply resolvesOnce_run, resolvesOnce_v1.
    + apply not_Exists_Forall in Hno; [|intros ?; apply _].
      exists field, (Original r).
      split_and!; try done.
      * by rewrite wrapAllV1_unvisited, Hi.
      * simpl; lia.
      * intros Hex. by destruct (Forall_not_Exists _ _ Hno).
      * intros args ins w. apply resolvesOnce_run, resolvesOnce_original.
  - apply wrapField_v2_noop.
  - intros field config r Hp Hr. by rewrite (wrapField_v2_marks field config r).
  - apply wrapField_v2_idem.
  - apply wrapResolvers_v2_twice.
  - intros fields callsV2 i field r Hi Hp Hr.
    destruct (decide (Exists (fun ec => i ∈ planV2 ec.1) callsV2)) as [Hex|Hno].
    + destruct (wrapAllV2_visited fields callsV2 i field Hi Hex) as (c & Hw).
      rewrite (wrapField_v2_marks field c (Original r)) in Hw by done.
      eexists _, _. split_and!; [exact Hw|done|simpl; lia|done| | |].
      * intros _. split_and!; [done|done|by eexists].
      * intros Hall. by destruct (Forall_not_Exists _ _ Hall).
      * intros args ins w. apply resolvesOnce_run, resolvesOnce_v2.
    + apply not_Exists_Forall in Hno; [|intros ?; apply _].
      exists field, (Original r).
      split_and!; try done.
      * by rewrite wrapAllV2_unvisited, Hi.
      * simpl; lia.
      * intros Hex. by destruct (Forall_not_Exists _ _ Hno).
      * intros args ins w. apply resolvesOnce_run, resolvesOnce_original.
Qed.

Lemma C3_wrapping_idempotent_witness :
  sampleFields !! 0%nat = Some sampleField
  ∧ processed sampleField = false
  ∧ resolve sampleField = Some (Original 1%nat)
  ∧ Exists (fun ec => 0%nat ∈ (planV1 ec.1).*1) sampleWraps
  ∧ Exists (fun ec => 0%nat ∈ planV2 ec.1) sampleWraps
  ∧ Forall (fun ec : Entity * option ValidityConfig => 0%nat ∉ (planV1 ec.1).*1)
      [(EntOther 1%nat, None)]
  ∧ settled (SchemaWrapper.wrapField sampleField SchemaWrapper.defaultConfig (Some "Parent"))
  ∧ (∃ field' wr,
       wrapAllV1 sampleFields sampleWraps !! 0%nat = Some field'
       ∧ resolve field' = Some wr ∧ layers wr = 1%nat ∧ processed field' = true)
  ∧ (∃ field' wr,
       wrapAllV2 sampleFields sampleWraps !! 0%nat = Some field'
       ∧ resolve field' = Some wr ∧ layers wr = 1%nat ∧ processed field' = true)
  ∧ wrapAllV1 sampleFields [(EntOther 1%nat, None)] !! 0%nat = Some sampleField
  ∧ SchemaWrapper.wrapField
      (SchemaWrapper.wrapField sampleField SchemaWrapper.defaultConfig (Some "Parent"))
      (sampleConfig true false) (Some "Shared")
    = SchemaWrapper.wrapField sampleField SchemaWrapper.defaultConfig (Some "Parent").
Proof.
  assert (H1 : sampleFields !! 0%nat = Some sampleField) by (vm_compute; reflexivity).
  assert (H2 : processed sampleField = false) by reflexivity.
  assert (H3 : resolve sampleField = Some (Original 1%nat)) by reflexivity.
  assert (H4 : settled (SchemaWrapper.wrapField sampleField SchemaWrapper.defaultConfig
                          (Some "Parent"))) by (left; reflexivity).
  assert (H5 : Exists (fun ec => 0%nat ∈ (planV1 ec.1).*1) sampleWraps)
    by (apply Exists_cons_hd; apply list_elem_of_here).
  assert (H6 : Exists (fun ec => 0%nat ∈ planV2 ec.1) sampleWraps)
    by (apply Exists_cons_hd; apply list_elem_of_here).
  assert (H7 : Forall (fun ec : Entity * option ValidityConfig =>
                         0%nat ∉ (planV1 ec.1).*1) [(EntOther 1%nat, None)]).
  { apply Forall_cons; split; [|apply Forall_nil_2].
    simpl. rewrite list_elem_of_singleton. lia. }
  destruct (C3_wrapping_idempotent sampleRegistry)
    as [(Hnoop & _ & _ & _ & Hv1) (_ & _ & _ & _ & Hv2)].
  split_and!; [exact H1|exact H2|exact H3|exact H5|exact H6|exact H7|exact H4| | | |].
  - destruct (Hv1 sampleFields sampleWraps 0%nat sampleField 1%nat H1 H2 H3)
      as (field' & wr & Hl & Hr & _ & _ & Hvis & _).
    destruct (Hvis H5) as (Hlay & Hmark & _).
    by exists field', wr.
  - destruct (Hv2 sampleFields sampleWraps 0%nat sampleField 1%nat H1 H2 H3)
      as (field' & wr & Hl & Hr & _ & _ & Hvis & _).
    destruct (Hvis H6) as (Hlay & Hmark & _).
    by exists field', wr.
  - destruct (Hv1 sampleFields [(EntOther 1%nat, None)] 0%nat sampleField 1%nat H1 H2 H3)
      as (field' & wr & Hl & _ & _ & _ & _ & Hun & _).
    etrans; [exact Hl|]. by rewrite (Hun H7).
  - apply (Hnoop _ (sampleConfig true false) (Some "Shared") H4).
Defined.

Example sample_schema_wrapped_once :
  resolve <$> (wrapAllV1 sampleFields sampleWraps !! 0%nat)
  = Some (Some (WrappedV1 (Original 1%nat) "field" "TypeX"
                  SchemaWrapper.defaultConfig (Some "Parent"))).
Proof. vm_compute. reflexivity. Qed.

(** ** C1: the global validators run once per request *)

(** C1.  Take any interleaving of any number of resolver activations, for
    any number of requests, started while the global list of the state [l]
    is absent, each resolver having at most one wrapper.  The global
    validators called for [l] are at every moment an initial part of the
    list registered under ["$"], in registration order, and all of them
    are called by one activation.  When at least one activation found [l]
    and every activation that found [l] has returned a value (those of
    other requests may be pending), each registered global validator has
    been called for [l] exactly as often as it is registered: the list was
    run once.  The reason is the order of the
    first segment: an activation that finds [l] with the global list
    absent has set it to the empty list when it suspends at the first
    global validator, and an activation that finds the list present calls
    no global validator and leaves the list as it is. *)
Theorem C1_global_validators_run_once (reg : Registry) (l : loc) (w0 : World)
    (evs : list event) :
  ___globalValidationResults (validityAt w0 l) = None ->
  flatSchedule evs ->
  let P := poolRun reg (emptyPool w0) evs in
  let gvs := SchemaWrapper.lookupValidators reg "$" in
  map snd (globalCalls l (trace P)) `prefix_of` gvs
  ∧ (forall t1 v1 t2 v2,
       (t1, v1) ∈ globalCalls l (trace P) -> (t2, v2) ∈ globalCalls l (trace P) ->
       t1 = t2)
  ∧ ((∃ ra, ra ∈ invocations evs ∧ contextOf ra.1 ra.2 = Some l) ->
     requestReturned l evs P ->
     map snd (globalCalls l (trace P)) = gvs)
  ∧ (forall r args,
       flat r -> contextOf r args = Some l ->
       let P' := poolStep reg P (Invoke r args) in
       match globalResultsAt P l with
       | None =>
           globalResultsAt P' l = Some []
           ∧ map snd (globalCalls l (trace P')) = take 1 gvs
       | Some gs =>
           globalResultsAt P' l = Some gs
           ∧ globalCalls l (trace P') = globalCalls l (trace P)
       end).
Proof.
  intros Hw0 Hflat P gvs.
  destruct (PoolInv_run reg l [] (emptyPool w0) evs Hflat (PoolInv_init reg l w0 Hw0))
    as (HI & _ & _ & _).
  simpl in HI. fold P in HI.
  destruct (PoolInv_calls reg l evs P HI) as (otid & done & todo & Hgvs & Hcalls & _ & _ & Hret).
  assert (Hsnd : map snd (globalCalls l (trace P)) = done).
  { rewrite Hcalls, map_map. simpl. apply map_id. }
  split_and!.
  - rewrite Hsnd. subst gvs. rewrite Hgvs. by apply prefix_app_r.
  - intros t1 v1 t2 v2. rewrite Hcalls.
    intros H1 H2. apply list_elem_of_fmap in H1 as (? & ? & _), H2 as (? & ? & _).
    by simplify_eq.
  - intros Hentered Hall. rewrite Hsnd. subst gvs. rewrite Hgvs.
    rewrite (Hret Hall (PoolInv_entered reg l evs P HI Hentered)). by rewrite app_nil_r.
  - intros r args Hr Hctx P'. destruct (globalResultsAt P l) as [gs|] eqn:Hg.
    + by apply invoke_present.
    + split.
      * by destruct (PoolInv_invoke_enter reg l evs P r args HI Hr Hg Hctx).
      * by apply (invoke_enter_calls reg l evs).
Qed.

(** Three fields of one request resolve interleaved; the second and the
    third start while the first is still inside the global loop.  A fourth
    activation, without a state, is still waiting for its resolver. *)
Lemma C1_global_validators_run_once_witness :
  let evs :=
    [ Invoke (sampleV1 false) [sampleRequest];
      Invoke (sampleV1 false) [sampleRequest];
      Settle 1 (InValidator []);
      Settle 0 (InValidator [violation "no token"]);
      Invoke (sampleV1 false) [sampleRequest];
      Invoke (sampleV1 false) [samplePlainArg];
      Settle 1 (InValidator []); Settle 1 (InValidator []);
      Settle 0 (InValidator []);
      Settle 2 (InValidator []); Settle 2 (InValidator []); Settle 2 (InValidator []);
      Settle 1 (InResolve (Plain (JNum 1)));
      Settle 0 (InValidator []); Settle 0 (InValidator []); Settle 0 (InValidator []);
      Settle 2 (InResolve (Plain (JNum 2)));
      Settle 0 (InResolve (Plain (JNum 0))) ] in
  let P := poolRun sampleRegistry (emptyPool sampleWorld) evs in
  ___globalValidationResults (validityAt sampleWorld 7%nat) = None
  ∧ flatSchedule evs
  ∧ (∃ ra, ra ∈ invocations evs ∧ contextOf ra.1 ra.2 = Some 7%nat)
  ∧ requestReturned 7%nat evs P
  ∧ ¬ Forall returned (tasks P)
  ∧ map snd (globalCalls 7%nat (trace P)) = ["auth"; "quota"]
  ∧ globalResultsAt P 7%nat = Some [violation "no token"].
Proof.
  intros evs P.
  assert (H1 : ___globalValidationResults (validityAt sampleWorld 7%nat) = None)
    by (vm_compute; reflexivity).
  assert (H2 : flatSchedule evs) by (repeat constructor).
  assert (H3 : ∃ ra, ra ∈ invocations evs ∧ contextOf ra.1 ra.2 = Some 7%nat).
  { exists (sampleV1 false, [sampleRequest]). split; [|reflexivity]. by left. }
  assert (H4 : requestReturned 7%nat evs P).
  { intros tid ra p Hra Hctx Hp.
    destruct tid as [|[|[|[|tid]]]]; vm_compute in Hra, Hp; simplify_eq;
      first [ exact I | vm_compute in Hctx; discriminate ]. }
  split_and!; [exact H1|exact H2|exact H3|exact H4| | |].
  - intros Hall.
    assert (Hp : ∃ r args k, tasks P !! 3%nat = Some (AwaitResolve r args k)).
    { do 3 eexists. vm_compute. reflexivity. }
    destruct Hp as (r & args & k & Hp).
    exact (Forall_lookup_1 _ _ _ _ Hall Hp).
  - destruct (C1_global_validators_run_once sampleRegistry 7%nat sampleWorld evs H1 H2)
      as (_ & _ & Hall & _).
    etrans; [exact (Hall H3 H4)|]. vm_compute. reflexivity.
  - vm_compute. reflexivity.
Defined.

(** ** C10: the global list outlives a failing global validator *)

(** C10.  Under the conditions of C1, once the global list of [l] exists
    with content [gs] it exists for the rest of the schedule and only
    grows at its end; no activation started afterwards calls a global
    validator for [l], and the global validators are never run a second
    time; the merged response of any later moment carries the messages of
    [gs], in order.  This includes the case of a global validator that
    rejects: the activation that waits for it runs the [catch] block of
    its own wrapper on the rejection and finishes rejected (with the
    rejection itself when [wrapErrors] is off), and the list keeps its
    content. *)
Theorem C10_global_results_persist (reg : Registry) (l : loc) (w0 : World)
    (evs1 evs2 : list event) (gs : list JsObject) :
  ___globalValidationResults (validityAt w0 l) = None ->
  flatSchedule (evs1 ++ evs2) ->
  let P1 := poolRun reg (emptyPool w0) evs1 in
  let P2 := poolRun reg (emptyPool w0) (evs1 ++ evs2) in
  globalResultsAt P1 l = Some gs ->
  (∃ gs', globalResultsAt P2 l = Some (gs ++ gs'))
  ∧ (forall tid v, (tid, v) ∈ globalCalls l (trace P2) -> (tid < length (tasks P1))%nat)
  ∧ map snd (globalCalls l (trace P2)) `prefix_of` SchemaWrapper.lookupValidators reg "$"
  ∧ (forall response,
       ∃ response' before after,
         SchemaWrapper.getResponseValidationResults (validityAt (pworld P2) l) response
         = Fulfilled response'
         ∧ SchemaWrapper.rerrors response'
           = Some (before ++ map SchemaWrapper.projectMessage gs ++ after))
  ∧ (forall tid v args k e ra cfg,
       tasks P1 !! tid = Some (AwaitValidator Global l v args k) ->
       invocations evs1 !! tid = Some ra -> configOf ra.1 = Some cfg ->
       let P' := poolStep reg P1 (Settle tid (InReject e)) in
       let o := run (SchemaWrapper.onCatch (A:=ResolveOutput) cfg e) [] (pworld P1) in
       tasks P' !! tid = Some (residual o)
       ∧ (∃ x, residual o = Throw x)
       ∧ (wrapErrors cfg = false -> residual o = Throw e)
       ∧ pworld P' = world_of o
       ∧ trace P' = trace P1
       ∧ globalResultsAt P' l = Some gs).
Proof.
  intros Hw0 Hflat P1 P2 Hgs.
  apply flatSchedule_app in Hflat as [Hflat1 Hflat2].
  destruct (PoolInv_run reg l [] (emptyPool w0) evs1 Hflat1 (PoolInv_init reg l w0 Hw0))
    as (HI1 & _ & _ & _).
  simpl in HI1. fold P1 in HI1.
  destruct (PoolInv_run reg l evs1 P1 evs2 Hflat2 HI1) as (HI2 & Hmono & Htr & Hlen).
  assert (HP2 : poolRun reg P1 evs2 = P2) by (subst P1 P2; by rewrite poolRun_app).
  rewrite HP2 in HI2, Hmono, Htr, Hlen.
  destruct (Hmono gs Hgs) as [gs' Hgs2].
  destruct (PoolInv_calls reg l evs1 P1 HI1)
    as (otid1 & done1 & todo1 & Hgvs1 & Hcalls1 & Hlt1 & Hne1 & _).
  destruct (PoolInv_calls reg l (evs1 ++ evs2) P2 HI2)
    as (otid2 & done2 & todo2 & Hgvs2 & Hcalls2 & _ & _ & _).
  split_and!.
  - by exists gs'.
  - intros tid v Hin. rewrite Hcalls2 in Hin.
    apply list_elem_of_fmap in Hin as (v' & Heq & Hv'). simplify_eq.
    assert (Hdone1 : done1 ≠ []).
    { apply Hne1; [by eexists|]. rewrite Hgvs2.
      destruct done2; [inversion Hv'|done]. }
    pose proof (globalCalls_prefix l _ _ Htr) as Hpre.
    rewrite Hcalls1, Hcalls2 in Hpre.
    destruct done1 as [|d1 done1]; [done|].
    destruct done2 as [|d2 done2]; [inversion Hv'|].
    simpl in Hpre. apply prefix_cons_inv_1 in Hpre. simplify_eq.
    apply Hlt1. by eexists.
  - rewrite Hcalls2, map_map. simpl. rewrite map_id, Hgvs2. by apply prefix_app_r.
  - intros response.
    destruct (PoolInv_local reg l _ P2 HI2) as [locals Hloc]; [by eexists|].
    unfold SchemaWrapper.getResponseValidationResults. rewrite Hloc.
    unfold globalResultsAt in Hgs2. rewrite Hgs2. simpl.
    eexists _, (default [] (SchemaWrapper.rerrors response)
                ++ map SchemaWrapper.projectMessage locals),
      (map SchemaWrapper.projectMessage gs').
    split; [done|]. simpl. by rewrite map_app, <- !app_assoc.
  - intros tid v args k e ra cfg Ht Hra Hcfg P' o.
    pose proof (PoolInv_owner_rejects reg l evs1 P1 tid v args k ra cfg e HI1 Ht Hra Hcfg)
      as Hk.
    subst P'. unfold poolStep. rewrite Ht. simpl. rewrite Hk. fold o.
    destruct (run_onCatch_throw (A:=ResolveOutput) cfg e [] (pworld P1))
      as (x & w' & Hrun & Hheap).
    fold o in Hrun.
    split_and!.
    + apply list_lookup_insert_eq. by eapply lookup_lt_Some.
    + exists x. by rewrite Hrun.
    + intros Hw. subst o. by rewrite run_onCatch_plain.
    + done.
    + rewrite Hrun. simpl. by rewrite app_nil_r.
    + unfold globalResultsAt, validityAt in *. simpl. rewrite Hrun. simpl.
      by rewrite Hheap.
Qed.

(** The first global validator of the sample registry rejects after a
    second field of the same request has started; a third field starts
    afterwards. *)
Lemma C10_global_results_persist_witness :
  let evs1 :=
    [ Invoke (sampleV2 false false) [sampleContext; sampleInfo];
      Settle 0 (InValidator [violation "no token"]) ] in
  let evs2 :=
    [ Invoke (sampleV2 false false) [sampleContext; sampleInfo];
      Settle 0 (InReject boom);
      Invoke (sampleV2 false false) [sampleContext; sampleInfo];
      Settle 1 (InValidator []); Settle 2 (InValidator []) ] in
  let P2 := poolRun sampleRegistry (emptyPool sampleWorld) (evs1 ++ evs2) in
  ___globalValidationResults (validityAt sampleWorld 7%nat) = None
  ∧ flatSchedule (evs1 ++ evs2)
  ∧ globalResultsAt (poolRun sampleRegistry (emptyPool sampleWorld) evs1) 7%nat
    = Some [violation "no token"]
  ∧ (∃ gs', globalResultsAt P2 7%nat = Some ([violation "no token"] ++ gs'))
  ∧ map snd (globalCalls 7%nat (trace P2)) = ["auth"; "quota"]
  ∧ tasks P2 !! 0%nat = Some (Throw boom).
Proof.
  intros evs1 evs2 P2.
  assert (H1 : ___globalValidationResults (validityAt sampleWorld 7%nat) = None)
    by (vm_compute; reflexivity).
  assert (H2 : flatSchedule (evs1 ++ evs2)) by (repeat constructor).
  assert (H3 : globalResultsAt (poolRun sampleRegistry (emptyPool sampleWorld) evs1) 7%nat
               = Some [violation "no token"]) by (vm_compute; reflexivity).
  split_and!; [exact H1|exact H2|exact H3| | |].
  - exact (proj1 (C10_global_results_persist sampleRegistry 7%nat sampleWorld evs1 evs2
                    [violation "no token"] H1 H2 H3)).
  - vm_compute. reflexivity.
  - vm_compute. reflexivity.
Defined.
(** * Further properties of the code *)

(** ** Finding the state among the arguments *)

Lemma findRequest_spec args l :
  findRequest args = Some l <->
  ∃ i a, args !! i = Some a ∧ arg_validity a = Some l
         ∧ forall j b, (j < i)%nat -> args !! j = Some b -> arg_validity b = None.
Proof.
  induction args as [|x args IH]; simpl.
  - split; [done|]. by intros (i & a & Hi & _).
  - destruct (arg_validity x) as [lx|] eqn:Hx.
    + split.
      * intros [= ->]. exists 0%nat, x. split_and!; [done|done|]. intros j b Hj. lia.
      * intros (i & a & Hi & Ha & Hbefore). destruct i as [|i]; simpl in Hi.
        -- by simplify_eq.
        -- specialize (Hbefore 0%nat x ltac:(lia) eq_refl). congruence.
    + rewrite IH. split.
      * intros (i & a & Hi & Ha & Hbefore). exists (S i), a. split_and!; [done|done|].
        intros [|j] b Hj Hb; simpl in Hb; [by simplify_eq|].
        apply (Hbefore j b); [lia|done].
      * intros (i & a & Hi & Ha & Hbefore). destruct i as [|i]; simpl in Hi.
        -- simplify_eq; congruence.
        -- exists i, a. split_and!; [done|done|].
           intros j b Hj Hb. apply (Hbefore (S j) b); [lia|done].
Qed.

(** A scan without [break]: the last argument that qualifies. *)
Lemma scan_last_spec {X} (pick : Arg -> option X) args x :
  foldl (fun found arg => match pick arg with Some y => Some y | None => found end)
        None args = Some x <->
  ∃ i a, args !! i = Some a ∧ pick a = Some x
         ∧ forall j b, (i < j)%nat -> args !! j = Some b -> pick b = None.
Proof.
  induction args as [|a0 args IH] using rev_ind; simpl.
  - split; [done|]. by intros (i & a & Hi & _).
  - rewrite foldl_app. simpl.
    destruct (pick a0) as [y|] eqn:Hy.
    + split.
      * intros [= ->]. exists (length args), a0. split_and!; [|done|].
        -- rewrite lookup_app_r by lia. by rewrite Nat.sub_diag.
        -- intros j b Hj Hb. apply lookup_lt_Some in Hb.
           rewrite length_app in Hb. simpl in Hb. lia.
      * intros (i & a & Hi & Ha & Hafter).
        destruct (decide (i = length args)) as [->|Hne].
        -- rewrite lookup_app_r in Hi by lia. rewrite Nat.sub_diag in Hi.
           simplify_eq/=; congruence.
        -- assert (Hlt : (i < length args)%nat).
           { apply lookup_lt_Some in Hi. rewrite length_app in Hi. simpl in Hi. lia. }
           assert (Hlast : (args ++ [a0]) !! length args = Some a0).
           { rewrite lookup_app_r by lia. by rewrite Nat.sub_diag. }
           specialize (Hafter _ _ Hlt Hlast). congruence.
    + rewrite IH. split.
      * intros (i & a & Hi & Ha & Hafter). exists i, a. split_and!; [|done|].
        -- by apply lookup_app_l_Some.
        -- intros j b Hj Hb. apply lookup_app_Some in Hb as [Hb|[Hge Hb]].
           ++ by apply (Hafter j b).
           ++ destruct (j - length args)%nat; simplify_eq/=; done.
      * intros (i & a & Hi & Ha & Hafter).
        apply lookup_app_Some in Hi as [Hi|[Hge Hi]].
        -- exists i, a. split_and!; [done|done|].
           intros j b Hj Hb. apply (Hafter j b Hj). by apply lookup_app_l_Some.
        -- destruct (i - length args)%nat; simplify_eq/=; congruence.
Qed.

(** X1.  Which argument supplies the state.  The wrapper of
    schema-wrapper.ts stops at the first argument with a
    [__graphQLValidity]; the wrapper of the index module scans every
    argument and keeps the last one whose [rootValue] carries a state, and
    likewise the last one with a [parentType] as the field information. *)
Theorem finders_first_and_last_match (args : list Arg) :
  (forall l,
     SchemaWrapper.findRequest args = Some l <->
     ∃ i a, args !! i = Some a ∧ arg_validity a = Some l
            ∧ forall j b, (j < i)%nat -> args !! j = Some b -> arg_validity b = None)
  ∧ (forall l,
       Index.scanValidity args = Some l <->
       ∃ i a, args !! i = Some a ∧ arg_rootValidity a = Some l
              ∧ forall j b, (i < j)%nat -> args !! j = Some b -> arg_rootValidity b = None)
  ∧ (forall info,
       Index.scanAst args = Some info <->
       ∃ i, args !! i = Some info ∧ is_Some (arg_parentType info)
            ∧ forall j b, (i < j)%nat -> args !! j = Some b -> arg_parentType b = None)
  ∧ (SchemaWrapper.findRequest args = None <-> Forall (fun a => arg_validity a = None) args)
  ∧ (Index.scanValidity args = None <-> Forall (fun a => arg_rootValidity a = None) args).
Proof.
  split_and!.
  - intros l. apply findRequest_spec.
  - intros l. apply (scan_last_spec arg_rootValidity).
  - intros info. unfold Index.scanAst.
    assert (Heq : forall found arg,
      match arg_parentType arg with Some _ => Some arg | None => found end
      = match (match arg_parentType arg with Some _ => Some arg | None => None end) with
        | Some y => Some y | None => found end).
    { intros found arg. by destruct (arg_parentType arg). }
    assert (Hfold : forall acc,
      foldl (fun found arg => match arg_parentType arg with
                              | Some _ => Some arg | None => found end) acc args
      = foldl (fun found arg =>
                 match (match arg_parentType arg with Some _ => Some arg | None => None end) with
                 | Some y => Some y | None => found end) acc args).
    { induction args as [|a args IH]; intros acc; simpl; [done|].
      rewrite Heq. apply IH. }
    rewrite Hfold.
    rewrite (scan_last_spec
               (fun a => match arg_parentType a with Some _ => Some a | None => None end)).
    split.
    + intros (i & a & Hi & Ha & Hafter).
      destruct (arg_parentType a) eqn:Hp; simplify_eq.
      exists i. split_and!; [done|by eexists|].
      intros j b Hj Hb. specialize (Hafter j b Hj Hb).
      by destruct (arg_parentType b).
    + intros (i & Hi & [t Ht] & Hafter). exists i, info. rewrite Ht.
      split_and!; [done|done|].
      intros j b Hj Hb. by rewrite (Hafter j b Hj Hb).
  - induction args as [|a args IH]; simpl; [by split|].
    destruct (arg_validity a) eqn:Ha.
    + split; [done|]. intros H. apply Forall_cons in H as [H _]. congruence.
    + rewrite IH. split; [by constructor|]. by intros H; apply Forall_cons in H as [_ H].
  - destruct (Index.scanValidity args) as [l|] eqn:Hs.
    + split; [done|]. intros Hall.
      apply (scan_last_spec arg_rootValidity) in Hs as (i & a & Hi & Ha & _).
      rewrite Forall_forall in Hall.
      specialize (Hall a (list_elem_of_lookup_2 _ _ _ Hi)). congruence.
    + split; [|done]. intros _. apply Forall_forall. intros a Hin.
      destruct (arg_rootValidity a) as [l|] eqn:Ha; [|done].
      (* the last qualifying argument exists, so the scan finds a state *)
      exfalso.
      assert (Hex : ∃ l', Index.scanValidity args = Some l'); [|by destruct Hex; congruence].
      clear Hs. revert Hin. induction args as [|a0 args IH] using rev_ind; [by inversion 1|].
      intros Hin. unfold Index.scanValidity. rewrite foldl_app. simpl.
      destruct (arg_rootValidity a0) as [l0|] eqn:H0; [by eexists|].
      apply elem_of_app in Hin as [Hin|Hin]; [by apply IH|].
      apply list_elem_of_singleton in Hin. subst. congruence.
Qed.

(** Two arguments carry different states: schema-wrapper.ts takes the
    first, the index module the last. *)
Lemma finders_first_and_last_match_witness :
  SchemaWrapper.findRequest [sampleRequest; otherRequest] = Some 7%nat
  ∧ Index.scanValidity [sampleContext; otherContext] = Some 8%nat.
Proof.
  destruct (finders_first_and_last_match [sampleRequest; otherRequest]) as (Hfirst & _).
  destruct (finders_first_and_last_match [sampleContext; otherContext]) as (_ & Hlast & _).
  split.
  - apply Hfirst. exists 0%nat, sampleRequest. split_and!; [reflexivity|reflexivity|].
    intros j b Hj. lia.
  - apply Hlast. exists 1%nat, otherContext. split_and!; [reflexivity|reflexivity|].
    intros [|[|j]] b Hj Hb; [lia|lia|discriminate Hb].
Defined.


(** ** The outcome of a series of wrap calls *)

Lemma firstOp_opsV1 i c e :
  firstOp i (opsV1 c e)
  = (fun p f => SchemaWrapper.wrapField f (SchemaWrapper.normalize c) p)
      <$> firstVisitV1 i e.
Proof.
  unfold opsV1, firstOp, firstVisitV1.
  induction (planV1 e) as [|[j p] l IH]; simpl; [done|].
  by case_bool_decide.
Qed.

Lemma firstOp_opsV2 i c e :
  firstOp i (opsV2 c e)
  = if bool_decide (i ∈ planV2 e)
    then Some (fun f => Index.wrapField f (Index.normalize c)) else None.
Proof.
  unfold opsV2, firstOp.
  induction (planV2 e) as [|j l IH]; simpl; [done|].
  destruct (decide (j = i)) as [->|Hne].
  - rewrite (bool_decide_eq_true_2 (i = i)) by done. simpl.
    by rewrite (bool_decide_eq_true_2 (i ∈ i :: l)) by apply list_elem_of_here.
  - rewrite (bool_decide_eq_false_2 (j = i)) by done. rewrite IH.
    destruct (decide (i ∈ l)) as [Hin|Hin].
    + rewrite (bool_decide_eq_true_2 (i ∈ l)) by done.
      by rewrite (bool_decide_eq_true_2 (i ∈ j :: l)) by (by apply list_elem_of_further).
    + rewrite (bool_decide_eq_false_2 (i ∈ l)) by done.
      rewrite (bool_decide_eq_false_2 (i ∈ j :: l)); [done|].
      intros Hin'. apply elem_of_cons in Hin' as [?|?]; by simplify_eq.
Qed.

Lemma firstOp_series_skip {X} (ops : X -> list (fieldId * (Field -> Field))) i pre rest :
  Forall (fun x => firstOp i (ops x) = None) pre ->
  firstOp i (concat (map ops (pre ++ rest))) = firstOp i (concat (map ops rest)).
Proof.
  induction 1 as [|x pre Hx _ IH]; simpl; [done|].
  by rewrite firstOp_app, Hx.
Qed.

(** X2.  The first wrap call that reaches a field decides its wrapper.  In
    a series of [wrapResolvers] calls, the field ends up as [wrapField]
    leaves it in the first call that visits it, with that call's
    configuration and, in schema-wrapper.ts, the parent type name of that
    visit; the calls after it, whatever their configuration, change
    nothing.  A field that no call visits stays as it was. *)
Theorem first_wrap_call_decides (fields : gmap fieldId Field) (i : fieldId) :
  (forall pre e cfg post p,
     Forall (fun ec => firstVisitV1 i ec.1 = None) pre ->
     firstVisitV1 i e = Some p ->
     wrapAllV1 fields (pre ++ (e, cfg) :: post) !! i
     = (fun f => SchemaWrapper.wrapField f (SchemaWrapper.normalize cfg) p)
         <$> fields !! i)
  ∧ (forall callsV1,
       Forall (fun ec => firstVisitV1 i ec.1 = None) callsV1 ->
       wrapAllV1 fields callsV1 !! i = fields !! i)
  ∧ (forall pre e cfg post,
       Forall (fun ec => i ∉ planV2 ec.1) pre ->
       i ∈ planV2 e ->
       wrapAllV2 fields (pre ++ (e, cfg) :: post) !! i
       = (fun f => Index.wrapField f (Index.normalize cfg)) <$> fields !! i)
  ∧ (forall callsV2,
       Forall (fun ec => i ∉ planV2 ec.1) callsV2 ->
       wrapAllV2 fields callsV2 !! i = fields !! i).
Proof.
  assert (Hall1 : forall calls,
    Forall (fun op => isWrapV1 op.2) (concat (map (fun ec => opsV1 ec.2 ec.1) calls))).
  { intros calls. apply Forall_concat, Forall_map, Forall_true.
    intros [e c]. apply opsV1_wrap. }
  assert (Hall2 : forall calls,
    Forall (fun op => isWrapV2 op.2) (concat (map (fun ec => opsV2 ec.2 ec.1) calls))).
  { intros calls. apply Forall_concat, Forall_map, Forall_true.
    intros [e c]. apply opsV2_wrap. }
  split_and!.
  - intros pre e cfg post p Hpre He.
    rewrite wrapAllV1_ops, (applyOps_lookup isWrapV1 isWrapV1_absorb) by apply Hall1.
    rewrite (firstOp_series_skip (fun ec => opsV1 ec.2 ec.1)).
    + simpl. by rewrite firstOp_app, firstOp_opsV1, He.
    + eapply Forall_impl; [exact Hpre|].
      intros [e' c'] H; simpl in *. by rewrite firstOp_opsV1, H.
  - intros calls Hcalls.
    rewrite wrapAllV1_ops, (applyOps_lookup isWrapV1 isWrapV1_absorb) by apply Hall1.
    pose proof (firstOp_series_skip (fun ec => opsV1 ec.2 ec.1) i calls []) as Hskip.
    rewrite app_nil_r in Hskip. rewrite Hskip; [done|].
    eapply Forall_impl; [exact Hcalls|].
    intros [e' c'] H; simpl in *. by rewrite firstOp_opsV1, H.
  - intros pre e cfg post Hpre He.
    rewrite wrapAllV2_ops, (applyOps_lookup isWrapV2 isWrapV2_absorb) by apply Hall2.
    rewrite (firstOp_series_skip (fun ec => opsV2 ec.2 ec.1)).
    + simpl. rewrite firstOp_app, firstOp_opsV2.
      by rewrite bool_decide_eq_true_2.
    + eapply Forall_impl; [exact Hpre|].
      intros [e' c'] H; simpl in *. rewrite firstOp_opsV2.
      by rewrite bool_decide_eq_false_2.
  - intros calls Hcalls.
    rewrite wrapAllV2_ops, (applyOps_lookup isWrapV2 isWrapV2_absorb) by apply Hall2.
    pose proof (firstOp_series_skip (fun ec => opsV2 ec.2 ec.1) i calls []) as Hskip.
    rewrite app_nil_r in Hskip. rewrite Hskip; [done|].
    eapply Forall_impl; [exact Hcalls|].
    intros [e' c'] H; simpl in *. rewrite firstOp_opsV2.
    by rewrite bool_decide_eq_false_2.
Qed.

(** The schema reaches field 0 first, through the type [Parent] and with
    the default configuration; the later call with [wrapErrors] on and the
    direct call have no effect on it. *)
Lemma first_wrap_call_decides_witness :
  Forall (fun ec : Entity * option ValidityConfig => firstVisitV1 0%nat ec.1 = None) []
  ∧ firstVisitV1 0%nat (EntSchema sampleSchema) = Some (Some "Parent")
  ∧ wrapAllV1 sampleFields sampleWraps !! 0%nat
    = Some (SchemaWrapper.wrapField sampleField SchemaWrapper.defaultConfig (Some "Parent"))
  ∧ wrapAllV1 sampleFields sampleWraps !! 0%nat
    = wrapAllV1 sampleFields [(EntSchema sampleSchema, None)] !! 0%nat.
Proof.
  assert (H1 : Forall (fun ec : Entity * option ValidityConfig =>
                         firstVisitV1 0%nat ec.1 = None) []) by constructor.
  assert (H2 : firstVisitV1 0%nat (EntSchema sampleSchema) = Some (Some "Parent"))
    by reflexivity.
  destruct (first_wrap_call_decides sampleFields 0%nat) as (Hfirst & _).
  split_and!; [exact H1|exact H2| |].
  - exact (Hfirst [] (EntSchema sampleSchema) None
             [(EntObjectType sampleParent, Some (sampleConfig true false));
              (EntOther 0%nat, None)] (Some "Parent") H1 H2).
  - etrans; [exact (Hfirst [] (EntSchema sampleSchema) None
                      [(EntObjectType sampleParent, Some (sampleConfig true false));
                       (EntOther 0%nat, None)] (Some "Parent") H1 H2)|].
    symmetry. exact (Hfirst [] (EntSchema sampleSchema) None [] (Some "Parent") H1 H2).
Defined.

(** ** What wrapping leaves alone *)

Lemma wrapField_v1_frame f c p :
  fname (SchemaWrapper.wrapField f c p) = fname f
  ∧ ftype (SchemaWrapper.wrapField f c p) = ftype f
  ∧ innermost <$> resolve (SchemaWrapper.wrapField f c p) = innermost <$> resolve f
  ∧ (processed f = true -> processed (SchemaWrapper.wrapField f c p) = true).
Proof.
  unfold SchemaWrapper.wrapField.
  destruct (resolve f) as [r|] eqn:Hr; [|by rewrite Hr].
  destruct (processed f) eqn:Hp; simpl; by rewrite ?Hr.
Qed.

Lemma wrapField_v2_frame f c :
  fname (Index.wrapField f c) = fname f
  ∧ ftype (Index.wrapField f c) = ftype f
  ∧ innermost <$> resolve (Index.wrapField f c) = innermost <$> resolve f
  ∧ (processed f = true -> processed (Index.wrapField f c) = true).
Proof.
  unfold Index.wrapField.
  destruct (resolve f) as [r|] eqn:Hr; [|by rewrite Hr].
  destruct (processed f) eqn:Hp; simpl; by rewrite ?Hr.
Qed.

Lemma applyOps_dom h ops : dom (applyOps h ops) = dom h.
Proof.
  unfold applyOps. revert h. induction ops as [|[j g] ops IH]; intros h; simpl; [done|].
  rewrite IH. apply dom_alter_L.
Qed.

(** X3.  What a series of [wrapResolvers] calls never does.  It adds no
    field and removes none; it leaves the name and the type of every field
    as they were; a field that carries the marker or has no resolver comes
    out identical; a marker once set stays set; and under whatever wrapper
    a field ends up with, the resolver function the schema declared is
    still the one at the core. *)
Theorem wrapping_frame (fields : gmap fieldId Field)
    (callsV1 callsV2 : list (Entity * option ValidityConfig)) :
  (dom (wrapAllV1 fields callsV1) = dom fields
   ∧ forall i field,
       fields !! i = Some field ->
       ∃ field',
         wrapAllV1 fields callsV1 !! i = Some field'
         ∧ fname field' = fname field ∧ ftype field' = ftype field
         ∧ innermost <$> resolve field' = innermost <$> resolve field
         ∧ (processed field = true -> processed field' = true)
         ∧ (settled field -> field' = field))
  ∧ (dom (wrapAllV2 fields callsV2) = dom fields
     ∧ forall i field,
         fields !! i = Some field ->
         ∃ field',
           wrapAllV2 fields callsV2 !! i = Some field'
           ∧ fname field' = fname field ∧ ftype field' = ftype field
           ∧ innermost <$> resolve field' = innermost <$> resolve field
           ∧ (processed field = true -> processed field' = true)
           ∧ (settled field -> field' = field)).
Proof.
  split; (split; [|intros i field Hi]).
  - rewrite wrapAllV1_ops. apply applyOps_dom.
  - destruct (wrapAllV1_field fields callsV1 i field Hi) as [H|(c & p & H)];
      rewrite H; eexists; (split; [done|]).
    + done.
    + destruct (wrapField_v1_frame field c p) as (? & ? & ? & ?).
      split_and!; try done. intros Hs. by apply wrapField_v1_noop.
  - rewrite wrapAllV2_ops. apply applyOps_dom.
  - destruct (wrapAllV2_field fields callsV2 i field Hi) as [H|(c & H)];
      rewrite H; eexists; (split; [done|]).
    + done.
    + destruct (wrapField_v2_frame field c) as (? & ? & ? & ?).
      split_and!; try done. intros Hs. by apply wrapField_v2_noop.
Qed.

(** ** The selector of a field's own validators *)

Lemma js_or_truthy a b : truthyName a -> js_or a b = a.
Proof. destruct a as [s|]; simpl; [|done]. intros Hs. by rewrite decide_False. Qed.

Lemma js_or_falsy a b : ¬ truthyName a -> js_or a b = b.
Proof.
  destruct a as [s|]; simpl; [|done]. intros Hs.
  destruct (decide (s = "")); [done|]. by destruct Hs.
Qed.

(** X4.  Under which key a field wrapped by schema-wrapper.ts finds its own
    validators.  The wrapper of a field that had no marker and a resolver
    looks under [parent + ':' + name], where [parent] is the name of the
    type through which [wrapResolvers] reached the field when that name is
    not empty, else [config.parentTypeName] when that is given and not
    empty, else the empty string: the key is never built from
    [undefined]. *)
Theorem field_selector_of_wrapper (reg : Registry) (field : Field) (r : Resolver)
    (cfg : option ValidityConfig) (p : option string) :
  processed field = false -> resolve field = Some r ->
  ∃ parent,
    resolve (SchemaWrapper.wrapField field (SchemaWrapper.normalize cfg) p)
    = Some (WrappedV1 r (fname field) (ftype field) (SchemaWrapper.normalize cfg)
              (Some parent))
    ∧ (truthyName p -> p = Some parent)
    ∧ (¬ truthyName p -> truthyName (cfg ≫= parentTypeName) ->
       cfg ≫= parentTypeName = Some parent)
    ∧ (¬ truthyName p -> ¬ truthyName (cfg ≫= parentTypeName) -> parent = "")
    ∧ fst (SchemaWrapper.getValidators reg (ftype field) (fname field) (Some parent))
      = SchemaWrapper.lookupValidators reg "*"
        ++ SchemaWrapper.lookupValidators reg (ftype field)
        ++ SchemaWrapper.lookupValidators reg (fieldSelector parent (fname field)).
Proof.
  intros Hp Hr.
  assert (Hcfg : ∃ s, parentTypeName (SchemaWrapper.normalize cfg) = Some s
                      ∧ (truthyName (cfg ≫= parentTypeName) ->
                         cfg ≫= parentTypeName = Some s)
                      ∧ (¬ truthyName (cfg ≫= parentTypeName) -> s = "")).
  { destruct cfg as [c|]; simpl.
    - destruct (parentTypeName c) as [s|] eqn:Hs; simpl.
      + destruct (decide (s = "")) as [->|Hne].
        * exists "". split_and!; [done|by intros []|done].
        * exists s. split_and!; [done|done|]. intros H. by destruct H.
      + exists "". by split_and!.
    - exists "". by split_and!. }
  destruct Hcfg as (s & Hs & Hs1 & Hs2).
  rewrite (wrapField_v1_marks field _ p r Hp Hr). simpl. rewrite Hs.
  assert (Hdec : truthyName p ∨ ¬ truthyName p).
  { destruct p as [t|]; simpl; [|right; tauto].
    destruct (decide (t = "")); [right|left]; tauto. }
  destruct Hdec as [Ht|Hf].
  - destruct p as [t|]; [|done]. exists t.
    rewrite (js_or_truthy (Some t)) by done. by split_and!.
  - exists s. rewrite (js_or_falsy p) by done. split_and!; try done; auto.
Qed.

(** The field of the sample schema, reached through the type [Parent]. *)
Lemma field_selector_of_wrapper_witness :
  processed sampleField = false
  ∧ resolve sampleField = Some (Original 1%nat)
  ∧ ∃ parent,
      resolve (SchemaWrapper.wrapField sampleField (SchemaWrapper.normalize None)
                 (Some "Parent"))
      = Some (WrappedV1 (Original 1%nat) "field" "TypeX" (SchemaWrapper.normalize None)
                (Some parent))
      ∧ parent = "Parent"
      ∧ fst (SchemaWrapper.getValidators sampleRegistry "TypeX" "field" (Some parent))
        = ["everyField"; "typeXCheck"; "fieldCheck"].
Proof.
  assert (H1 : processed sampleField = false) by reflexivity.
  assert (H2 : resolve sampleField = Some (Original 1%nat)) by reflexivity.
  split_and!; [exact H1|exact H2|].
  destruct (field_selector_of_wrapper sampleRegistry sampleField (Original 1%nat) None
              (Some "Parent") H1 H2) as (parent & Hres & Ht & _ & _ & Hsel).
  exists parent. split; [exact Hres|].
  assert (Hparent : parent = "Parent").
  { assert (Htr : truthyName (Some "Parent")) by (intros H; discriminate H).
    pose proof (Ht Htr) as Heq. by injection Heq. }
  split; [exact Hparent|].
  etrans; [exact Hsel|]. rewrite Hparent. vm_compute. reflexivity.
Defined.

(** ** Validation gates resolution *)

Lemma noCalls_bind {A B} (p : prog A) (f : A -> prog B) :
  noCalls p -> (forall a, noCalls (f a)) -> noCalls (bind p f).
Proof. induction 1; intros Hf; simpl; try (constructor; auto); auto. Qed.

Lemma noCalls_try_catch {A} (p : prog A) h :
  noCalls p -> (forall e, noCalls (h e)) -> noCalls (try_catch p h).
Proof. induction 1; intros Hh; simpl; try (constructor; auto); auto. Qed.

Lemma noCalls_run {A} (p : prog A) ins w :
  noCalls p -> calls_of (run p ins w) = [].
Proof. intros Hp; revert ins w; induction Hp; intros ins w; simpl; auto. Qed.

Lemma noCalls_onCatch {A} cfg e : noCalls (@onCatch A cfg e).
Proof.
  unfold onCatch, callErrorWrapper, onUnhandledError. unmonad.
  destruct (wrapErrors cfg); [|constructor].
  destruct (unhandledErrorWrapper cfg); simpl; repeat constructor.
Qed.

Lemma noCalls_afterResolve validity ast cfg fname pst vet out :
  noCalls (Index.afterResolve validity ast cfg fname pst vet out).
Proof.
  unfold Index.afterResolve, Index.unwrap, Index.recordProfile,
    Profiling.storeProfilingInfo, getValidationResults.
  unmonad.
  destruct out as [v|[d errs]], validity as [l|]; simpl;
    repeat first
      [ apply nc_ret | apply nc_throw | apply nc_store | apply nc_console
      | apply nc_load; intros ? | apply nc_now; intros ? | apply nc_uuid; intros ?
      | match goal with
        | |- context [match ?x with _ => _ end] => destruct x; simpl
        end ].
Qed.

Lemma follows_try_catch {A} cs (p : prog A) h :
  follows cs p -> (forall e, noCalls (h e)) -> follows cs (try_catch p h).
Proof.
  induction 1; intros Hh; simpl; try (constructor; auto).
  - intros e. apply noCalls_try_catch; auto.
  - intros x. apply noCalls_try_catch; auto.
Qed.

Lemma follows_bind {A B} cs (p : prog A) (f : A -> prog B) :
  follows cs p -> (forall a, noCalls (f a)) -> follows cs (bind p f).
Proof.
  induction 1; intros Hf; simpl; try (constructor; auto).
  - intros e. apply noCalls_bind; auto.
  - intros x. apply noCalls_bind; auto.
Qed.

(** A validator loop in front of a program that makes the calls [cs]. *)
Lemma follows_loop {B} s l push vs args cs (f : unit -> prog B) :
  (forall a, follows cs (f a)) ->
  follows (validatorCalls s l args vs ++ cs) (bind (runValidators s l push vs args) f).
Proof.
  intros Hf. induction vs as [|v vs IH]; simpl; [apply Hf|].
  apply fo_validator.
  - intros e. simpl. constructor.
  - intros rs. simpl. apply fo_store. apply IH.
Qed.

Lemma follows_loop2 {B C} s l push vs args cs (g : unit -> prog B) (f : B -> prog C) :
  (forall a, follows cs (bind (g a) f)) ->
  follows (validatorCalls s l args vs ++ cs)
    (bind (bind (runValidators s l push vs args) g) f).
Proof.
  intros Hf. induction vs as [|v vs IH]; simpl; [apply Hf|].
  apply fo_validator.
  - intros e. simpl. constructor.
  - intros rs. simpl. apply fo_store. apply IH.
Qed.

Lemma follows_run {A} cs (p : prog A) ins w :
  follows cs p -> calls_of (run p ins w) = take (S (fulfilments ins)) cs.
Proof.
  intros Hp; revert ins w.
  induction Hp as [cs l k _ IH|cs l f k _ IH|cs k _ IH|cs k _ IH|cs line k _ IH
                  |cs s l v args k Hrej _ IH|r args k Hk]; intros ins w; simpl; auto.
  - destruct ins as [|[rs|o|e] ins']; simpl; try done.
    + by rewrite IH.
    + by rewrite noCalls_run.
  - destruct ins as [|[rs|o|e] ins']; simpl; try done; by rewrite noCalls_run.
Qed.

Lemma calls_validate_then {C} reg l ftype fname parent args
    (g : unit -> prog C) h cs ins w :
  (forall a, follows cs (g a)) -> (forall e, noCalls (h e)) ->
  calls_of (run (try_catch (bind (validate reg l ftype fname parent args) g) h) ins w)
  = take (S (fulfilments ins))
      (validatorCalls Global l args (globalDue reg w l)
       ++ validatorCalls Local l args (fst (getValidators reg ftype fname parent))
       ++ cs).
Proof.
  intros Hg Hh.
  unfold validate, getValidationResults, globalDue. unmonad; simpl.
  set (lvs := lookupValidators reg "*" ++ lookupValidators reg ftype ++
              lookupValidators reg (js_to_string parent +:+ ":" +:+ fname)).
  assert (Hlocal : follows (validatorCalls Local l args lvs ++ cs)
                     (try_catch (bind (runValidators Local l pushLocal lvs args) g) h)).
  { apply follows_try_catch; [|done]. by apply follows_loop. }
  assert (Hglobal : follows
            (validatorCalls Global l args (lookupValidators reg "$")
             ++ validatorCalls Local l args lvs ++ cs)
            (try_catch
               (bind (bind (runValidators Global l pushGlobal
                              (lookupValidators reg "$") args)
                        (fun _ => runValidators Local l pushLocal lvs args)) g) h)).
  { apply follows_try_catch; [|done]. apply follows_loop2.
    intros _. by apply follows_loop. }
  destruct (___validationResults (validityAt w l)) eqn:Hloc; simpl;
    rewrite ?validityAt_upd_eq; simpl;
    destruct (___globalValidationResults (validityAt w l)) eqn:Hglob; simpl;
    by apply follows_run.
Qed.

Lemma take_plan_resolve (vcalls : list call) c n :
  c ∉ vcalls ->
  (c ∈ take (S n) (vcalls ++ [c]) <-> (length vcalls <= n)%nat).
Proof.
  intros Hnot. split.
  - intros Hin. destruct (decide (length vcalls <= n)%nat) as [|Hgt]; [done|].
    rewrite take_app_le in Hin by lia.
    apply elem_of_take in Hin as (i & Hi & _). destruct Hnot. by eapply list_elem_of_lookup_2.
  - intros Hle. rewrite take_ge by (rewrite length_app; simpl; lia).
    apply elem_of_app. right. apply list_elem_of_here.
Qed.

Lemma resolve_not_validator s l args vs r args' :
  CallResolve r args' ∉ validatorCalls s l args vs.
Proof.
  unfold validatorCalls. intros Hin.
  apply list_elem_of_fmap in Hin as (v & Heq & _). discriminate Heq.
Qed.

Lemma resolverCalls_elem r args cs :
  (r, args) ∈ resolverCalls cs -> CallResolve r args ∈ cs.
Proof.
  unfold resolverCalls. intros Hin.
  apply list_elem_of_omap in Hin as (c & Hc & Heq).
  destruct c; simplify_eq. done.
Qed.

Lemma plan_facts reg w l ftype fname parent r args n :
  let due := (length (globalDue reg w l)
              + length (fst (getValidators reg ftype fname parent)))%nat in
  let plan := callPlan reg w l ftype fname parent r args in
  (CallResolve r args ∈ take (S n) plan <-> (due <= n)%nat)
  ∧ ((due <= n)%nat -> take (S n) plan = plan).
Proof.
  intros due plan. subst due plan. unfold callPlan. rewrite app_assoc.
  set (vcalls := validatorCalls Global l args (globalDue reg w l) ++
                 validatorCalls Local l args (fst (getValidators reg ftype fname parent))).
  assert (Hlen : length vcalls
                 = (length (globalDue reg w l)
                    + length (fst (getValidators reg ftype fname parent)))%nat).
  { subst vcalls. unfold validatorCalls. by rewrite length_app, !length_map. }
  rewrite <- Hlen. split.
  - apply take_plan_resolve. subst vcalls. intros Hin.
    apply elem_of_app in Hin as [Hin|Hin]; by apply resolve_not_validator in Hin.
  - intros Hle. apply take_ge. rewrite length_app; simpl. lia.
Qed.

(** X5.  Validation gates resolution.  For a wrapped resolver that found
    the state [l], the calls of one activation are, on every script, an
    initial part of one fixed list: the global validators that are due
    (all of ['$'] when the global list of [l] is absent at entry, none
    otherwise), then the selected local validators (an inherited member
    of the registry object among them when the type name selects one),
    then the original resolver; each call after the first is made only
    when the promise of
    the one before has fulfilled.  So the original resolver is called
    exactly when every due validator has fulfilled, after all of them,
    and an activation that returns a value has made every call of the
    list. *)
Theorem validation_gates_resolution (reg : Registry) (fname ftype : string)
    (cfg : ValidityConfig) (r : resolverId) (args : list Arg) (l : loc) :
  (forall parent ins w,
     SchemaWrapper.findRequest args = Some l ->
     let o := run (invoke reg (WrappedV1 (Original r) fname ftype cfg parent) args) ins w in
     let plan := callPlan reg w l ftype fname parent r args in
     let due := (length (globalDue reg w l)
                 + length (fst (SchemaWrapper.getValidators reg ftype fname parent)))%nat in
     calls_of o = take (S (fulfilments ins)) plan
     ∧ (CallResolve r args ∈ calls_of o <-> (due <= fulfilments ins)%nat)
     ∧ (forall a, residual o = Ret a -> calls_of o = plan))
  ∧ (forall ins w,
       Index.scanValidity args = Some l ->
       let parent := Index.scanAst args ≫= arg_parentType in
       let o := run (invoke reg (WrappedV2 (Original r) fname ftype cfg) args) ins w in
       let plan := callPlan reg w l ftype fname parent r args in
       let due := (length (globalDue reg w l)
                   + length (fst (SchemaWrapper.getValidators reg ftype fname parent)))%nat in
       calls_of o = take (S (fulfilments ins)) plan
       ∧ (CallResolve r args ∈ calls_of o <-> (due <= fulfilments ins)%nat)
       ∧ (forall a, residual o = Ret a -> calls_of o = plan)).
Proof.
  split.
  - intros parent ins w Hctx o plan due.
    assert (Hcalls : calls_of o = take (S (fulfilments ins)) plan).
    { subst o plan. simpl. unfold wrapped. rewrite Hctx. unmonad.
      apply (calls_validate_then reg l ftype fname parent args
               (fun _ => await_resolve r args) (onCatch cfg) [CallResolve r args]).
      - intros _. apply fo_resolve. intros [x|e]; constructor.
      - intros e. apply noCalls_onCatch. }
    destruct (plan_facts reg w l ftype fname parent r args (fulfilments ins))
      as [Hiff Hfull].
    subst plan due. cbv zeta in Hiff, Hfull.
    split_and!; [done|by rewrite Hcalls| ].
    intros a Hret. rewrite Hcalls. apply Hfull, Hiff. rewrite <- Hcalls.
    destruct (resolvesOnce_run r args _ ins w
                (resolvesOnce_v1 reg r fname ftype cfg parent args)) as [[_ Hno]|Hone].
    + by destruct (Hno a).
    + apply resolverCalls_elem. fold o in Hone. rewrite Hone. apply list_elem_of_here.
  - intros ins w Hctx parent o plan due.
    assert (Hcalls : calls_of o = take (S (fulfilments ins)) plan).
    { subst o plan. simpl. unfold Index.wrapped. rewrite Hctx. unmonad. simpl.
      apply (calls_validate_then reg l ftype fname parent args
               (fun _ => bind date_now (fun vet =>
                  bind (await_resolve r args) (fun resolveOutput =>
                    Index.afterResolve (Some l) (Index.scanAst args) cfg fname
                      (clock w (ticks w)) vet resolveOutput)))
               (onCatch cfg) [CallResolve r args] ins (tick w)).
      - intros _. simpl. apply fo_now. intros t. apply fo_resolve.
        intros [x|e]; simpl; [apply noCalls_afterResolve|constructor].
      - intros e. apply noCalls_onCatch. }
    destruct (plan_facts reg w l ftype fname parent r args (fulfilments ins))
      as [Hiff Hfull].
    subst plan due. cbv zeta in Hiff, Hfull.
    split_and!; [done|by rewrite Hcalls| ].
    intros a Hret. rewrite Hcalls. apply Hfull, Hiff. rewrite <- Hcalls.
    destruct (resolvesOnce_run r args _ ins w
                (resolvesOnce_v2 reg r fname ftype cfg args)) as [[_ Hno]|Hone].
    + by destruct (Hno a).
    + apply resolverCalls_elem. fold o in Hone. rewrite Hone. apply list_elem_of_here.
Qed.

(** The second local validator rejects: two global and two local
    validators have been called, the third local validator and the
    resolver are not.  With an empty registry and a return type named
    [toString], the one call due before the resolver is that of the
    inherited function; it fails and the resolver is not called. *)
Lemma validation_gates_resolution_witness :
  let ins := [InValidator []; InValidator []; InValidator [violation "a"];
              InReject boom; InResolve (Plain (JNum 1))] in
  let o := run (invoke sampleRegistry (sampleV1 false) [sampleRequest]) ins sampleWorld in
  let o' := run (invoke ∅ (WrappedV1 (Original 1%nat) "field" "toString"
                             (sampleConfig false false) (Some "Parent"))
                   [sampleRequest])
                [InReject notArrayLike] sampleWorld in
  SchemaWrapper.findRequest [sampleRequest] = Some 7%nat
  ∧ calls_of o
    = [CallValidator Global 7%nat "auth" [sampleRequest];
       CallValidator Global 7%nat "quota" [sampleRequest];
       CallValidator Local 7%nat "everyField" [sampleRequest];
       CallValidator Local 7%nat "typeXCheck" [sampleRequest]]
  ∧ (CallResolve 1%nat [sampleRequest] ∉ calls_of o)
  ∧ calls_of o' = [CallValidator Local 7%nat (inherited "toString") [sampleRequest]]
  ∧ CallResolve 1%nat [sampleRequest] ∉ calls_of o'.
Proof.
  intros ins o o'.
  assert (H1 : SchemaWrapper.findRequest [sampleRequest] = Some 7%nat) by reflexivity.
  destruct (validation_gates_resolution sampleRegistry "field" "TypeX"
              (sampleConfig false false) 1%nat [sampleRequest] 7%nat) as [Hv1 _].
  destruct (Hv1 (Some "Parent") ins sampleWorld H1) as (Hcalls & Hiff & _).
  destruct (validation_gates_resolution ∅ "field" "toString"
              (sampleConfig false false) 1%nat [sampleRequest] 7%nat) as [Hv1' _].
  destruct (Hv1' (Some "Parent") [InReject notArrayLike] sampleWorld H1)
    as (Hcalls' & Hiff' & _).
  split_and!; [exact H1| | | |].
  - etrans; [exact Hcalls|]. vm_compute. reflexivity.
  - intros Hin. apply Hiff in Hin. vm_compute in Hin. lia.
  - etrans; [exact Hcalls'|]. vm_compute. reflexivity.
  - intros Hin. apply Hiff' in Hin. vm_compute in Hin. lia.
Defined.

(** ** Requests do not disturb one another *)

Lemma stranger_run_calls {A} l (p : prog A) ins w :
  stranger l p -> Forall (notFor l) (calls_of (run p ins w)).
Proof.
  intros Hp; revert ins w; induction Hp; intros ins w; simpl; auto.
  - destruct ins as [|[rs|o|e] ins']; simpl; constructor; auto.
  - destruct ins as [|[rs|o|e] ins']; simpl; constructor; simpl; auto.
Qed.

Lemma besides_step reg l w0 P ev :
  besides l ev ->
  Forall (stranger l) (tasks P) ->
  validityAt (pworld P) l = validityAt w0 l ->
  Forall (fun tc => notFor l tc.2) (trace P) ->
  Forall (stranger l) (tasks (poolStep reg P ev))
  ∧ validityAt (pworld (poolStep reg P ev)) l = validityAt w0 l
  ∧ Forall (fun tc => notFor l tc.2) (trace (poolStep reg P ev)).
Proof.
  intros Hev Hst Hv Htr. destruct ev as [r args|tid i]; simpl.
  - destruct Hev as [Hflat Hctx].
    pose proof (stranger_invoke l reg r args Hflat Hctx) as Hs.
    destruct (stranger_run l _ [] (pworld P) Hs) as (Hres & Hv' & _).
    split_and!.
    + apply Forall_app. split; [done|]. by constructor.
    + by rewrite Hv'.
    + apply Forall_app. split; [done|]. unfold stamp. apply Forall_map.
      eapply Forall_impl; [apply (stranger_run_calls l _ [] (pworld P) Hs)|]. done.
  - destruct (tasks P !! tid) as [p|] eqn:Ht; [|done].
    destruct (resume p i) as [p'|] eqn:Hr; [|done]. simpl.
    assert (Hp : stranger l p).
    { rewrite Forall_forall in Hst. apply Hst. by eapply list_elem_of_lookup_2. }
    pose proof (resume_stranger l p p' i Hp Hr) as Hs.
    destruct (stranger_run l _ [] (pworld P) Hs) as (Hres & Hv' & _).
    split_and!.
    + by apply Forall_insert.
    + by rewrite Hv'.
    + apply Forall_app. split; [done|]. unfold stamp. apply Forall_map.
      eapply Forall_impl; [apply (stranger_run_calls l _ [] (pworld P) Hs)|]. done.
Qed.

Lemma besides_run reg l w0 evs P :
  Forall (besides l) evs ->
  Forall (stranger l) (tasks P) ->
  validityAt (pworld P) l = validityAt w0 l ->
  Forall (fun tc => notFor l tc.2) (trace P) ->
  validityAt (pworld (poolRun reg P evs)) l = validityAt w0 l
  ∧ Forall (fun tc => notFor l tc.2) (trace (poolRun reg P evs)).
Proof.
  intros Hevs; revert P. induction Hevs as [|ev evs Hev _ IH]; intros P Hst Hv Htr.
  - done.
  - simpl. destruct (besides_step reg l w0 P ev Hev Hst Hv Htr) as (H1 & H2 & H3).
    by apply IH.
Qed.

Lemma besides_schedule l evs :
  flatSchedule evs ->
  Forall (fun ra => contextOf ra.1 ra.2 ≠ Some l) (invocations evs) ->
  Forall (besides l) evs.
Proof.
  unfold flatSchedule. induction evs as [|[r args|tid i] evs IH]; simpl; intros Hf Hc.
  - constructor.
  - apply Forall_cons in Hf as [Hf1 Hf], Hc as [Hc1 Hc]. constructor; [done|by apply IH].
  - constructor; [done|by apply IH].
Qed.

(** X6.  Requests are isolated.  In any interleaving of resolver
    activations, each resolver with at most one wrapper, in which no
    activation finds the state [l] in its arguments, the state [l] is, at
    the end, exactly what it was at the start, and no validator has been
    called for it: what the resolvers of other requests do, and what
    resolvers called without a state do, never reaches it. *)
Theorem requests_are_isolated (reg : Registry) (l : loc) (w0 : World)
    (evs : list event) :
  flatSchedule evs ->
  Forall (fun ra => contextOf ra.1 ra.2 ≠ Some l) (invocations evs) ->
  let P := poolRun reg (emptyPool w0) evs in
  validityAt (pworld P) l = validityAt w0 l
  ∧ forall tid s v args, (tid, CallValidator s l v args) ∉ trace P.
Proof.
  intros Hflat Hctx P.
  destruct (besides_run reg l w0 evs (emptyPool w0)
              (besides_schedule l evs Hflat Hctx)) as [Hv Htr]; try by constructor.
  split; [done|].
  intros tid s v args Hin. rewrite Forall_forall in Htr.
  by destruct (Htr _ Hin).
Qed.

(** A field of the request at address 8 runs all of its validators while
    the state at address 7 stays as the adapter created it. *)
Lemma requests_are_isolated_witness :
  let evs :=
    [ Invoke (sampleV1 false) [otherRequest];
      Invoke (sampleV1 false) [samplePlainArg];
      Settle 0 (InValidator [violation "no token"]);
      Settle 0 (InValidator []);
      Settle 0 (InValidator [violation "bad field"]) ] in
  let P := poolRun sampleRegistry (emptyPool sampleWorld) evs in
  flatSchedule evs
  ∧ Forall (fun ra => contextOf ra.1 ra.2 ≠ Some 7%nat) (invocations evs)
  ∧ validityAt (pworld P) 7%nat = freshProfiledValidity
  ∧ ___validationResults (validityAt (pworld P) 8%nat) = Some [violation "bad field"]
  ∧ ___globalValidationResults (validityAt (pworld P) 8%nat)
    = Some [violation "no token"].
Proof.
  intros evs P.
  assert (H1 : flatSchedule evs) by (repeat constructor).
  assert (H2 : Forall (fun ra => contextOf ra.1 ra.2 ≠ Some 7%nat) (invocations evs)).
  { repeat constructor; intros H; discriminate H. }
  split_and!; [exact H1|exact H2| | |].
  - etrans; [exact (proj1 (requests_are_isolated sampleRegistry 7%nat sampleWorld evs H1 H2))|].
    vm_compute. reflexivity.
  - vm_compute. reflexivity.
  - vm_compute. reflexivity.
Defined.

(** ** Results are only ever added *)

Lemma listGrows_refl {X} (a : option (list X)) : listGrows a a.
Proof. by split. Qed.

Lemma listGrows_trans {X} (a b c : option (list X)) :
  listGrows a b -> listGrows b c -> listGrows a c.
Proof. intros [H1 H2] [H3 H4]. split; [by etrans|auto]. Qed.

Lemma listGrows_push {X} (a : option (list X)) xs : listGrows a (Some (default [] a ++ xs)).
Proof. split; [by apply prefix_app_r|by eexists]. Qed.

Lemma listGrows_init {X} : listGrows (X:=X) None (Some []).
Proof. split; [done|by eexists]. Qed.

Lemma grows_refl vd : grows vd vd.
Proof. split_and!; apply listGrows_refl. Qed.

Lemma grows_trans vd1 vd2 vd3 : grows vd1 vd2 -> grows vd2 vd3 -> grows vd1 vd3.
Proof.
  intros (H1 & H2 & H3) (H4 & H5 & H6). split_and!; by eapply listGrows_trans.
Qed.

Lemma grows_pushLocal rs vd : grows vd (pushLocal rs vd).
Proof. split_and!; simpl; [apply listGrows_push|apply listGrows_refl..]. Qed.

Lemma grows_pushGlobal rs vd : grows vd (pushGlobal rs vd).
Proof. split_and!; simpl; [apply listGrows_refl|apply listGrows_push|apply listGrows_refl]. Qed.

Lemma grows_pushProfile entry vd : grows vd (Profiling.pushProfile entry vd).
Proof. split_and!; simpl; [apply listGrows_refl..|apply listGrows_push]. Qed.

Lemma grows_initLocal vd : ___validationResults vd = None -> grows vd (initLocal vd).
Proof.
  intros H. split_and!; simpl; [rewrite H; apply listGrows_init|apply listGrows_refl..].
Qed.

Lemma grows_initGlobal vd : ___globalValidationResults vd = None -> grows vd (initGlobal vd).
Proof.
  intros H. split_and!; simpl;
    [apply listGrows_refl|rewrite H; apply listGrows_init|apply listGrows_refl].
Qed.

Lemma extending_bind {A B} (p : prog A) (f : A -> prog B) w :
  extending p w -> (forall a w', extending (f a) w') -> extending (bind p f) w.
Proof.
  revert w; induction p as [a|e|l k IH|l g k IH|k IH|k IH|line k IH
                           |s l v args k IH|r args k IH]; intros w Hp Hf; simpl in *;
    try done; auto.
  - destruct Hp as [Hg Hk]. split; [done|]. by apply IH.
Qed.

Lemma extending_try_catch {A} (p : prog A) h w :
  extending p w -> (forall e w', extending (h e) w') -> extending (try_catch p h) w.
Proof.
  revert w; induction p as [a|e|l k IH|l g k IH|k IH|k IH|line k IH
                           |s l v args k IH|r args k IH]; intros w Hp Hh; simpl in *;
    try done; auto.
  - destruct Hp as [Hg Hk]. split; [done|]. by apply IH.
Qed.

Lemma extending_runValidators s l push vs args w :
  (forall rs vd, grows vd (push rs vd)) ->
  extending (runValidators s l push vs args) w.
Proof.
  intros Hpush. revert w. induction vs as [|v vs IH]; intros w; [done|].
  rewrite runValidators_cons. simpl. intros [rs|e] w'; simpl; [|done].
  split; [apply Hpush|apply IH].
Qed.

Lemma extending_validate reg l ftype fname parent args w :
  extending (validate reg l ftype fname parent args) w.
Proof.
  unfold validate, getValidationResults. unmonad; simpl.
  set (lvs := lookupValidators reg "*" ++ lookupValidators reg ftype ++
              lookupValidators reg (js_to_string parent +:+ ":" +:+ fname)).
  assert (Hlocal : forall w', extending (runValidators Local l pushLocal lvs args) w').
  { intros w'. apply extending_runValidators. apply grows_pushLocal. }
  assert (Hglobal : forall w',
    extending (bind (runValidators Global l pushGlobal (lookupValidators reg "$") args)
                 (fun _ => runValidators Local l pushLocal lvs args)) w').
  { intros w'. apply extending_bind; [|done].
    apply extending_runValidators. apply grows_pushGlobal. }
  destruct (___validationResults (validityAt w l)) eqn:Hloc; simpl;
    rewrite ?validityAt_upd_eq; simpl;
    destruct (___globalValidationResults (validityAt w l)) eqn:Hglob; simpl;
    rewrite ?validityAt_upd_eq; simpl;
    repeat match goal with
    | |- grows _ (initLocal _) ∧ _ => split; [by apply grows_initLocal|]
    | |- grows _ (initGlobal _) ∧ _ => split; [by apply grows_initGlobal|]
    end; auto.
Qed.

Lemma extending_onCatch {A} cfg e w : extending (@onCatch A cfg e) w.
Proof.
  unfold onCatch, callErrorWrapper, onUnhandledError. unmonad.
  destruct (wrapErrors cfg); [|done].
  by destruct (unhandledErrorWrapper cfg).
Qed.

Lemma extending_afterResolve validity ast cfg fname pst vet out w :
  extending (Index.afterResolve validity ast cfg fname pst vet out) w.
Proof.
  unfold Index.afterResolve, Index.unwrap, Index.recordProfile,
    Profiling.storeProfilingInfo, getValidationResults.
  unmonad.
  destruct out as [v|[d errs]], validity as [l|]; simpl;
    repeat first
      [ done
      | split
      | apply grows_pushLocal | apply grows_pushProfile
      | apply grows_initLocal; done
      | progress rewrite ?validityAt_upd_eq, ?tick_validityAt
      | match goal with
        | |- context [match ?x with _ => _ end] => destruct x eqn:?; simpl
        end ].
Qed.

Lemma extending_invoke reg r args w : extending (invoke reg r args) w.
Proof.
  revert args w. induction r as [id|inner IH fn ft c parent|inner IH fn ft c];
    intros args w; simpl.
  - by intros [o|e] w'.
  - unfold wrapped. unmonad.
    apply extending_try_catch; [|intros; apply extending_onCatch].
    apply extending_bind; [|intros; apply IH].
    destruct (findRequest args); [apply extending_validate|done].
  - unfold Index.wrapped. unmonad. simpl.
    apply extending_try_catch; [|intros; apply extending_onCatch].
    apply extending_bind.
    + destruct (Index.scanValidity args); [apply extending_validate|done].
    + intros _ w1. simpl.
      apply extending_bind; [apply IH|].
      intros out w2. apply extending_afterResolve.
Qed.

Lemma extending_run {A} (p : prog A) ins w :
  extending p w ->
  (forall l, grows (validityAt w l) (validityAt (world_of (run p ins w)) l))
  ∧ forall w', extending (residual (run p ins w)) w'.
Proof.
  revert ins w; induction p as [a|e|l k IH|l g k IH|k IH|k IH|line k IH
                               |s l v args k IH|r args k IH]; intros ins w Hp;
    simpl in *.
  - split; [intros; apply grows_refl|done].
  - split; [intros; apply grows_refl|done].
  - by apply IH.
  - destruct Hp as [Hg Hk]. destruct (IH ins _ Hk) as [H1 H2]. split; [|done].
    intros l'. eapply grows_trans; [|apply H1].
    destruct (decide (l = l')) as [->|Hne].
    + by rewrite validityAt_upd_eq.
    + rewrite validityAt_upd_ne by done. apply grows_refl.
  - exact (IH _ ins (tick w) Hp).
  - exact (IH _ ins (draw w) Hp).
  - exact (IH ins (logError line w) Hp).
  - destruct ins as [|[rs|o|e] ins']; simpl;
      try (split; [intros; apply grows_refl|done]); by apply IH.
  - destruct ins as [|[rs|o|e] ins']; simpl;
      try (split; [intros; apply grows_refl|done]); by apply IH.
Qed.

Lemma extending_resume {A} (p p' : prog A) i :
  (forall w, extending p w) -> resume p i = Some p' -> forall w, extending p' w.
Proof.
  intros Hp Hr w.
  destruct p; try done; destruct i; simplify_eq/=; apply (Hp w).
Qed.

Lemma extending_step reg P ev :
  Forall (fun p => forall w, extending p w) (tasks P) ->
  Forall (fun p => forall w, extending p w) (tasks (poolStep reg P ev))
  ∧ forall l, grows (validityAt (pworld P) l) (validityAt (pworld (poolStep reg P ev)) l).
Proof.
  intros Hts. destruct ev as [r args|tid i]; simpl.
  - destruct (extending_run (invoke reg r args) [] (pworld P)
                (extending_invoke reg r args (pworld P))) as [Hg Hres].
    split; [|done]. apply Forall_app. split; [done|]. by constructor.
  - destruct (tasks P !! tid) as [p|] eqn:Ht; [|split; [done|intros; apply grows_refl]].
    destruct (resume p i) as [p'|] eqn:Hr; [|split; [done|intros; apply grows_refl]].
    simpl.
    assert (Hp : forall w, extending p w).
    { rewrite Forall_forall in Hts. apply Hts. by eapply list_elem_of_lookup_2. }
    destruct (extending_run p' [] (pworld P) (extending_resume p p' i Hp Hr (pworld P)))
      as [Hg Hres].
    split; [|done]. by apply Forall_insert.
Qed.

Lemma extending_pool reg evs P :
  Forall (fun p => forall w, extending p w) (tasks P) ->
  forall l, grows (validityAt (pworld P) l) (validityAt (pworld (poolRun reg P evs)) l).
Proof.
  revert P. induction evs as [|ev evs IH]; intros P Hts l; simpl.
  - apply grows_refl.
  - destruct (extending_step reg P ev Hts) as [Hts' Hg].
    eapply grows_trans; [apply Hg|]. by apply IH.
Qed.

Lemma extending_pool_tasks reg evs P :
  Forall (fun p => forall w, extending p w) (tasks P) ->
  Forall (fun p => forall w, extending p w) (tasks (poolRun reg P evs)).
Proof.
  revert P. induction evs as [|ev evs IH]; intros P Hts; simpl; [done|].
  apply IH. by apply extending_step.
Qed.

(** X7.  Results are only ever added.  Between any two moments of any
    interleaving of resolver activations, whatever the resolvers are
    (wrapped by either module, once or several times, or not at all) and
    whatever their promises settle with, each list of each state has only
    grown at its end: the local results, the global results and the
    profiling records present at the earlier moment are all present at the
    later one, in front and in the same order, and a list that existed
    still exists.  No result is dropped, replaced or reordered. *)
Theorem results_are_only_added (reg : Registry) (w0 : World)
    (evs1 evs2 : list event) (l : loc) :
  let before := validityAt (pworld (poolRun reg (emptyPool w0) evs1)) l in
  let after := validityAt (pworld (poolRun reg (emptyPool w0) (evs1 ++ evs2))) l in
  (default [] (___validationResults before)
     `prefix_of` default [] (___validationResults after)
   ∧ (is_Some (___validationResults before) -> is_Some (___validationResults after)))
  ∧ (default [] (___globalValidationResults before)
       `prefix_of` default [] (___globalValidationResults after)
     ∧ (is_Some (___globalValidationResults before)
        -> is_Some (___globalValidationResults after)))
  ∧ (default [] (___profilingData before)
       `prefix_of` default [] (___profilingData after)
     ∧ (is_Some (___profilingData before) -> is_Some (___profilingData after))).
Proof.
  intros before after. subst before after. rewrite poolRun_app.
  apply (extending_pool reg evs2 (poolRun reg (emptyPool w0) evs1)).
  apply extending_pool_tasks. constructor.
Qed.

(** ** Accounting for what settlements add *)

Section AccountingFacts.
Context {X : Type}.
Context (view : World -> X).
Context (aV : site -> loc -> result (list JsObject) -> World -> X).

Lemma accounts_bind aR {A B} (p : prog A) (f : A -> prog B) w acc Q E :
  accounts view aV aR p w acc (fun a w' acc' => accounts view aV aR (f a) w' acc' Q E) E ->
  accounts view aV aR (bind p f) w acc Q E.
Proof.
  revert w acc; induction p as [a|e|l' k IH|l' g k IH|k IH|k IH|line k IH
                               |s l' v args k IH|r args k IH]; intros w acc Hp;
    simpl in *; auto.
  - destruct Hp as [Hacc Hk]. split; [done|]. intros r w'. apply IH, Hk.
  - destruct Hp as [Hacc Hk]. split; [done|]. intros x w'. apply IH, Hk.
Qed.

Lemma accounts_try_catch aR {A} (p : prog A) h w acc Q E :
  accounts view aV aR p w acc Q (fun e w' acc' => accounts view aV aR (h e) w' acc' Q E) ->
  accounts view aV aR (try_catch p h) w acc Q E.
Proof.
  revert w acc; induction p as [a|e|l' k IH|l' g k IH|k IH|k IH|line k IH
                               |s l' v args k IH|r args k IH]; intros w acc Hp;
    simpl in *; auto.
  - destruct Hp as [Hacc Hk]. split; [done|]. intros r w'. apply IH, Hk.
  - destruct Hp as [Hacc Hk]. split; [done|]. intros x w'. apply IH, Hk.
Qed.

(** A program without awaits: its one segment decides. *)
Lemma accounts_noCalls aR {A} (p : prog A) w acc
    (Q : A -> World -> X -> Prop) (E : JsError -> World -> X -> Prop) :
  noCalls p ->
  match residual (run p [] w) with
  | Ret a => Q a (world_of (run p [] w)) acc
  | Throw e => E e (world_of (run p [] w)) acc
  | _ => True
  end ->
  accounts view aV aR p w acc Q E.
Proof.
  intros Hp; revert w; induction Hp; intros w Hres; simpl in *; auto.
Qed.

Lemma accounts_run aR (p : prog ResolveOutput) w acc :
  accounts view aV aR p w acc (asExpected view) (asExpected view) ->
  view (world_of (run p [] w)) = acc
  ∧ accounted view aV aR (residual (run p [] w)).
Proof.
  unfold accounted.
  revert w acc; induction p as [a|e|l' k IH|l' g k IH|k IH|k IH|line k IH
                               |s l' v args k IH|r args k IH]; intros w acc Hp;
    simpl in *.
  - by split.
  - by split.
  - by apply IH.
  - by apply IH.
  - by apply IH.
  - by apply IH.
  - by apply IH.
  - destruct Hp as [Hacc Hk]. by split.
  - destruct Hp as [Hacc Hk]. by split.
Qed.

(** A validator loop: each push shows what is stated for the fulfilment it
    follows, and a rejection shows nothing. *)
Lemma accounts_loop aR s l' push vs args w acc (Q : unit -> World -> X -> Prop) E :
  (forall rs w', view (updValidity l' (push rs) w') = aV s l' (Fulfilled rs) w') ->
  (forall e w', aV s l' (Rejected e) w' = view w') ->
  view w = acc ->
  (forall w', Q tt w' (view w')) ->
  (forall e w', E e w' (view w')) ->
  accounts view aV aR (runValidators s l' push vs args) w acc Q E.
Proof.
  intros Hpush Hrej Hacc HQ HE. revert w acc Hacc.
  induction vs as [|v vs IH]; intros w acc Hacc.
  - simpl. subst acc. apply HQ.
  - rewrite runValidators_cons. simpl. split; [done|].
    intros [rs|e] w'; simpl.
    + apply IH. apply Hpush.
    + rewrite Hrej. apply HE.
Qed.

(** The validation of a wrapped resolver, for a view that the creation of
    an absent list does not change. *)
Lemma accounts_validate aR reg l' ftype fname parent args w
    (Q : unit -> World -> X -> Prop) E :
  (forall rs w', view (updValidity l' (pushLocal rs) w') = aV Local l' (Fulfilled rs) w') ->
  (forall rs w', view (updValidity l' (pushGlobal rs) w') = aV Global l' (Fulfilled rs) w') ->
  (forall s e w', aV s l' (Rejected e) w' = view w') ->
  (forall w', ___validationResults (validityAt w' l') = None ->
              view (updValidity l' initLocal w') = view w') ->
  (forall w', ___globalValidationResults (validityAt w' l') = None ->
              view (updValidity l' initGlobal w') = view w') ->
  (forall w', Q tt w' (view w')) ->
  (forall e w', E e w' (view w')) ->
  accounts view aV aR (validate reg l' ftype fname parent args) w (view w) Q E.
Proof.
  intros HpushL HpushG Hrej HinitL HinitG HQ HE.
  unfold validate, getValidationResults. unmonad; simpl.
  set (lvs := lookupValidators reg "*" ++ lookupValidators reg ftype ++
              lookupValidators reg (js_to_string parent +:+ ":" +:+ fname)).
  assert (Hlocal : forall w' acc, view w' = acc ->
    accounts view aV aR (runValidators Local l' pushLocal lvs args) w' acc Q E).
  { intros w' acc Hacc. by apply accounts_loop. }
  assert (Hglobal : forall w' acc, view w' = acc ->
    accounts view aV aR
      (bind (runValidators Global l' pushGlobal (lookupValidators reg "$") args)
         (fun _ => runValidators Local l' pushLocal lvs args)) w' acc Q E).
  { intros w' acc Hacc. apply accounts_bind. apply accounts_loop; auto. }
  destruct (___validationResults (validityAt w l')) eqn:Hloc; simpl;
    rewrite ?validityAt_upd_eq; simpl;
    destruct (___globalValidationResults (validityAt w l')) eqn:Hglob; simpl.
  - by apply Hlocal.
  - apply Hglobal. by apply HinitG.
  - apply Hlocal. by apply HinitL.
  - apply Hglobal. rewrite HinitG.
    + by apply HinitL.
    + by rewrite validityAt_upd_eq.
Qed.

(** The [catch] block, for a view that depends on the heap only. *)
Lemma accounts_onCatch aR {A} cfg e w acc (Q : A -> World -> X -> Prop) E :
  (forall x w', heap w' = heap w -> E x w' acc) ->
  accounts view aV aR (onCatch cfg e) w acc Q E.
Proof.
  intros HE. apply accounts_noCalls; [apply noCalls_onCatch|].
  destruct (run_onCatch_throw (A:=A) cfg e [] w) as (x & w' & Hrun & Hheap).
  rewrite Hrun. simpl. by apply HE.
Qed.

End AccountingFacts.

Section AccountingPool.
Context {X : Type}.
Context (view : World -> X).
Context (aV : site -> loc -> result (list JsObject) -> World -> X).
Context (aR : Resolver * list Arg -> result ResolveOutput -> World -> X).

Hypothesis view_heap : forall w w', heap w' = heap w -> view w' = view w.
Hypothesis view_pushLocal :
  forall l' rs w, view (updValidity l' (pushLocal rs) w) = aV Local l' (Fulfilled rs) w.
Hypothesis view_pushGlobal :
  forall l' rs w, view (updValidity l' (pushGlobal rs) w) = aV Global l' (Fulfilled rs) w.
Hypothesis view_rejected : forall s l' e w, aV s l' (Rejected e) w = view w.
Hypothesis view_initLocal :
  forall l' w, ___validationResults (validityAt w l') = None ->
               view (updValidity l' initLocal w) = view w.
Hypothesis view_initGlobal :
  forall l' w, ___globalValidationResults (validityAt w l') = None ->
               view (updValidity l' initGlobal w) = view w.
Hypothesis resolver_rejected : forall ra e w, aR ra (Rejected e) w = view w.
Hypothesis resolver_plain :
  forall ra out w,
    match ra.1 with WrappedV2 _ _ _ _ => False | _ => True end ->
    aR ra (Fulfilled out) w = view w.
Hypothesis resolver_unwrapped :
  forall inner fn ft c args pst vet out w,
    view (world_of (run (Index.afterResolve (Index.scanValidity args) (Index.scanAst args)
                           c fn pst vet out) [] w))
    = aR (WrappedV2 inner fn ft c, args) (Fulfilled out) w.

Lemma accounted_invoke reg r args :
  flat r -> accounted view aV (aR (r, args)) (invoke reg r args).
Proof.
  intros Hflat w.
  assert (Hcatch : forall ra cfg e w' acc,
    view w' = acc ->
    accounts view aV (aR ra) (onCatch (A:=ResolveOutput) cfg e) w' acc
      (asExpected view) (asExpected view)).
  { intros ra cfg e w' acc Hacc. apply accounts_onCatch.
    intros x w'' Hheap. unfold asExpected. by rewrite (view_heap w' w''). }
  assert (Hvalidate : forall ra l' ft fn parent w' (Q : unit -> World -> X -> Prop) cfg,
    (forall w'', Q tt w'' (view w'')) ->
    accounts view aV (aR ra) (validate reg l' ft fn parent args) w' (view w') Q
      (fun e w'' acc' =>
         accounts view aV (aR ra) (onCatch (A:=ResolveOutput) cfg e) w'' acc'
           (asExpected view) (asExpected view))).
  { intros ra l' ft fn parent w' Q cfg HQ.
    apply accounts_validate; auto; intros e w''; by apply Hcatch. }
  destruct r as [id|[id| |] fn ft c parent|[id| |] fn ft c]; try done; simpl.
  - split; [done|]. intros [out|e] w'; simpl; unfold asExpected.
    + by rewrite resolver_plain.
    + by rewrite resolver_rejected.
  - unfold wrapped. unmonad.
    apply accounts_try_catch, accounts_bind.
    assert (Hresolve : forall w',
      accounts view aV (aR (WrappedV1 (Original id) fn ft c parent, args))
        (await_resolve id args) w' (view w') (asExpected view)
        (fun e w'' acc' =>
           accounts view aV (aR (WrappedV1 (Original id) fn ft c parent, args))
             (onCatch (A:=ResolveOutput) c e) w'' acc'
             (asExpected view) (asExpected view))).
    { intros w'. simpl. split; [done|]. intros [out|e] w''; simpl.
      - unfold asExpected. by rewrite resolver_plain.
      - apply Hcatch. by rewrite resolver_rejected. }
    destruct (findRequest args) as [l'|]; simpl.
    + by apply Hvalidate.
    + apply Hresolve.
  - unfold Index.wrapped. unmonad. simpl.
    apply accounts_try_catch, accounts_bind.
    assert (Hrest : forall w',
      accounts view aV (aR (WrappedV2 (Original id) fn ft c, args))
        (bind date_now (fun vet =>
           bind (await_resolve id args) (fun resolveOutput =>
             Index.afterResolve (Index.scanValidity args) (Index.scanAst args) c fn
               (clock w (ticks w)) vet resolveOutput)))
        w' (view w') (asExpected view)
        (fun e w'' acc' =>
           accounts view aV (aR (WrappedV2 (Original id) fn ft c, args))
             (onCatch (A:=ResolveOutput) c e) w'' acc'
             (asExpected view) (asExpected view))).
    { intros w'. simpl. split; [by apply view_heap|]. intros [out|e] w''.
      - simpl. apply accounts_noCalls; [apply noCalls_afterResolve|].
        destruct (run_afterResolve_result (Index.scanValidity args) (Index.scanAst args)
                    c fn (clock w (ticks w)) (clock w' (ticks w')) out [] w'')
          as (Hres & _).
        rewrite Hres. unfold asExpected. apply resolver_unwrapped.
      - simpl. apply Hcatch. by rewrite resolver_rejected. }
    replace (view w) with (view (tick w)) by (by apply view_heap).
    destruct (Index.scanValidity args) as [l'|] eqn:Hctx; simpl.
    + apply (Hvalidate _ l' ft fn _ (tick w)). intros w''. apply Hrest.
    + apply (Hrest (tick w)).
Qed.

Lemma poolAccounted_step reg evs P ev :
  match ev with Invoke r _ => flat r | Settle _ _ => True end ->
  poolAccounted view aV aR evs P ->
  poolAccounted view aV aR (evs ++ [ev]) (poolStep reg P ev)
  ∧ view (pworld (poolStep reg P ev)) = eventView view aV aR evs P ev.
Proof.
  intros Hev [Hlen Hinv]. unfold poolAccounted. rewrite invocations_app.
  destruct ev as [r args|tid i]; simpl.
  - destruct (accounts_run view aV _ _ (pworld P) _
                (accounted_invoke reg r args Hev (pworld P))) as [Hview Hres].
    split_and!.
    + rewrite !length_app. simpl. by rewrite Hlen.
    + intros tid p ra Hp Hra.
      apply lookup_app_Some in Hp as [Hp|[Hge Hp]].
      * assert (Hlt : (tid < length (invocations evs))%nat).
        { rewrite <- Hlen. by eapply lookup_lt_Some. }
        rewrite lookup_app_l in Hra by done. by eapply Hinv.
      * rewrite lookup_app_r in Hra by lia. rewrite Hlen in Hp.
        destruct (tid - length (invocations evs))%nat; simplify_eq/=. done.
    + done.
  - rewrite app_nil_r.
    destruct (tasks P !! tid) as [p|] eqn:Ht; [|by split_and!].
    assert (Hra : ∃ ra, invocations evs !! tid = Some ra).
    { apply lookup_lt_is_Some. rewrite <- Hlen. by eapply lookup_lt_Some. }
    destruct Hra as [ra Hra].
    pose proof (Hinv tid p ra Ht Hra) as Hp.
    assert (Hkeep : forall o : Outcome ResolveOutput,
      accounted view aV (aR ra) (residual o) ->
      length (<[tid := residual o]> (tasks P)) = length (invocations evs)
      ∧ forall tid' p' ra',
          <[tid := residual o]> (tasks P) !! tid' = Some p' ->
          invocations evs !! tid' = Some ra' ->
          accounted view aV (aR ra') p').
    { intros o Ho. rewrite length_insert. split; [done|].
      intros tid' p' ra' Hp' Hra'. destruct (decide (tid' = tid)) as [->|Hne].
      - rewrite list_lookup_insert_eq in Hp' by (by eapply lookup_lt_Some).
        simplify_eq. exact Ho.
      - rewrite list_lookup_insert_ne in Hp' by done. by eapply Hinv. }
    destruct p as [a|e|l' k|l' g k|k|k|line k|s l' v args k|r args k];
      try (by split_and!).
    + destruct (Hp (pworld P)) as [_ Hk].
      destruct i as [rs|out|e]; simpl; try (by split_and!).
      * destruct (accounts_run view aV _ _ (pworld P) _ (Hk (Fulfilled rs) (pworld P)))
          as [Hview Hres].
        by destruct (Hkeep _ Hres).
      * destruct (accounts_run view aV _ _ (pworld P) _ (Hk (Rejected e) (pworld P)))
          as [Hview Hres].
        by destruct (Hkeep _ Hres).
    + destruct (Hp (pworld P)) as [_ Hk]. rewrite Hra.
      destruct i as [rs|out|e]; simpl; try (by split_and!).
      * destruct (accounts_run view aV _ _ (pworld P) _ (Hk (Fulfilled out) (pworld P)))
          as [Hview Hres].
        by destruct (Hkeep _ Hres).
      * destruct (accounts_run view aV _ _ (pworld P) _ (Hk (Rejected e) (pworld P)))
          as [Hview Hres].
        by destruct (Hkeep _ Hres).
Qed.

Lemma poolAccounted_empty w : poolAccounted view aV aR [] (emptyPool w).
Proof. split; [done|]. intros tid p ra Hp. by destruct tid. Qed.

End AccountingPool.

(** ** What the lists of a state hold *)

Lemma addGain_nil acc : addGain acc ([], []) = acc.
Proof. destruct acc. unfold addGain; simpl. by rewrite !app_nil_r. Qed.

Lemma addGain_assoc a b c : addGain (addGain a b) c = addGain a (addGain b c).
Proof. unfold addGain; simpl. by rewrite <- !app_assoc. Qed.

Lemma listsAt_upd_ne l l' f w : l' ≠ l -> listsAt l (updValidity l' f w) = listsAt l w.
Proof. intros Hne. unfold listsAt. by rewrite validityAt_upd_ne. Qed.

Lemma listsAt_heap l w w' : heap w' = heap w -> listsAt l w' = listsAt l w.
Proof. intros H. unfold listsAt, validityAt. by rewrite H. Qed.

(** A push realises the gain of the fulfilment it follows. *)
Lemma listsAt_pushLocal l l' rs w :
  listsAt l (updValidity l' (pushLocal rs) w)
  = listsAfterValidator l Local l' (Fulfilled rs) w.
Proof.
  unfold listsAfterValidator. simpl. destruct (decide (l' = l)) as [->|Hne].
  - unfold listsAt, addGain. rewrite validityAt_upd_eq. simpl. by rewrite app_nil_r.
  - rewrite listsAt_upd_ne by done. by rewrite addGain_nil.
Qed.

Lemma listsAt_pushGlobal l l' rs w :
  listsAt l (updValidity l' (pushGlobal rs) w)
  = listsAfterValidator l Global l' (Fulfilled rs) w.
Proof.
  unfold listsAfterValidator. simpl. destruct (decide (l' = l)) as [->|Hne].
  - unfold listsAt, addGain. rewrite validityAt_upd_eq. simpl. by rewrite app_nil_r.
  - rewrite listsAt_upd_ne by done. by rewrite addGain_nil.
Qed.

Lemma listsAt_initLocal l l' w :
  ___validationResults (validityAt w l') = None ->
  listsAt l (updValidity l' initLocal w) = listsAt l w.
Proof.
  intros Hnone. destruct (decide (l' = l)) as [->|Hne].
  - unfold listsAt. rewrite validityAt_upd_eq. simpl. by rewrite Hnone.
  - by apply listsAt_upd_ne.
Qed.

Lemma listsAt_initGlobal l l' w :
  ___globalValidationResults (validityAt w l') = None ->
  listsAt l (updValidity l' initGlobal w) = listsAt l w.
Proof.
  intros Hnone. destruct (decide (l' = l)) as [->|Hne].
  - unfold listsAt. rewrite validityAt_upd_eq. simpl. by rewrite Hnone.
  - by apply listsAt_upd_ne.
Qed.

Lemma listsAt_afterResolve l inner fn ft c args pst vet out w :
  listsAt l (world_of (run (Index.afterResolve (Index.scanValidity args)
                              (Index.scanAst args) c fn pst vet out) [] w))
  = listsAfterResolver l (WrappedV2 inner fn ft c, args) (Fulfilled out) w.
Proof.
  unfold listsAfterResolver, resolveGain, unwrapsAt. simpl.
  destruct (Index.scanValidity args) as [l0|].
  - destruct (run_afterResolve_lists l0 (Index.scanAst args) c fn pst vet out [] w)
      as (Hloc & Hglob & Hother).
    destruct (decide (l0 = l)) as [->|Hne].
    + rewrite bool_decide_eq_true_2 by done.
      unfold listsAt, addGain. simpl. rewrite Hloc, Hglob, app_nil_r.
      destruct out as [v|d]; simpl; [by rewrite app_nil_r|done].
    + rewrite bool_decide_eq_false_2 by congruence.
      rewrite addGain_nil. unfold listsAt. by rewrite Hother.
  - rewrite bool_decide_eq_false_2 by done. rewrite addGain_nil.
    apply listsAt_heap.
    by destruct (run_afterResolve_no_context (Index.scanAst args) c fn pst vet out [] w).
Qed.

Lemma lists_step reg l evs P ev :
  match ev with Invoke r _ => flat r | Settle _ _ => True end ->
  poolAccounted (listsAt l) (listsAfterValidator l) (listsAfterResolver l) evs P ->
  poolAccounted (listsAt l) (listsAfterValidator l) (listsAfterResolver l)
    (evs ++ [ev]) (poolStep reg P ev)
  ∧ listsAt l (pworld (poolStep reg P ev))
    = addGain (listsAt l (pworld P)) (eventGain l evs P ev).
Proof.
  intros Hev HP.
  destruct (poolAccounted_step (listsAt l) (listsAfterValidator l) (listsAfterResolver l))
    with (reg := reg) (evs := evs) (P := P) (ev := ev) as [HP' Hview]; try done.
  - intros w w'. apply listsAt_heap.
  - intros. apply listsAt_pushLocal.
  - intros. apply listsAt_pushGlobal.
  - intros. unfold listsAfterValidator. simpl. apply addGain_nil.
  - intros. by apply listsAt_initLocal.
  - intros. by apply listsAt_initGlobal.
  - intros. unfold listsAfterResolver. simpl. apply addGain_nil.
  - intros [r args] out w Hr. unfold listsAfterResolver, resolveGain, unwrapsAt.
    simpl in *. destruct r; try done; apply addGain_nil.
  - intros. apply listsAt_afterResolve.
  - split; [done|]. rewrite Hview. unfold eventView, eventGain.
    destruct ev as [r args|tid i]; [by rewrite addGain_nil|].
    destruct (tasks P !! tid) as [[a|e|l' k|l' g k|k|k|line k|s l' v args k|r args k]|];
      try (by rewrite addGain_nil).
    + destruct i as [rs|out|e]; try done; by rewrite ?addGain_nil.
    + destruct i as [rs|out|e]; try (by rewrite addGain_nil);
        destruct (invocations evs !! tid) as [ra|]; try done; by rewrite ?addGain_nil.
Qed.

Lemma lists_pool reg l evs' evs P :
  flatSchedule evs' ->
  poolAccounted (listsAt l) (listsAfterValidator l) (listsAfterResolver l) evs P ->
  listsAt l (pworld (poolRun reg P evs'))
  = addGain (listsAt l (pworld P)) (gains reg l evs P evs').
Proof.
  revert evs P. induction evs' as [|ev evs' IH]; intros evs P Hflat HP; simpl.
  - by rewrite addGain_nil.
  - apply flatSchedule_cons in Hflat as [Hev Hflat].
    destruct (lists_step reg l evs P ev Hev HP) as (HP' & Hstep).
    rewrite (IH (evs ++ [ev]) (poolStep reg P ev) Hflat HP').
    by rewrite Hstep, addGain_assoc.
Qed.

(** X8.  What the lists of a state hold.  In any interleaving of resolver
    activations, each resolver with at most one wrapper, the local list of
    a state is, at the end, what it was at the start followed by what the
    settlements added, in the order in which the promises settled: each
    fulfilment of a local validator called for that state adds its
    results, and each fulfilment of an original resolver whose wrapper is
    the one of the index module and found that state adds the errors its
    result carries.  The global list is what it was followed by the
    results of the fulfilled global validators called for that state.
    Nothing else is ever put on either list: not by a rejection, not by
    the wrapper of schema-wrapper.ts for a resolver's result, not by an
    activation that found another state or none. *)
Theorem lists_hold_what_settled (reg : Registry) (l : loc) (w0 : World)
    (evs : list event) :
  flatSchedule evs ->
  let w := pworld (poolRun reg (emptyPool w0) evs) in
  let added := gains reg l [] (emptyPool w0) evs in
  default [] (___validationResults (validityAt w l))
  = default [] (___validationResults (validityAt w0 l)) ++ added.1
  ∧ default [] (___globalValidationResults (validityAt w l))
    = default [] (___globalValidationResults (validityAt w0 l)) ++ added.2.
Proof.
  intros Hflat w added. subst w added.
  pose proof (lists_pool reg l evs [] (emptyPool w0) Hflat
                (poolAccounted_empty _ _ _ w0)) as H.
  unfold listsAt, addGain in H. simpl in H. by injection H.
Qed.

(** Two fields of one request, one wrapped by each module, resolve
    interleaved; a local validator of the first rejects, the resolver of
    the second returns a value with an error attached. *)
Lemma lists_hold_what_settled_witness :
  let evs :=
    [ Invoke (sampleV1 false) [sampleRequest];
      Invoke (sampleV2 false false) [sampleContext; sampleInfo];
      Settle 1 (InValidator [violation "b1"]);
      Settle 0 (InValidator [violation "g1"]);
      Settle 0 (InValidator []);
      Settle 0 (InValidator [violation "a1"]);
      Settle 1 (InValidator []);
      Settle 1 (InValidator [violation "b3"]);
      Settle 0 (InReject boom);
      Settle 1 (InResolve (DataValidation
                             {| data := JNum 42; errors := [violation "e"] |})) ] in
  let w := pworld (poolRun sampleRegistry (emptyPool sampleWorld) evs) in
  flatSchedule evs
  ∧ default [] (___validationResults (validityAt w 7%nat))
    = [violation "b1"; violation "a1"; violation "b3"; violation "e"]
  ∧ default [] (___globalValidationResults (validityAt w 7%nat)) = [violation "g1"].
Proof.
  intros evs w.
  assert (H1 : flatSchedule evs) by (repeat constructor).
  destruct (lists_hold_what_settled sampleRegistry 7%nat sampleWorld evs H1)
    as [Hlocal Hglobal].
  split_and!; [exact H1| |].
  - etrans; [exact Hlocal|]. vm_compute. reflexivity.
  - etrans; [exact Hglobal|]. vm_compute. reflexivity.
Defined.

(** ** What the profiling list of a state holds *)

Lemma recordsAt_heap l w w' : heap w' = heap w -> recordsAt l w' = recordsAt l w.
Proof. intros H. unfold recordsAt, validityAt. by rewrite H. Qed.

Lemma recordsAt_upd l l' f w :
  (forall vd, ___profilingData (f vd) = ___profilingData vd) ->
  recordsAt l (updValidity l' f w) = recordsAt l w.
Proof.
  intros Hf. unfold recordsAt. destruct (decide (l' = l)) as [->|Hne].
  - by rewrite validityAt_upd_eq, Hf.
  - by rewrite validityAt_upd_ne.
Qed.

Lemma recordsAt_afterResolve l inner fn ft c args pst vet out w :
  recordsAt l (world_of (run (Index.afterResolve (Index.scanValidity args)
                                (Index.scanAst args) c fn pst vet out) [] w))
  = recordsAfterResolver l (WrappedV2 inner fn ft c, args) (Fulfilled out) w.
Proof.
  unfold recordsAfterResolver, recordGain, recordOf. simpl.
  destruct (Index.scanValidity args) as [l0|].
  - destruct (decide (l0 = l)) as [->|Hne].
    + rewrite (bool_decide_eq_true_2 (Some l = Some l)) by done.
      rewrite andb_true_r.
      destruct (enableProfiling c) eqn:Hen.
      * destruct (Index.scanAst args) as [a|] eqn:Hast; simpl.
        -- destruct (___profilingData (validityAt w l)) as [ps|] eqn:Hps.
           ++ destruct (run_afterResolve_profile l a c fn pst vet out [] w ps Hen Hps)
                as [Hprof _].
              unfold recordsAt. rewrite Hprof, Hps. simpl.
              rewrite map_app. simpl. unfold summarize at 2. simpl.
              do 3 f_equal. lia.
           ++ destruct (run_afterResolve_profile_fails l (Some a) c fn pst vet out [] w Hen)
                as [Hprof _]; [by right|].
              unfold recordsAt. rewrite Hprof. by rewrite app_nil_r.
        -- destruct (run_afterResolve_profile_fails l None c fn pst vet out [] w Hen)
             as [Hprof _]; [by left|].
           unfold recordsAt. rewrite Hprof. by rewrite app_nil_r.
      * destruct (run_afterResolve_profile_off l (Index.scanAst args) c fn pst vet out
                    [] w Hen) as [Hprof _].
        unfold recordsAt. rewrite Hprof. simpl. by rewrite app_nil_r.
    + rewrite (bool_decide_eq_false_2 (Some l0 = Some l)) by congruence.
      rewrite andb_false_r.
      destruct (run_afterResolve_lists l0 (Index.scanAst args) c fn pst vet out [] w)
        as (_ & _ & Hother).
      unfold recordsAt. rewrite Hother by done. by rewrite app_nil_r.
  - rewrite (bool_decide_eq_false_2 (None = Some l)) by done.
    rewrite andb_false_r, app_nil_r.
    apply recordsAt_heap.
    by destruct (run_afterResolve_no_context (Index.scanAst args) c fn pst vet out [] w).
Qed.

Lemma records_step reg l evs P ev :
  match ev with Invoke r _ => flat r | Settle _ _ => True end ->
  poolAccounted (recordsAt l) (recordsAfterValidator l) (recordsAfterResolver l) evs P ->
  poolAccounted (recordsAt l) (recordsAfterValidator l) (recordsAfterResolver l)
    (evs ++ [ev]) (poolStep reg P ev)
  ∧ recordsAt l (pworld (poolStep reg P ev))
    = recordsAt l (pworld P) ++ eventRecords l evs P ev.
Proof.
  intros Hev HP.
  destruct (poolAccounted_step (recordsAt l) (recordsAfterValidator l)
              (recordsAfterResolver l))
    with (reg := reg) (evs := evs) (P := P) (ev := ev) as [HP' Hview]; try done.
  - intros w w'. apply recordsAt_heap.
  - intros. by apply recordsAt_upd.
  - intros. by apply recordsAt_upd.
  - intros. by apply recordsAt_upd.
  - intros. by apply recordsAt_upd.
  - intros. unfold recordsAfterResolver, recordGain. simpl. apply app_nil_r.
  - intros [r args] out w Hr. unfold recordsAfterResolver, recordGain, recordOf.
    simpl in *. destruct r; try done; apply app_nil_r.
  - intros. apply recordsAt_afterResolve.
  - split; [done|]. rewrite Hview. unfold eventView, eventRecords.
    destruct ev as [r args|tid i]; [by rewrite app_nil_r|].
    destruct (tasks P !! tid) as [[a|e|l' k|l' g k|k|k|line k|s l' v args k|r args k]|];
      try (by rewrite app_nil_r).
    + unfold recordsAfterValidator. destruct i; by rewrite app_nil_r.
    + destruct i as [rs|out|e]; try (by rewrite app_nil_r);
        destruct (invocations evs !! tid) as [ra|]; try (by rewrite app_nil_r).
      * done.
      * unfold recordsAfterResolver, recordGain. simpl. done.
Qed.

Lemma records_pool reg l evs' evs P :
  flatSchedule evs' ->
  poolAccounted (recordsAt l) (recordsAfterValidator l) (recordsAfterResolver l) evs P ->
  recordsAt l (pworld (poolRun reg P evs'))
  = recordsAt l (pworld P) ++ records reg l evs P evs'.
Proof.
  revert evs P. induction evs' as [|ev evs' IH]; intros evs P Hflat HP; simpl.
  - by rewrite app_nil_r.
  - apply flatSchedule_cons in Hflat as [Hev Hflat].
    destruct (records_step reg l evs P ev Hev HP) as (HP' & Hstep).
    rewrite (IH (evs ++ [ev]) (poolStep reg P ev) Hflat HP').
    by rewrite Hstep, app_assoc.
Qed.

(** X9.  What the profiling list of a state holds.  In any interleaving
    of resolver activations, each resolver with at most one wrapper, the
    profiling list of a state is, at the end, what it was at the start
    followed by one record for each fulfilment of an original resolver
    whose wrapper is the one of the index module with profiling enabled,
    found that state, and was given the field information, provided the
    state has a profiling list; the records are in the order in which the
    resolvers fulfilled.  Each such record carries the path of the field
    information and the name of the field, has [fieldsExecution] zero, and
    has [totalExecution] equal to [execution - validation].  A resolution
    that fails, a resolver wrapped by schema-wrapper.ts, and a validator
    leave no record. *)
Theorem profiling_holds_what_resolved (reg : Registry) (l : loc) (w0 : World)
    (evs : list event) :
  flatSchedule evs ->
  let w := pworld (poolRun reg (emptyPool w0) evs) in
  map summarize (default [] (___profilingData (validityAt w l)))
  = map summarize (default [] (___profilingData (validityAt w0 l)))
    ++ records reg l [] (emptyPool w0) evs.
Proof.
  intros Hflat w. subst w.
  apply (records_pool reg l evs [] (emptyPool w0) Hflat (poolAccounted_empty _ _ _ w0)).
Qed.

(** Two fields resolve interleaved with profiling enabled; the second to
    be called is the first to resolve. *)
Lemma profiling_holds_what_resolved_witness :
  let other :=
    WrappedV2 (Original 2%nat) "id" "ID" (sampleConfig false true) in
  let evs :=
    [ Invoke (sampleV2 false true) [sampleContext; sampleInfo];
      Invoke other [sampleContext; sampleInfo];
      Settle 0 (InValidator []); Settle 0 (InValidator []);
      Settle 1 (InValidator []);
      Settle 1 (InResolve (Plain (JNum 2)));
      Settle 0 (InValidator []); Settle 0 (InValidator []); Settle 0 (InValidator []);
      Settle 0 (InResolve (Plain (JNum 1))) ] in
  let w := pworld (poolRun sampleRegistry (emptyPool sampleWorld) evs) in
  flatSchedule evs
  ∧ map summarize (default [] (___profilingData (validityAt w 7%nat)))
    = [ (Some ["parent"; "field"], "id", 0, 0);
        (Some ["parent"; "field"], "field", 0, 0) ].
Proof.
  intros other evs w.
  assert (H1 : flatSchedule evs) by (repeat constructor).
  split; [exact H1|].
  etrans; [exact (profiling_holds_what_resolved sampleRegistry 7%nat sampleWorld evs H1)|].
  vm_compute. reflexivity.
Defined.

(** ** The Express adapter *)

Lemma newValidity_fresh w : Express.newValidity w ∉ dom (heap w).
Proof. unfold Express.newValidity. apply is_fresh. Qed.

Lemma allocValidity_new w :
  validityAt (Express.allocValidity w) (Express.newValidity w) = freshValidity.
Proof. unfold validityAt, Express.allocValidity; simpl. by rewrite lookup_total_insert_eq. Qed.

Lemma allocValidity_old w l :
  l ≠ Express.newValidity w -> validityAt (Express.allocValidity w) l = validityAt w l.
Proof.
  intros Hne. unfold validityAt, Express.allocValidity; simpl.
  by rewrite lookup_total_insert_ne.
Qed.

(** The local list of a state that has one is there after any schedule. *)
Lemma local_list_stays reg w evs l locals :
  ___validationResults (validityAt w l) = Some locals ->
  ∃ locals', ___validationResults (validityAt (pworld (poolRun reg (emptyPool w) evs)) l)
             = Some locals'.
Proof.
  intros Hl.
  destruct (extending_pool reg evs (emptyPool w) ltac:(constructor) l) as [[_ Hsome] _].
  simpl in Hsome. destruct Hsome as [locals' H]; [by eexists|]. by exists locals'.
Qed.

(** X10.  From the middleware to the response.  The middleware gives the
    request a new state object, with an empty local list and no global
    list, at an address of its own, leaves every other state alone and
    calls [next] once.  Whatever resolvers then run, in whatever
    interleaving, the local list of that state still exists when the
    response is sent; so for a body that parses to a response with a
    truthy [data], the installed [send] always hands on to the [send] it
    replaced the re-serialised response whose errors are its own errors,
    then the messages of the local results, then those of the global
    results, together with the remaining arguments, and logs nothing.
    When each resolver has at most one wrapper, the two lists are exactly
    what the settlements of the schedule added to them, in settlement
    order. *)
Theorem middleware_to_response (J : Express.Platform) (reg : Registry)
    (x : Express.Exchange J) (w0 : World) (evs : list event) :
  let x1 := (Express.graphQLValidityMiddleware x w0).1 in
  let w1 := (Express.graphQLValidityMiddleware x w0).2 in
  let l := Express.newValidity w0 in
  let P := poolRun reg (emptyPool w1) evs in
  Express.req_validity x1 = Some l
  ∧ (l ∉ dom (heap w0))
  ∧ validityAt w1 l = freshValidity
  ∧ (forall l', l' ≠ l -> validityAt w1 l' = validityAt w0 l')
  ∧ Express.nextCalls x1 = S (Express.nextCalls x)
  ∧ ∃ locals,
      ___validationResults (validityAt (pworld P) l) = Some locals
      ∧ (forall body rest response,
           Express.JSON_parse J (Some body)
           = Fulfilled (Express.ParsedResponse response) ->
           Express.callSend x1 (body :: rest) (pworld P)
           = Express.send (Express.res_send x) x1
               (Express.JSON_stringify J
                  {| SchemaWrapper.rdata := SchemaWrapper.rdata response;
                     SchemaWrapper.rerrors :=
                       Some (default [] (SchemaWrapper.rerrors response)
                             ++ map SchemaWrapper.projectMessage locals
                             ++ map SchemaWrapper.projectMessage
                                  (default []
                                     (___globalValidationResults
                                        (validityAt (pworld P) l)))) |}
                :: rest)
               (pworld P))
      ∧ (flatSchedule evs ->
         locals = (gains reg l [] (emptyPool w1) evs).1
         ∧ default [] (___globalValidationResults (validityAt (pworld P) l))
           = (gains reg l [] (emptyPool w1) evs).2).
Proof.
  intros x1 w1 l P. subst x1 w1 l P. simpl.
  split_and!; [done|apply newValidity_fresh|apply allocValidity_new
              |intros; by apply allocValidity_old|done|].
  destruct (local_list_stays reg (Express.allocValidity w0) evs (Express.newValidity w0) [])
    as [locals Hlocals].
  { by rewrite allocValidity_new. }
  exists locals. split_and!; [done| |].
  - intros body rest response Hparse.
    unfold Express.callSend. simpl. unfold Express.intercept. simpl.
    rewrite Hparse. simpl.
    unfold getResponseValidationResults. by rewrite Hlocals.
  - intros Hflat.
    pose proof (lists_pool reg (Express.newValidity w0) evs []
                  (emptyPool (Express.allocValidity w0)) Hflat
                  (poolAccounted_empty _ _ _ _)) as H.
    unfold listsAt, addGain in H. simpl in H.
    rewrite allocValidity_new, Hlocals in H. simpl in H. by injection H.
Qed.

(** X12.  The deprecated extension.  Called without a request,
    [wrapExtension] changes nothing and returns a function that leaves the
    result alone.  Called with a request it gives the request a new state
    object at an address of its own, as the middleware does; whatever
    resolvers then run, the function it returned adds the messages of the
    local and of the global results to the errors of the result, also when
    the result has no [data], and does not throw. *)
Theorem extension_merges (J : Express.Platform) (reg : Registry)
    (x : Express.Exchange J) (w0 : World) (evs : list event) :
  (Express.wrapExtension (J:=J) None w0 = (Express.EmptyExtension, None, w0)
   ∧ forall request response w,
       Express.callExtension (J:=J) Express.EmptyExtension request response w
       = Fulfilled response)
  ∧ (let ext := (Express.wrapExtension (Some x) w0).1.1 in
     let request := (Express.wrapExtension (Some x) w0).1.2 in
     let w1 := (Express.wrapExtension (Some x) w0).2 in
     let l := Express.newValidity w0 in
     let P := poolRun reg (emptyPool w1) evs in
     request ≫= Express.req_validity = Some l
     ∧ (l ∉ dom (heap w0))
     ∧ validityAt w1 l = freshValidity
     ∧ (forall l', l' ≠ l -> validityAt w1 l' = validityAt w0 l')
     ∧ ∃ locals,
         ___validationResults (validityAt (pworld P) l) = Some locals
         ∧ forall response,
             Express.callExtension ext request response (pworld P)
             = Fulfilled
                 {| SchemaWrapper.rdata := SchemaWrapper.rdata response;
                    SchemaWrapper.rerrors :=
                      Some (default [] (SchemaWrapper.rerrors response)
                            ++ map SchemaWrapper.projectMessage locals
                            ++ map SchemaWrapper.projectMessage
                                 (default []
                                    (___globalValidationResults
                                       (validityAt (pworld P) l)))) |}).
Proof.
  split; [done|].
  intros ext request w1 l P. subst ext request w1 l P. simpl.
  split_and!; [done|apply newValidity_fresh|apply allocValidity_new
              |intros; by apply allocValidity_old|].
  destruct (local_list_stays reg (Express.allocValidity w0) evs (Express.newValidity w0) [])
    as [locals Hlocals].
  { by rewrite allocValidity_new. }
  exists locals. split; [done|].
  intros response. unfold getResponseValidationResults. by rewrite Hlocals.
Qed.

(** The extension of a request whose one field reports a violation, for a
    result without [data]. *)
Lemma extension_merges_witness :
  let ext := (Express.wrapExtension (Some sampleExchange) sampleWorld).1.1 in
  let request := (Express.wrapExtension (Some sampleExchange) sampleWorld).1.2 in
  let w1 := (Express.wrapExtension (Some sampleExchange) sampleWorld).2 in
  let evs :=
    [ Invoke (sampleV1 false) [default samplePlainArg (Express.requestArg <$> request)];
      Settle 0 (InValidator []); Settle 0 (InValidator []);
      Settle 0 (InValidator [violation "too long"]) ] in
  let P := poolRun sampleRegistry (emptyPool w1) evs in
  Express.callExtension ext request
    {| SchemaWrapper.rdata := None; SchemaWrapper.rerrors := None |} (pworld P)
  = Fulfilled {| SchemaWrapper.rdata := None;
                 SchemaWrapper.rerrors := Some [violation "too long"] |}.
Proof.
  intros ext request w1 evs P.
  destruct (extension_merges samplePlatform sampleRegistry sampleExchange sampleWorld evs)
    as (_ & _ & _ & _ & _ & locals & Hlocals & Hmerge).
  assert (Hl : locals = [violation "too long"]).
  { vm_compute in Hlocals. by injection Hlocals. }
  etrans; [exact (Hmerge {| SchemaWrapper.rdata := None;
                            SchemaWrapper.rerrors := None |})|].
  rewrite Hl. vm_compute. reflexivity.
Defined.


(** One field of a request that went through the middleware: a global
    validator and a local one report a violation each, and the response
    leaves with both messages after its own error. *)
Lemma middleware_to_response_witness :
  let x1 := (Express.graphQLValidityMiddleware sampleExchange sampleWorld).1 in
  let w1 := (Express.graphQLValidityMiddleware sampleExchange sampleWorld).2 in
  let evs :=
    [ Invoke (sampleV1 false) [Express.requestArg x1];
      Settle 0 (InValidator [violation "no token"]);
      Settle 0 (InValidator []);
      Settle 0 (InValidator [<["code" := JNum 7]> (violation "too long")]);
      Settle 0 (InValidator []); Settle 0 (InValidator []);
      Settle 0 (InResolve (Plain (JStr "value"))) ] in
  let P := poolRun sampleRegistry (emptyPool w1) evs in
  let body := Serialised {| SchemaWrapper.rdata := Some (JNum 1);
                            SchemaWrapper.rerrors := Some [violation "own"] |} in
  Express.delivered (Express.callSend x1 [body] (pworld P)).1
  = [[Serialised {| SchemaWrapper.rdata := Some (JNum 1);
                    SchemaWrapper.rerrors :=
                      Some [violation "own"; violation "too long";
                            violation "no token"] |}]].
Proof.
  intros x1 w1 evs P body.
  destruct (middleware_to_response samplePlatform sampleRegistry sampleExchange
              sampleWorld evs) as (_ & _ & _ & _ & _ & locals & Hlocals & Hsend & _).
  assert (Hl : locals = [<["code" := JNum 7]> (violation "too long")]).
  { vm_compute in Hlocals. by injection Hlocals. }
  etrans;
    [exact (f_equal (fun y => Express.delivered y.1)
              (Hsend body []
                 {| SchemaWrapper.rdata := Some (JNum 1);
                    SchemaWrapper.rerrors := Some [violation "own"] |} eq_refl))|].
  rewrite Hl. vm_compute. reflexivity.
Defined.
